(** * R_t estimator of ResearchLuxembourg/Covid-19: a shallow embedding

    The development follows [src/src/restimator.py]:

    - [prepare_cases]            (lines 45-57),
    - [highest_density_interval] (lines 61-75),
    - [get_posteriors]           (lines 79-125),
    - the analysis script        (lines 273-310),

    and [checkfile] of [src/components/check/src/checkfile.py].

    Numbers.  Case counts are integers ([Z]).  A NumPy [float64] is modelled
    by [F64.float]: an exact real number or one of the three IEEE special
    values [+inf], [-inf], [NaN].  Rounding error, overflow, underflow and the
    sign of zero are not modelled; what is modelled is the part of IEEE
    arithmetic that decides control flow and the shape of results here:
    division by zero and [log 0] do not raise in NumPy, they produce the
    special values, which then propagate; the sums of NumPy propagate
    [NaN], those of pandas skip it.  Where rounding or underflow can decide
    an outcome, the statements are about the values a run computes (its
    denominators, its likelihoods, its running sums), not about its
    inputs. *)

From Stdlib Require Import Reals Lra Lia ZArith String List Bool QArith Sorted.
From Stdlib Require Import Ascii DecimalString.
Import ListNotations.

(** ** Python exceptions *)

Inductive exn : Type :=
| ValueError (msg : string)
| IndexError (msg : string).

Inductive result (A : Type) : Type :=
| Ok (a : A)
| Raise (e : exn).

Arguments Ok {A} a.
Arguments Raise {A} e.

(** ** [float64] with its special values *)

Module F64.

Local Open Scope R_scope.

Inductive float : Type :=
| Fin (x : R)
| PInf
| NInf
| NaN.

(** The result of [x * inf] or [x / 0] by the sign of [x]. *)
Definition by_sign (x : R) (pos neg : float) : float :=
  if Rlt_dec 0 x then pos else if Rlt_dec x 0 then neg else NaN.

Definition add (a b : float) : float :=
  match a, b with
  | NaN, _ | _, NaN => NaN
  | Fin x, Fin y => Fin (x + y)
  | PInf, NInf | NInf, PInf => NaN
  | PInf, _ | _, PInf => PInf
  | NInf, _ | _, NInf => NInf
  end.

Definition neg (a : float) : float :=
  match a with
  | Fin x => Fin (- x)
  | PInf => NInf
  | NInf => PInf
  | NaN => NaN
  end.

Definition sub (a b : float) : float := add a (neg b).

Definition mul (a b : float) : float :=
  match a, b with
  | NaN, _ | _, NaN => NaN
  | Fin x, Fin y => Fin (x * y)
  | Fin x, PInf | PInf, Fin x => by_sign x PInf NInf
  | Fin x, NInf | NInf, Fin x => by_sign x NInf PInf
  | PInf, PInf | NInf, NInf => PInf
  | PInf, NInf | NInf, PInf => NInf
  end.

(** True division of NumPy: a zero divisor gives [inf] or [NaN] (with a
    RuntimeWarning), never an exception. *)
Definition div (a b : float) : float :=
  match a, b with
  | NaN, _ | _, NaN => NaN
  | Fin x, Fin y => if Req_dec_T y 0 then by_sign x PInf NInf else Fin (x / y)
  | Fin _, PInf | Fin _, NInf => Fin 0
  | PInf, Fin y => if Rlt_dec y 0 then NInf else PInf
  | NInf, Fin y => if Rlt_dec y 0 then PInf else NInf
  | _, _ => NaN
  end.

(** [np.exp] *)
Definition exp (a : float) : float :=
  match a with
  | Fin x => Fin (Rtrigo_def.exp x)
  | PInf => PInf
  | NInf => Fin 0
  | NaN => NaN
  end.

(** [np.log] *)
Definition log (a : float) : float :=
  match a with
  | Fin x => if Rlt_dec 0 x then Fin (ln x)
             else if Req_dec_T x 0 then NInf else NaN
  | PInf => PInf
  | NInf => NaN
  | NaN => NaN
  end.

(** [a > b]; every comparison with [NaN] is false. *)
Definition gtb (a b : float) : bool :=
  match a, b with
  | Fin x, Fin y => if Rlt_dec y x then true else false
  | PInf, Fin _ | PInf, NInf | Fin _, NInf => true
  | _, _ => false
  end.

(** [np.sum] of a one-dimensional array *)
Definition sum (l : list float) : float := fold_right add (Fin 0) l.

(** [np.isnan] *)
Definition isnan (v : float) : bool :=
  match v with NaN => true | _ => false end.

(** [Series.sum()], to which [np.sum] hands a pandas Series: the [NaN]
    values are skipped ([skipna=True]), and the sum of no value is [0.0]. *)
Definition nansum (l : list float) : float :=
  sum (filter (fun v => negb (isnan v)) l).

(** [np.cumsum].  The running sums are exact here; those of NumPy are
    rounded at every step, so that the last one of a column whose exact sum
    is 1 may be a neighbour of [1.0]. *)
Fixpoint cumsum_from (acc : float) (l : list float) : list float :=
  match l with
  | [] => []
  | x :: t => let a := add acc x in a :: cumsum_from a t
  end.

Definition cumsum (l : list float) : list float := cumsum_from (Fin 0) l.

End F64.

Import F64.

(** Elementwise binary operation on two arrays of the same length. *)
Fixpoint map2 {A B C : Type} (f : A -> B -> C) (l : list A) (m : list B)
  : list C :=
  match l, m with
  | x :: l', y :: m' => f x y :: map2 f l' m'
  | _, _ => []
  end.

(** ** [prepare_cases] (lines 45-57)

    A pandas Series of counts is the list of its values in index order; the
    index holds distinct dates, so [new_cases.loc[smoothed.index]] selects the
    positions that [iloc[idx_start:]] kept.  [None] is the [NaN] that [diff]
    puts in the first row. *)

Module Prepare.

Local Open Scope Z_scope.

(** Line 42 *)
Definition idx_start : nat := 22.

(** [Series.diff()] *)
Definition diff (cases : list Z) : list (option Z) :=
  match cases with
  | [] => []
  | _ :: rest => None :: map Some (map2 Z.sub rest cases)
  end.

(** [Series.any()]: whether some element that is not [NaN] is non-zero. *)
Definition any (s : list (option Z)) : bool :=
  existsb (fun v => match v with
                    | Some x => negb (x =? 0)
                    | None => false
                    end) s.

Definition dropna (s : list (option Z)) : list Z :=
  flat_map (fun v => match v with Some x => [x] | None => [] end) s.

(** The rows [t - w + 1 .. t] of [s]. *)
Definition window {A : Type} (w : nat) (s : list A) (t : nat) : list A :=
  skipn (S t - w) (firstn (S t) s).

Definition zsum (l : list Z) : Z := fold_right Z.add 0 l.

(** [Series.rolling(w, min_periods=1, center=False).mean()] *)
Definition rolling_mean (w : nat) (s : list (option Z)) : list (option Q) :=
  map (fun t =>
         let obs := dropna (window w s t) in
         match obs with
         | [] => None
         | _ :: _ => Some (zsum obs # Pos.of_nat (length obs))%Q
         end)
      (seq 0 (length s)).

(** [round()] of NumPy: to the nearest integer, halves to the even one. *)
Definition round_half_even (q : Q) : Z :=
  let d := Zpos (Qden q) in
  let f := Qnum q / d in
  let r := Qnum q mod d in
  match 2 * r ?= d with
  | Lt => f
  | Gt => f + 1
  | Eq => if Z.even f then f else f + 1
  end.

Definition round (s : list (option Q)) : list (option Z) :=
  map (option_map round_half_even) s.

(** Line 47 compares the Boolean [new_cases.any()] with [0]; Python reads the
    Boolean as [0] or [1]. *)
Definition prepare_cases (cases : list Z) (cutoff : Z)
  : result (list (option Z) * list (option Z)) :=
  let new_cases := diff cases in
  if Z.b2z (any new_cases) <? 0 then
    Raise (ValueError "Problem with data: negative new cases encountered")
  else
    let smoothed := round (rolling_mean 7 new_cases) in
    let smoothed := skipn idx_start smoothed in
    let original := skipn idx_start new_cases in
    Ok (original, smoothed).

(** What the comment of line 47 asks for: some first difference is negative. *)
Definition has_negative_increment (cases : list Z) : bool :=
  existsb (fun v => match v with
                    | Some x => x <? 0
                    | None => false
                    end) (diff cases).

(** A 30-day cumulative series growing by 10 a day, with one decrease
    (day 25 reports 200 after 240). *)
Definition series_with_decrease : list Z :=
  map (fun t => if (t =? 25) then 200 else 10 * t) (map Z.of_nat (seq 0 30)).

End Prepare.

Import Prepare.

(** ** [highest_density_interval] (lines 61-75)

    A pandas Series is the list of its (index label, value) pairs.  The
    function returns a two-row Series whose row labels are formatted from [p];
    the model returns the pair [(low, high)] of its values. *)

Module Hdi.

Definition series : Type := list (R * float).

(** Line 68: [cumsum - cumsum[:, None]], row [i], column [j] holds
    [cumsum[j] - cumsum[i]]. *)
Definition total_p (cumsum : list float) : list (list float) :=
  map (fun ci => map (fun cj => sub cj ci) cumsum) cumsum.

Definition enumerate {A : Type} (l : list A) : list (nat * A) :=
  combine (seq 0 (length l)) l.

(** [ndarray.nonzero()] of a Boolean matrix: the positions of its true
    entries in row-major order (the code receives them as the two arrays
    [lows] and [highs]). *)
Definition nonzero (m : list (list bool)) : list (nat * nat) :=
  flat_map (fun ir : nat * list bool =>
              flat_map (fun jb : nat * bool =>
                          if snd jb then [(fst ir, fst jb)] else [])
                       (enumerate (snd ir)))
           (enumerate m).

(** [ndarray.argmin()]: the first position of the least element; NumPy raises
    a ValueError on an empty array. *)
Fixpoint argmin (l : list Z) : option nat :=
  match l with
  | [] => None
  | x :: t =>
      match argmin t with
      | None => Some 0%nat
      | Some k => if (x <=? nth k t 0)%Z then Some 0%nat else Some (S k)
      end
  end.

(** The exception [argmin] raises on an empty array. *)
Definition argmin_error : exn :=
  ValueError "attempt to get argmin of an empty sequence".

Definition highest_density_interval (pmf : series) (p : R) : result (R * R) :=
  let cumsum := F64.cumsum (map snd pmf) in
  let total_p := total_p cumsum in
  let hits := nonzero (map (map (fun x => gtb x (Fin p))) total_p) in
  let lows := map fst hits in
  let highs := map snd hits in
  match argmin (map2 Z.sub (map Z.of_nat highs) (map Z.of_nat lows)) with
  | None => Raise argmin_error
  | Some best =>
      let low := nth (nth best lows 0%nat) (map fst pmf) 0%R in
      let high := nth (nth best highs 0%nat) (map fst pmf) 0%R in
      Ok (low, high)
  end.

(** Lines 63-65: a DataFrame is handled column by column; the first column
    that raises ends the call. *)
Fixpoint highest_density_interval_df {D : Type} (index : list R)
  (columns : list (D * list float)) (p : R) : result (list (D * (R * R))) :=
  match columns with
  | [] => Ok []
  | (d, col) :: rest =>
      match highest_density_interval (combine index col) p with
      | Raise e => Raise e
      | Ok lh =>
          match highest_density_interval_df index rest p with
          | Raise e => Raise e
          | Ok out => Ok ((d, lh) :: out)
          end
      end
  end.

(** *** Vocabulary of the specification *)

(** A PMF: finite non-negative values that sum to one. *)
Definition is_pmf (values : list float) : Prop :=
  Forall (fun v => exists x, v = Fin x /\ (0 <= x)%R) values /\
  F64.sum values = Fin 1.

(** The probability mass the code assigns to the index pair [(i, j)]. *)
Definition span_mass (pmf : series) (i j : nat) : float :=
  let cumsum := F64.cumsum (map snd pmf) in
  sub (nth j cumsum NaN) (nth i cumsum NaN).

(** The pair [(i, j)] is inside the Series and its mass exceeds [p]. *)
Definition qualifies (pmf : series) (p : R) (i j : nat) : Prop :=
  (i < length pmf)%nat /\ (j < length pmf)%nat /\
  gtb (span_mass pmf i j) (Fin p) = true.

(** The probability-one distribution at position [k] of the index. *)
Definition point_mass (index : list R) (k : nat) : series :=
  combine index
          (map (fun i => if Nat.eqb i k then Fin 1 else Fin 0)
               (seq 0 (length index))).

(** The index pairs line 69 enumerates, in its order. *)
Definition hits (pmf : series) (p : R) : list (nat * nat) :=
  nonzero (map (map (fun x => gtb x (Fin p)))
               (total_p (F64.cumsum (map snd pmf)))).

(** [highs - lows] of one pair. *)
Definition width (ij : nat * nat) : Z :=
  (Z.of_nat (snd ij) - Z.of_nat (fst ij))%Z.

(** Row-major order of index pairs, strict and non-strict. *)
Definition lex_lt (a b : nat * nat) : Prop :=
  (fst a < fst b)%nat \/ (fst a = fst b /\ (snd a < snd b)%nat).

Definition lex_le (a b : nat * nat) : Prop :=
  (fst a < fst b)%nat \/ (fst a = fst b /\ (snd a <= snd b)%nat).

(** Two small distributions over the first labels of the Grid. *)
Definition two_point_pmf : series :=
  [(0, Fin (1 / 2)); (1 / 100, Fin (1 / 2))]%R.

Definition three_point_pmf : series :=
  [(0, Fin (1 / 4)); (1 / 100, Fin (1 / 2)); (2 / 100, Fin (1 / 4))]%R.

(** An index whose consecutive labels are exactly [h >= 0] apart.  The
    [float64] labels of [np.linspace(0, 10, 1001)] are not: they are the
    multiples of [0.01] rounded, see [float64_labels]. *)
Definition evenly_spaced (index : list R) : Prop :=
  exists a h : R, (0 <= h)%R /\
    index = map (fun i => (a + INR i * h)%R) (seq 0 (length index)).

(** The pair [(lows[best], highs[best])] of lines 69-70: the first of the
    narrowest index pairs whose mass exceeds [p]; [None] when [argmin]
    raises. *)
Definition best_pair (pmf : series) (p : R) : option (nat * nat) :=
  match argmin (map width (hits pmf p)) with
  | None => None
  | Some best => Some (nth best (hits pmf p) (0, 0)%nat)
  end.

(** The first four labels of the Grid as NumPy computes them,
    [i * 0.01] in [float64] for [i = 0 .. 3]:
    [0.01 = 5764607523034235 / 2^59], [0.02] its double and
    [0.03 = 1080863910568919 / 2^55], so that [0.03 - 0.01 < 0.02 - 0]. *)
Definition float64_labels : list R :=
  [0; 5764607523034235 / 576460752303423488;
   5764607523034235 / 288230376151711744;
   1080863910568919 / 36028797018963968]%R.

(** A distribution over these labels. *)
Definition skewed_pmf : series :=
  combine float64_labels
          [Fin 0; Fin (1 / 16); Fin (15 / 32); Fin (15 / 32)]%R.

End Hdi.

Import Hdi.

(** ** [get_posteriors] (lines 79-125) *)

Module Estimator.

Local Open Scope R_scope.

(** The state of NumPy's global generator: the stream of standard normal
    variates it will produce and the position reached in it. *)
Record RandomState : Type := { gauss : nat -> R; pos : nat }.

(** [np.random.normal(loc, scale, size)]: the next [size] variates, scaled and
    shifted; the generator advances by [size]. *)
Definition random_normal (loc scale : R) (size : nat) (st : RandomState)
  : list R * RandomState :=
  (map (fun i => loc + scale * gauss st (pos st + i)) (seq 0 size),
   {| gauss := gauss st; pos := (pos st + size)%nat |}).

(** [np.linspace(start, stop, num)], with exact values; the [float64]
    values NumPy returns are the nearest representable ones. *)
Definition linspace (start stop : R) (num : nat) : list R :=
  map (fun i => start + INR i * ((stop - start) / INR (num - 1))) (seq 0 num).

(** Lines 286-287 *)
Definition R_T_MAX : nat := 10.
Definition r_t_range_LU : list R :=
  linspace 0 (INR R_T_MAX) (R_T_MAX * 100 + 1).

(** [scipy.stats.norm(loc, scale).pdf(x)]; an invalid scale gives [NaN]. *)
Definition norm_pdf (loc scale x : R) : float :=
  if Rlt_dec 0 scale then
    Fin (Rtrigo_def.exp (- (((x - loc) / scale) ^ 2) / 2) / sqrt (2 * PI)
         / scale)
  else NaN.

(** [scipy.stats.poisson.pmf(k, mu)] at an integral [k]:
    [exp(-mu) mu^k / k!] for [mu >= 0] and [k >= 0], zero below the support,
    [NaN] for an invalid rate.  The mass is the exact one, positive on the
    support for every [mu > 0]; in [float64] it underflows to [0.0] for
    large rates, which nothing below relies on. *)
Definition poisson_pmf (k : Z) (mu : float) : float :=
  match mu with
  | Fin m =>
      if Rlt_dec m 0 then NaN
      else if (k <? 0)%Z then Fin 0
      else Fin (Rtrigo_def.exp (- m) * m ^ Z.to_nat k
                / INR (fact (Z.to_nat k)))
  | PInf => if (k <=? 0)%Z then Fin 0 else NaN
  | NInf | NaN => NaN
  end.

(** Column [t] of a two-dimensional array given by its rows. *)
Definition column (t : nat) (data : list (list float)) : list float :=
  map (fun row => nth t row NaN) data.

(** [m.sum(axis=0)] of an array with [ncols] columns. *)
Definition sum_axis0 (ncols : nat) (m : list (list float)) : list float :=
  fold_right (map2 add) (repeat (Fin 0) ncols) m.

(** [m @ v] *)
Definition matvec (m : list (list float)) (v : list float) : list float :=
  map (fun row => F64.sum (map2 mul row v)) m.

Section Grid.

(** The module-level global [r_t_range] that [get_posteriors] reads. *)
Variable r_t_range : list R.

(** Type of the date labels. *)
Context {D : Type}.

(** Line 81 *)
Definition draw_gamma (st : RandomState) : list float * RandomState :=
  let (s, st') := random_normal 4 (2 / 10) (length r_t_range) st in
  (map (fun x => div (Fin 1) (Fin x)) s, st').

(** Line 82: row [i] holds [sr[t] * exp(gamma[i] * (r_t_range[i] - 1))]. *)
Definition lam (sr : list Z) (gamma : list float) : list (list float) :=
  map2 (fun g r =>
          let e := F64.exp (mul g (sub (Fin r) (Fin 1))) in
          map (fun c => mul (Fin (IZR c)) e) (removelast sr))
       gamma r_t_range.

(** Line 86 *)
Definition likelihood_data (sr : list Z) (gamma : list float)
  : list (list float) :=
  map (fun row => map2 poisson_pmf (tl sr) row) (lam sr gamma).

(** Lines 91-94 *)
Definition process_matrix (sigma : R) : list (list float) :=
  let raw :=
    map (fun x => map (fun loc => norm_pdf loc sigma x) r_t_range) r_t_range in
  let total := sum_axis0 (length r_t_range) raw in
  map (fun row => map2 div row total) raw.

(** Lines 97-98 *)
Definition prior0 : list float :=
  let ones_over_n :=
    map (fun _ => div (Fin 1) (Fin (INR (length r_t_range)))) r_t_range in
  map (fun x => div x (F64.sum ones_over_n)) ones_over_n.

(** Lines 111-120: one pass of the loop body, giving the new posterior and
    the denominator it was divided by.  [numerator] is a pandas Series (a
    column of [likelihoods] times an array), so the [np.sum] of line 117 is
    [Series.sum()] and skips its [NaN] values. *)
Definition bayes_update (pm : list (list float)) (previous likelihood : list float)
  : list float * float :=
  let current_prior := matvec pm previous in
  let numerator := map2 mul likelihood current_prior in
  let denominator := F64.nansum numerator in
  (map (fun x => div x denominator) numerator, denominator).

(** Lines 108-123.  The dates are distinct column labels, so
    [posteriors[previous_day]] is the column the previous pass stored (the
    prior on the first pass); it is passed along as [previous]. *)
Fixpoint bayes_loop (pm : list (list float)) (previous : list float)
  (likelihoods : list (list float)) (log_likelihood : float)
  : list (list float) * float :=
  match likelihoods with
  | [] => ([], log_likelihood)
  | likelihood :: rest =>
      let (posterior, denominator) := bayes_update pm previous likelihood in
      let (columns, final) :=
        bayes_loop pm posterior rest
                   (add log_likelihood (F64.log denominator)) in
      (posterior :: columns, final)
  end.

(** The PosteriorTable: the columns of the DataFrame in date order. *)
Definition table : Type := list (D * list float).

Definition get_posteriors (st : RandomState) (sr : list Z) (date : list D)
  (sigma : R) : result (table * float) * RandomState :=
  let (gamma, st') := draw_gamma st in
  let data := likelihood_data sr gamma in
  if negb (Nat.eqb (length (removelast sr)) (length (tl date))) then
    (Raise (ValueError "Shape of passed values does not match the indices"),
     st')
  else
    let likelihoods :=
      map (fun t => column t data) (seq 0 (length (tl date))) in
    let pm := process_matrix sigma in
    match date with
    | [] => (Raise (IndexError "index 0 is out of bounds"), st')
    | _ :: _ =>
        let (columns, log_likelihood) :=
          bayes_loop pm prior0 likelihoods (Fin 0) in
        (Ok (combine date (prior0 :: columns), log_likelihood), st')
    end.

(** *** Vocabulary of the specification *)

(** The denominators of the passes of [bayes_loop], in date order. *)
Fixpoint denominators (pm : list (list float)) (previous : list float)
  (likelihoods : list (list float)) : list float :=
  match likelihoods with
  | [] => []
  | likelihood :: rest =>
      let (posterior, denominator) := bayes_update pm previous likelihood in
      denominator :: denominators pm posterior rest
  end.

(** The denominators met by a call of [get_posteriors]. *)
Definition day_denominators (st : RandomState) (sr : list Z) (date : list D)
  (sigma : R) : list float :=
  let data := likelihood_data sr (fst (draw_gamma st)) in
  denominators (process_matrix sigma) prior0
               (map (fun t => column t data) (seq 0 (length (tl date)))).

(** The likelihoods met by a call of [get_posteriors]: the columns of the
    DataFrame [likelihoods], in date order. *)
Definition day_likelihoods (st : RandomState) (sr : list Z) (date : list D)
  : list (list float) :=
  let data := likelihood_data sr (fst (draw_gamma st)) in
  map (fun t => column t data) (seq 0 (length (tl date))).

(** The serial-interval samples of a run: the values the one call of
    [np.random.normal] returns. *)
Definition serial_interval_draws (st : RandomState) : list R :=
  fst (random_normal 4 (2 / 10) (length r_t_range) st).

(** The likelihood of grid point [i] on day pair [t] as the specification
    words it: the Poisson mass at the next count, the rate built with the
    Normal sample itself as [gamma]. *)
Definition likelihood_as_specified (st : RandomState) (sr : list Z)
  (i t : nat) : float :=
  let g := Fin (nth i (serial_interval_draws st) 0) in
  let r := Fin (nth i r_t_range 0) in
  poisson_pmf (nth (S t) sr 0%Z)
              (mul (Fin (IZR (nth t sr 0%Z)))
                   (F64.exp (mul g (sub r (Fin 1))))).

(** The likelihood with the reciprocal of the sample as [gamma]. *)
Definition likelihood_reciprocal (st : RandomState) (sr : list Z)
  (i t : nat) : float :=
  let g := div (Fin 1) (Fin (nth i (serial_interval_draws st) 0)) in
  let r := Fin (nth i r_t_range 0) in
  poisson_pmf (nth (S t) sr 0%Z)
              (mul (Fin (IZR (nth t sr 0%Z)))
                   (F64.exp (mul g (sub r (Fin 1))))).

End Grid.

(** The rate of one grid point and one day pair, as line 82 computes it. *)
Definition rate (g : float) (r : R) (previous : Z) : float :=
  mul (Fin (IZR previous)) (F64.exp (mul g (sub (Fin r) (Fin 1)))).

(** The value, if it is finite, is non-negative. *)
Definition weakly_nonneg (v : float) : Prop := forall x, v = Fin x -> 0 <= x.

Definition finite_nonzero (v : float) : Prop := exists x, v = Fin x /\ x <> 0.

(** *** Real-valued counterparts

    On finite arrays the [float] operations are those of the reals; the
    definitions below are the real-valued readings the proofs compare the
    code with. *)

Definition rsum (l : list R) : R := fold_right Rplus 0 l.

Definition rsum_axis0 (ncols : nat) (m : list (list R)) : list R :=
  fold_right (map2 Rplus) (repeat 0 ncols) m.

Definition rmatvec (m : list (list R)) (v : list R) : list R :=
  map (fun row => rsum (map2 Rmult row v)) m.

(** The density of [norm_pdf] for a valid scale. *)
Definition gauss_density (loc scale x : R) : R :=
  Rtrigo_def.exp (- (((x - loc) / scale) ^ 2) / 2) / sqrt (2 * PI) / scale.

Definition raw_R (grid : list R) (sigma : R) : list (list R) :=
  map (fun x => map (fun loc => gauss_density loc sigma x) grid) grid.

Definition process_matrix_R (r_t_range : list R) (sigma : R) : list (list R) :=
  let raw :=
    map (fun x => map (fun loc => gauss_density loc sigma x) r_t_range)
        r_t_range in
  let total := rsum_axis0 (length r_t_range) raw in
  map (fun row => map2 Rdiv row total) raw.

(** The Poisson mass of [poisson_pmf] for a valid rate and count. *)
Definition poisson_mass (k : Z) (m : R) : R :=
  Rtrigo_def.exp (- m) * m ^ Z.to_nat k / INR (fact (Z.to_nat k)).

Definition likelihood_R (s r : R) (previous next : Z) : R :=
  poisson_mass next (IZR previous * Rtrigo_def.exp (1 / s * (r + - 1))).

Definition prior_R (grid : list R) : list R :=
  map (fun _ => / INR (length grid)) grid.

(** A generator whose stream is constantly [z]: every sample of
    [random_normal 4 0.2] is [4 + 0.2 z]. *)
Definition constant_stream (z : R) : RandomState :=
  {| gauss := fun _ => z; pos := 0 |}.

(** A generator whose first 1001 variates are [0] and whose later ones are
    [5]: the first call of [random_normal 4 0.2] for the Grid returns [4]
    throughout, the second [5] throughout. *)
Definition switching_stream : RandomState :=
  {| gauss := fun i => if (i <? 1001)%nat then 0 else 5; pos := 0 |}.

End Estimator.

Import Estimator.

(** ** The analysis script (lines 259-311 of [restimator.py]) *)

Module Script.

(** [Series.cumsum()] of a column of integer counts. *)
Fixpoint cumsum_from (acc : Z) (l : list Z) : list Z :=
  match l with
  | [] => []
  | x :: t => (acc + x)%Z :: cumsum_from (acc + x)%Z t
  end.

Definition cumsum (l : list Z) : list Z := cumsum_from 0%Z l.

(** Lines 275-278: the daily counts are accumulated and handed to
    [prepare_cases] with its default [cutoff]. *)
Definition prepare_daily (new_cases : list Z)
  : result (list (option Z) * list (option Z)) :=
  prepare_cases (cumsum new_cases) 25.

End Script.

Definition positive_finite (v : float) : Prop :=
  exists x, v = Fin x /\ (0 < x)%R.

(** The counts are non-negative and no positive count follows a zero one. *)
Definition never_rises_from_zero (sr : list Z) : Prop :=
  forall t, (S t < length sr)%nat ->
    (0 <= nth t sr 0)%Z /\ (0 <= nth (S t) sr 0)%Z /\
    (nth t sr 0%Z = 0%Z -> nth (S t) sr 0%Z = 0%Z).

(** ** The summaries of the analysis script (lines 294, 305-310) *)

Module Summary.

Local Open Scope R_scope.

(** [nanargmax] compares the values with every [NaN] replaced by [-inf]. *)
Definition fill_neg_inf (v : float) : float := if isnan v then NInf else v.

(** [argmax]: the label of the first greatest value. *)
Fixpoint argmax_from (best : R * float) (s : series) : R :=
  match s with
  | [] => fst best
  | (label, v) :: rest =>
      if gtb (fill_neg_inf v) (snd best)
      then argmax_from (label, fill_neg_inf v) rest
      else argmax_from best rest
  end.

(** [idxmax] of one column (pandas 1.x, [skipna=True]): [None] is the [NaN]
    that a column holding only [NaN] gets. *)
Definition idxmax (s : series) : option R :=
  match s with
  | [] => None
  | (label, v) :: rest =>
      if forallb isnan (map snd s) then None
      else Some (argmax_from (label, fill_neg_inf v) rest)
  end.

(** Line 294: [posteriors.idxmax()], the estimate of every day; the frame's
    rows are the grid points, and [argmax] raises when there is none. *)
Definition most_likely {D : Type} (r_t_range : list R)
  (posteriors : list (D * list float)) : result (list (D * option R)) :=
  match r_t_range with
  | [] => Raise (ValueError "attempt to get argmax of an empty sequence")
  | _ :: _ =>
      Ok (map (fun column =>
                 (fst column, idxmax (combine r_t_range (snd column))))
              posteriors)
  end.

(** [DataFrame.cumsum()] down a column: a [NaN] value stays [NaN] and does
    not enter the running sum. *)
Fixpoint cumsum_skipna (acc : float) (l : list float) : list float :=
  match l with
  | [] => []
  | NaN :: t => NaN :: cumsum_skipna acc t
  | x :: t => add acc x :: cumsum_skipna (add acc x) t
  end.

(** [column.iloc[k:].cumsum().iloc[-1]]: the last running sum of the rows
    from [k] on; an IndexError when there is no such row. *)
Definition tail_mass (k : nat) (column : list float) : result float :=
  match cumsum_skipna (Fin 0) (skipn k column) with
  | [] => Raise (IndexError "single positional indexer is out-of-bounds")
  | c :: cs => Ok (last (c :: cs) NaN)
  end.

(** The nearest integer, halves to the even one ([np.rint]). *)
Definition rint (x : R) : Z :=
  let f := Int_part x in
  if Rlt_dec (x - IZR f) (1 / 2) then f
  else if Rlt_dec (1 / 2) (x - IZR f) then (f + 1)%Z
  else if Z.even f then f else (f + 1)%Z.

(** [np.round(v, decimals)] *)
Definition np_round (decimals : nat) (v : float) : float :=
  match v with
  | Fin x => Fin (IZR (rint (x * 10 ^ decimals)) / 10 ^ decimals)
  | _ => v
  end.

(** Lines 305-307: the rounded mass, in the last column, of the rows from
    [threshold] on. *)
Definition scenario_probability {D : Type} (threshold : nat)
  (posteriors : list (D * list float)) : result float :=
  match rev posteriors with
  | [] => Raise (IndexError "single positional indexer is out-of-bounds")
  | (_, column) :: _ =>
      match tail_mass threshold column with
      | Ok m => Ok (np_round 2 m)
      | Raise e => Raise e
      end
  end.

Definition current_prob {D : Type} (posteriors : list (D * list float)) :=
  scenario_probability 100 posteriors.
Definition pess_prob {D : Type} (posteriors : list (D * list float)) :=
  scenario_probability 90 posteriors.
Definition pess_pess_prob {D : Type} (posteriors : list (D * list float)) :=
  scenario_probability 80 posteriors.

(** Line 309: the rounded mass of the rows from 100 on, for every day; the
    rows are the grid points, [iloc[-1]] raises when none is left. *)
Definition current_prob1 {D : Type} (r_t_range : list R)
  (posteriors : list (D * list float)) : result (list (D * float)) :=
  match skipn 100 r_t_range with
  | [] => Raise (IndexError "single positional indexer is out-of-bounds")
  | _ :: _ =>
      Ok (map (fun column =>
                 (fst column,
                  np_round 2
                    (last (cumsum_skipna (Fin 0) (skipn 100 (snd column)))
                          NaN)))
              posteriors)
  end.

(** [rolling(7, min_periods=1, center=True)]: the window of day [t] holds
    the days [t-3 .. t+3] that exist. *)
Definition window_centered (l : list float) (t : nat) : list float :=
  firstn (t + 4 - (t - 3)) (skipn (t - 3) l).

(** The mean of the values of a window that are not [NaN]; [NaN] when there
    is none ([min_periods=1]).  The values are finite or [NaN]. *)
Definition nanmean (w : list float) : float :=
  match filter (fun v => negb (isnan v)) w with
  | [] => NaN
  | v :: vs => div (sum (v :: vs)) (Fin (INR (length (v :: vs))))
  end.

Definition rolling_mean_centered (l : list float) : list float :=
  map (fun t => nanmean (window_centered l t)) (seq 0 (length l)).

(** Line 310 *)
Definition smooth_prob {D : Type} (r_t_range : list R)
  (posteriors : list (D * list float)) : result (list (D * float)) :=
  match current_prob1 r_t_range posteriors with
  | Ok s => Ok (combine (map fst s) (rolling_mean_centered (map snd s)))
  | Raise e => Raise e
  end.

End Summary.

(** ** The check of the input file (components/check/src/checkfile.py) *)

Module Checkfile.

Local Open Scope string_scope.

Inductive error : Type :=
| ValueError (msg : string)
| TypeError
| AttributeError
| IndexError (msg : string)
| OSError (errno : nat).

Inductive outcome (A : Type) : Type :=
| Returns (a : A)
| Raises (e : error).
Arguments Returns {A} a.
Arguments Raises {A} e.

Definition bind {A B : Type} (m : outcome A) (f : A -> outcome B)
  : outcome B :=
  match m with
  | Returns a => f a
  | Raises e => Raises e
  end.

Notation "x <- m ;; f" := (bind m (fun x => f))
  (at level 61, m at next level, right associativity).

(** The double quotation mark *)
Definition quote : string := String (ascii_of_nat 34) EmptyString.

(** [str(n)] of a non-negative integer *)
Definition str (n : nat) : string := NilEmpty.string_of_uint (Nat.to_uint n).

(** *** Paths ([posixpath]) *)

(** [p.rfind(c)]; [None] is the [-1] of no occurrence. *)
Fixpoint rfind (c : ascii) (p : string) : option nat :=
  match p with
  | EmptyString => None
  | String a rest =>
      match rfind c rest with
      | Some i => Some (S i)
      | None => if Ascii.eqb a c then Some 0%nat else None
      end
  end.

(** [p[i:]] *)
Definition from (i : nat) (p : string) : string :=
  substring i (String.length p - i) p.

(** [os.path.basename] *)
Definition basename (p : string) : string :=
  match rfind "/" p with
  | Some i => from (S i) p
  | None => p
  end.

(** [os.path.splitext]: the extension starts at the last dot of the last
    component, unless only dots come before it in that component. *)
Definition splitext (p : string) : string * string :=
  let filenameIndex :=
    match rfind "/" p with Some sepIndex => S sepIndex | None => 0%nat end in
  match rfind "." p with
  | Some dotIndex =>
      if (filenameIndex <=? dotIndex)%nat
         && existsb (fun a => negb (Ascii.eqb a "."))
              (list_ascii_of_string
                 (substring filenameIndex (dotIndex - filenameIndex) p))
      then (substring 0 dotIndex p, from dotIndex p)
      else (p, EmptyString)
  | None => (p, EmptyString)
  end.

(** *** Sheets *)

(** The value of a cell: a [str], a number ([NaN] for an empty cell) or a
    timestamp, kept as its day in the format [%Y%m%d] and the time of that
    day. *)
Inductive cell : Type :=
| Text (s : string)
| Number (x : float)
| Timestamp (day : string) (clock : N).

(** A data frame: its column labels, its number of rows and the cell of a
    column at a position. *)
Record frame : Type := {
  columns : list string;
  nrows : nat;
  iloc : string -> nat -> cell
}.

Definition has_column (c : string) (df : frame) : bool :=
  existsb (String.eqb c) (columns df).

(** [df.iloc[::-1].reset_index()]: the rows in reverse order, and the old
    positions as a new first column, which must not exist yet. *)
Definition reversed_reset_index (df : frame) : outcome frame :=
  let name := if has_column "index" df then "level_0" else "index" in
  if has_column name df
  then Raises (ValueError ("cannot insert " ++ name ++ ", already exists"))
  else Returns
         {| columns := name :: columns df;
            nrows := nrows df;
            iloc := fun c i =>
              if String.eqb c name
              then Number (Fin (INR (nrows df - 1 - i)))
              else iloc df c (nrows df - 1 - i) |}.

(** A label that is not one of the two that [reset_index] may add. *)
Definition plain (c : string) : Prop := c <> "index" /\ c <> "level_0".

Definition is_str (v : cell) : bool :=
  match v with Text _ => true | _ => false end.

(** [a < b] *)
Definition lt (a b : cell) : outcome bool :=
  match a, b with
  | Number x, Number y => Returns (gtb y x)
  | Text s, Text t => Returns (String.ltb s t)
  | Timestamp d c, Timestamp d' c' =>
      Returns (String.ltb d d' || (String.eqb d d' && (c <? c')%N))
  | _, _ => Raises TypeError
  end.

(** [v.strftime('%Y%m%d')] *)
Definition strftime (v : cell) : outcome string :=
  match v with
  | Timestamp day _ => Returns day
  | _ => Raises AttributeError
  end.

(** The environment of a call: the files that exist, the two readings of
    the clock (lines 28 and 62), the content of a workbook and the outcome
    of renaming. *)
Record world : Type := {
  isfile : string -> bool;
  today : string;
  yesterday : string;
  read_excel : string -> outcome frame;
  rename : string -> string -> option error
}.

(** The same environment with another content of the workbooks. *)
Definition with_sheet (w : world) (sheet : frame) : world :=
  {| isfile := isfile w; today := today w; yesterday := yesterday w;
     read_excel := fun _ => Returns sheet; rename := rename w |}.

Inductive event : Type :=
| Rename (old_name new_name : string).

(** A [for] loop over [range]: the first exception ends it. *)
Fixpoint for_range (body : nat -> outcome unit) (range : list nat)
  : outcome unit :=
  match range with
  | [] => Returns tt
  | i :: rest => _ <- body i ;; for_range body rest
  end.

(** Lines 47-53, the body of the first loop *)
Definition check_entry (full_data : frame) (i : nat) : outcome unit :=
  let new_cases := iloc full_data "new_cases" i in
  let new_cases_resident := iloc full_data "new_cases_resident" i in
  if negb (is_str new_cases) && negb (is_str new_cases_resident) then
    negative <- lt new_cases (Number (Fin 0)) ;;
    if negative then
      Raises (ValueError
        ("Warning: invalid data entry detected (negative number) at line "
         ++ str (nrows full_data - i)))
    else
      negative <- lt new_cases_resident (Number (Fin 0)) ;;
      if negative then
        Raises (ValueError
          ("Warning: invalid data entry detected (negative number) at line "
           ++ str (nrows full_data - i)))
      else Returns tt
  else
    Raises (ValueError
      ("Error: invalid data entry detected (not a number) at line "
       ++ str (nrows full_data - i))).

(** Lines 57-59, the body of the second loop *)
Definition check_consistency (full_data : frame) (daily_data : nat)
  : outcome unit :=
  less <- lt (iloc full_data "new_cases" daily_data)
             (iloc full_data "new_cases_resident" daily_data) ;;
  if less then
    Raises (ValueError
      "Warning: total cases less than resident cases: are there missing data?")
  else Returns tt.

(** Lines 62-64: the last row of the reversed frame *)
Definition check_latest (w : world) (full_data : frame) : outcome unit :=
  match nrows full_data with
  | O => Raises (IndexError "single positional indexer is out-of-bounds")
  | S last =>
      day <- strftime (iloc full_data "report_date" last) ;;
      if String.eqb day (yesterday w) then Returns tt
      else Raises (ValueError "Warning: missing data point of today")
  end.

(** Lines 68-71: [start] becomes 1 at a row of 2020-02-28. *)
Fixpoint find_start (full_data : frame) (range : list nat) (start : bool)
  : outcome bool :=
  match range with
  | [] => Returns start
  | i :: rest =>
      day <- strftime (iloc full_data "report_date" i) ;;
      find_start full_data rest
        (if String.eqb day "20200228" then true else start)
  end.

Definition expected_name (w : world) : string :=
  "clinical_monitoring_" ++ today w ++ "_cleaned_case_and_hospital_data".

Definition new_name : string := "input/input-data.xlsx".

(** Lines 46-73: the checks of the rows *)
Definition check_rows (w : world) (full_data : frame) : outcome unit :=
  _ <- for_range (check_entry full_data) (seq 0 (nrows full_data)) ;;
  _ <- for_range (check_consistency full_data) (seq 0 (nrows full_data)) ;;
  _ <- check_latest w full_data ;;
  start <- find_start full_data (seq 0 (nrows full_data)) false ;;
  if start then Returns tt
  else Raises (ValueError
    "Warning: data series not complete from beginning (2022-02-28)").

(** Lines 34-73: the checks of the content *)
Definition check_content (w : world) (inputfile : string) : outcome unit :=
  sheet <- read_excel w inputfile ;;
  full_data <- reversed_reset_index sheet ;;
  if negb (has_column "report_date" full_data) then
    Raises (ValueError ("Error: Expected column " ++ quote ++ "report_date"
                        ++ quote ++ " not found"))
  else if negb (has_column "new_cases" full_data) then
    Raises (ValueError ("Error: Expected column " ++ quote ++ "new_cases"
                        ++ quote ++ " not found"))
  else if negb (has_column "new_cases_resident" full_data) then
    Raises (ValueError ("Error: Expected column " ++ quote
                        ++ "new_cases_resident" ++ quote ++ " not found"))
  else check_rows w full_data.

(** [checkfile(inputfile)]: what the call returns or raises, and the
    renamings it has made. *)
Definition checkfile (w : world) (inputfile : string)
  : outcome bool * list event :=
  let check := true in
  if negb (isfile w inputfile) then
    (Raises (ValueError "Error: file does not exist"), [])
  else if negb (String.eqb (snd (splitext inputfile)) ".xlsx") then
    (Raises (ValueError
       "Error: incorrect input file format. Expected Excel .xlsx, received other"),
     [])
  else if negb (String.eqb (fst (splitext (basename inputfile)))
                           (expected_name w)) then
    (Raises (ValueError
       ("Error: file name incorrect. Expected " ++ quote
        ++ "clinical_monitoring_DATEOFTODAY_cleaned_case_and_hospital_data.xlsx"
        ++ quote)),
     [])
  else
    match check_content w inputfile with
    | Raises e => (Raises e, [])
    | Returns _ =>
        match rename w inputfile new_name with
        | Some e => (Raises e, [])
        | None => (Returns check, [Rename inputfile new_name])
        end
    end.

(** *** Sheets and rows, in the order of the file *)

(** The file passes the checks of its name and the sheet those of its
    columns (lines 18-43). *)
Definition opens (w : world) (inputfile : string) (sheet : frame) : Prop :=
  isfile w inputfile = true /\
  snd (splitext inputfile) = ".xlsx" /\
  fst (splitext (basename inputfile)) = expected_name w /\
  read_excel w inputfile = Returns sheet /\
  (In "index" (columns sheet) -> ~ In "level_0" (columns sheet)) /\
  In "report_date" (columns sheet) /\
  In "new_cases" (columns sheet) /\
  In "new_cases_resident" (columns sheet).

(** Both counts of row [i] are numbers and none is below zero. *)
Definition clean_entry (sheet : frame) (i : nat) : Prop :=
  exists a b,
    iloc sheet "new_cases" i = Number a /\
    iloc sheet "new_cases_resident" i = Number b /\
    gtb (Fin 0) a = false /\ gtb (Fin 0) b = false.

(** One of the counts of row [i] is a [str]. *)
Definition text_entry (sheet : frame) (i : nat) : bool :=
  is_str (iloc sheet "new_cases" i)
  || is_str (iloc sheet "new_cases_resident" i).

(** Both counts of row [i] are numbers and one of them is below zero. *)
Definition negative_entry (sheet : frame) (i : nat) : Prop :=
  exists a b,
    iloc sheet "new_cases" i = Number a /\
    iloc sheet "new_cases_resident" i = Number b /\
    (gtb (Fin 0) a = true \/ gtb (Fin 0) b = true).

(** Row [i] passes every check made on each row. *)
Definition valid_row (sheet : frame) (i : nat) : Prop :=
  exists a b day clock,
    iloc sheet "new_cases" i = Number a /\
    iloc sheet "new_cases_resident" i = Number b /\
    iloc sheet "report_date" i = Timestamp day clock /\
    gtb (Fin 0) a = false /\ gtb (Fin 0) b = false /\ gtb b a = false.

(** The sheet with both counts of row [i] left empty. *)
Definition blank_counts (sheet : frame) (i : nat) : frame :=
  {| columns := columns sheet;
     nrows := nrows sheet;
     iloc := fun c j =>
       if (Nat.eqb j i
           && (String.eqb c "new_cases" || String.eqb c "new_cases_resident"))%bool
       then Number NaN
       else iloc sheet c j |}.

(** *** A workbook of three days *)

(** Three rows, the newest first; the middle row has [cases] as its count
    of new cases. *)
Definition example_sheet (cases : cell) : frame :=
  {| columns := ["report_date"; "new_cases"; "new_cases_resident"];
     nrows := 3;
     iloc := fun c i =>
       if String.eqb c "report_date" then
         match i with
         | O => Timestamp "20201102" 0
         | S O => Timestamp "20200229" 0
         | _ => Timestamp "20200228" 0
         end
       else if String.eqb c "new_cases" then
         match i with
         | O => Number (Fin 5)
         | S O => cases
         | _ => Number (Fin 1)
         end
       else
         match i with
         | O => Number (Fin 3)
         | _ => Number (Fin 1)
         end |}.

Definition example_world (cases : cell) : world :=
  {| isfile := fun _ => true;
     today := "20201103";
     yesterday := "20201102";
     read_excel := fun _ => Returns (example_sheet cases);
     rename := fun _ _ => None |}.

(** A workbook with the three columns and no row. *)
Definition empty_sheet : frame :=
  {| columns := ["report_date"; "new_cases"; "new_cases_resident"];
     nrows := 0;
     iloc := fun _ _ => Number NaN |}.

Definition example_file : string :=
  "data/clinical_monitoring_20201103_cleaned_case_and_hospital_data.xlsx".

End Checkfile.

(** * Properties *)

(** ** [prepare_cases] *)


Lemma b2z_not_negative (b : bool) : (Z.b2z b <? 0)%Z = false.
Proof. destruct b; reflexivity. Qed.

Lemma prepare_cases_never_raises (cases : list Z) (cutoff : Z) :
  prepare_cases cases cutoff
  = Ok (skipn idx_start (diff cases),
        skipn idx_start (round (rolling_mean 7 (diff cases)))).
Proof.
  unfold prepare_cases. now rewrite b2z_not_negative.
Qed.

(** C1. The claim: a cumulative series with a negative first difference makes
    [prepare_cases] fail.  The code: on the 30-day series
    [series_with_decrease], whose difference at day 25 is [-40],
    [prepare_cases] raises nothing and returns the trimmed series, the
    negative increment [-40] among the original increments and averaged into
    the smoothed value [3] of that day. *)
Theorem prepare_cases_accepts_decrease :
  has_negative_increment series_with_decrease = true /\
  prepare_cases series_with_decrease 25
  = Ok ([Some 10; Some 10; Some 10; Some (-40); Some 60; Some 10; Some 10;
         Some 10]%Z,
        [Some 10; Some 10; Some 10; Some 3; Some 10; Some 10; Some 10;
         Some 10]%Z).
Proof. split; vm_compute; reflexivity. Qed.

(** ** Arrays *)

Lemma nth_map_in {A B : Type} (f : A -> B) (l : list A) (i : nat) (d : B) (d' : A) :
  (i < length l)%nat -> nth i (map f l) d = f (nth i l d').
Proof.
  intros Hi. rewrite (nth_indep _ d (f d')) by now rewrite length_map.
  apply map_nth.
Qed.

Lemma map2_pairs {A B C E : Type} (f : B -> C -> E) (g : A -> B) (h : A -> C)
  (l : list A) :
  map2 f (map g l) (map h l) = map (fun x => f (g x) (h x)) l.
Proof. induction l as [|x l IH]; simpl; [reflexivity | now rewrite IH]. Qed.

Lemma cumsum_from_length (acc : float) (l : list float) :
  length (cumsum_from acc l) = length l.
Proof. revert acc; induction l as [|x l IH]; intros acc; simpl; auto. Qed.

Lemma cumsum_from_cons (acc x : float) (t : list float) :
  cumsum_from acc (x :: t) = add acc x :: cumsum_from (add acc x) t.
Proof. reflexivity. Qed.

Lemma cumsum_length (l : list float) : length (F64.cumsum l) = length l.
Proof. apply cumsum_from_length. Qed.

(** ** [argmin] *)

Lemma argmin_None (l : list Z) : argmin l = None <-> l = [].
Proof.
  split; intros H; [| now subst].
  destruct l as [|x t]; [reflexivity|]. simpl in H.
  destruct (argmin t); [destruct (x <=? nth n t 0)%Z|]; discriminate.
Qed.

Lemma argmin_first_least (l : list Z) (k : nat) :
  argmin l = Some k ->
  (k < length l)%nat /\
  (forall m, (m < length l)%nat -> (nth k l 0 <= nth m l 0)%Z) /\
  (forall m, (m < k)%nat -> (nth k l 0 < nth m l 0)%Z).
Proof.
  revert k; induction l as [|x t IH]; intros k H; simpl in H; [discriminate|].
  destruct (argmin t) as [k'|] eqn:E.
  - destruct (IH k' eq_refl) as (Hlt & Hmin & Hfirst).
    destruct (Z.leb_spec x (nth k' t 0%Z)) as [Hle|Hgt];
      injection H as <-; simpl.
    + split; [lia|]. split; [|intros m Hm; lia].
      intros [|m] Hm; [lia|]. specialize (Hmin m). simpl in Hm. lia.
    + split; [lia|]. split.
      * intros [|m] Hm; [lia|]. apply Hmin. simpl in Hm. lia.
      * intros [|m] Hm; [lia|]. apply Hfirst. lia.
  - apply argmin_None in E. subst t. injection H as <-. simpl.
    split; [lia|]. split; [|intros m Hm; lia].
    intros [|m] Hm; [lia|]. simpl in Hm. lia.
Qed.

(** ** [nonzero] *)

Lemma in_combine_seq {A : Type} (l : list A) (s k : nat) (x : A) :
  In (k, x) (combine (seq s (length l)) l) <->
  (s <= k)%nat /\ nth_error l (k - s) = Some x.
Proof.
  revert s; induction l as [|y l IH]; intros s; simpl.
  - split; [tauto|]. intros [_ H]. destruct (k - s)%nat; discriminate.
  - rewrite IH. split.
    + intros [H|[H1 H2]].
      * injection H as <- <-. rewrite Nat.sub_diag. split; [lia|reflexivity].
      * split; [lia|]. replace (k - s)%nat with (S (k - S s)) by lia. exact H2.
    + intros [H1 H2]. destruct (Nat.eq_dec s k) as [->|Hne].
      * left. rewrite Nat.sub_diag in H2. simpl in H2. congruence.
      * right. split; [lia|].
        replace (k - s)%nat with (S (k - S s)) in H2 by lia. exact H2.
Qed.

Lemma in_nonzero (m : list (list bool)) (i j : nat) :
  In (i, j) (nonzero m) <->
  (i < length m)%nat /\ (j < length (nth i m []))%nat /\
  nth j (nth i m []) false = true.
Proof.
  unfold nonzero, enumerate. rewrite in_flat_map. split.
  - intros ([i' row] & Hrow & Hin). simpl in Hin.
    apply in_combine_seq in Hrow. destruct Hrow as [_ Hrow].
    rewrite Nat.sub_0_r in Hrow.
    apply in_flat_map in Hin. destruct Hin as ([j' b] & Hb & Hin).
    simpl in Hin. destruct b; [|contradiction].
    destruct Hin as [Hin|[]]. injection Hin as -> ->.
    apply in_combine_seq in Hb. destruct Hb as [_ Hb].
    rewrite Nat.sub_0_r in Hb.
    assert (Hi : (i < length m)%nat) by (apply nth_error_Some; congruence).
    rewrite (nth_error_nth _ _ [] Hrow).
    assert (Hj : (j < length row)%nat) by (apply nth_error_Some; congruence).
    rewrite (nth_error_nth _ _ false Hb). auto.
  - intros (Hi & Hj & Ht).
    exists (i, nth i m []). split.
    + apply in_combine_seq. split; [lia|]. rewrite Nat.sub_0_r.
      now apply nth_error_nth'.
    + simpl. apply in_flat_map. exists (j, true). split; [|simpl; auto].
      apply in_combine_seq. split; [lia|]. rewrite Nat.sub_0_r.
      rewrite <- Ht. now apply nth_error_nth'.
Qed.

Lemma StronglySorted_app {A : Type} (R : A -> A -> Prop) (l1 l2 : list A) :
  StronglySorted R l1 -> StronglySorted R l2 ->
  (forall a b, In a l1 -> In b l2 -> R a b) ->
  StronglySorted R (l1 ++ l2).
Proof.
  induction l1 as [|x l1 IH]; intros H1 H2 H12; simpl; [exact H2|].
  inversion H1 as [|? ? Hs Hf]; subst. constructor.
  - apply IH; auto. intros a b Ha Hb. apply H12; simpl; auto.
  - apply Forall_app. split; [exact Hf|].
    apply Forall_forall. intros b Hb. apply H12; simpl; auto.
Qed.

Lemma StronglySorted_nth {A : Type} (R : A -> A -> Prop) (l : list A) (d : A)
  (a b : nat) :
  StronglySorted R l -> (a < b)%nat -> (b < length l)%nat ->
  R (nth a l d) (nth b l d).
Proof.
  intros Hs. revert a b. induction Hs as [|x l Hs IH Hf]; intros a b Hab Hb.
  - simpl in Hb. lia.
  - destruct b as [|b]; [lia|]. simpl in Hb. destruct a as [|a]; simpl.
    + rewrite Forall_forall in Hf. apply Hf. apply nth_In. lia.
    + apply IH; lia.
Qed.

Lemma nonzero_row_sorted (i s : nat) (row : list bool) :
  StronglySorted lex_lt
    (flat_map (fun jb : nat * bool => if snd jb then [(i, fst jb)] else [])
              (combine (seq s (length row)) row)).
Proof.
  revert s; induction row as [|b row IH]; intros s; simpl; [constructor|].
  apply StronglySorted_app; [| apply IH |].
  - destruct b; repeat constructor.
  - intros a c Ha Hc. destruct b; [|contradiction].
    destruct Ha as [<-|[]].
    apply in_flat_map in Hc. destruct Hc as ([j' b'] & Hin & Hc).
    simpl in Hc. destruct b'; [|contradiction]. destruct Hc as [<-|[]].
    apply in_combine_seq in Hin. right. simpl. split; [reflexivity|lia].
Qed.

Lemma nonzero_rows_sorted (s : nat) (m : list (list bool)) :
  StronglySorted lex_lt
    (flat_map (fun ir : nat * list bool =>
                 flat_map (fun jb : nat * bool =>
                             if snd jb then [(fst ir, fst jb)] else [])
                          (enumerate (snd ir)))
              (combine (seq s (length m)) m)).
Proof.
  revert s; induction m as [|row m IH]; intros s; simpl; [constructor|].
  apply StronglySorted_app; [apply nonzero_row_sorted | apply IH |].
  intros a c Ha Hc.
  apply in_flat_map in Ha. destruct Ha as ([j b] & _ & Ha).
  simpl in Ha. destruct b; [|contradiction]. destruct Ha as [<-|[]].
  apply in_flat_map in Hc. destruct Hc as ([i' row'] & Hin & Hc).
  apply in_combine_seq in Hin. simpl in Hc.
  apply in_flat_map in Hc. destruct Hc as ([j' b'] & _ & Hc).
  simpl in Hc. destruct b'; [|contradiction]. destruct Hc as [<-|[]].
  left. simpl. lia.
Qed.

Lemma nonzero_sorted (m : list (list bool)) : StronglySorted lex_lt (nonzero m).
Proof. apply nonzero_rows_sorted. Qed.

(** ** [highest_density_interval] *)

Lemma total_p_row (p : R) (cs : list float) (i : nat) :
  (i < length cs)%nat ->
  nth i (map (map (fun x => gtb x (Fin p))) (total_p cs)) []
  = map (fun cj => gtb (sub cj (nth i cs NaN)) (Fin p)) cs.
Proof.
  intros Hi. unfold total_p. rewrite map_map.
  rewrite (nth_map_in _ _ _ _ NaN) by exact Hi.
  now rewrite map_map.
Qed.

Lemma total_p_entry (p : R) (cs : list float) (i j : nat) :
  (i < length cs)%nat -> (j < length cs)%nat ->
  nth j (nth i (map (map (fun x => gtb x (Fin p))) (total_p cs)) []) false
  = gtb (sub (nth j cs NaN) (nth i cs NaN)) (Fin p).
Proof.
  intros Hi Hj. rewrite total_p_row by exact Hi.
  now rewrite (nth_map_in _ _ _ _ NaN) by exact Hj.
Qed.

Lemma total_p_row_length (p : R) (cs : list float) (i : nat) :
  (i < length cs)%nat ->
  length (nth i (map (map (fun x => gtb x (Fin p))) (total_p cs)) [])
  = length cs.
Proof.
  intros Hi. rewrite total_p_row by exact Hi. now rewrite length_map.
Qed.

Lemma in_hits (pmf : series) (p : R) (i j : nat) :
  In (i, j) (hits pmf p) <-> qualifies pmf p i j.
Proof.
  unfold hits, qualifies, span_mass. rewrite in_nonzero.
  set (cs := F64.cumsum (map snd pmf)).
  assert (Hlen : length cs = length pmf)
    by (unfold cs; now rewrite cumsum_length, length_map).
  assert (Hrows : length (map (map (fun x => gtb x (Fin p))) (total_p cs))
                  = length pmf)
    by (unfold total_p; now rewrite !length_map).
  rewrite Hrows. split.
  - intros (Hi & Hj & Ht).
    rewrite total_p_row_length in Hj by lia.
    rewrite total_p_entry in Ht by lia. repeat split; try lia. exact Ht.
  - intros (Hi & Hj & Ht).
    rewrite total_p_row_length by lia.
    rewrite total_p_entry by lia. repeat split; try lia. exact Ht.
Qed.

Lemma hdi_unfold (pmf : series) (p : R) :
  highest_density_interval pmf p =
  match argmin (map width (hits pmf p)) with
  | None => Raise argmin_error
  | Some best =>
      Ok (nth (fst (nth best (hits pmf p) (0, 0)%nat)) (map fst pmf) 0%R,
          nth (snd (nth best (hits pmf p) (0, 0)%nat)) (map fst pmf) 0%R)
  end.
Proof.
  unfold highest_density_interval. fold (hits pmf p).
  rewrite !map_map, map2_pairs.
  change (fun x : nat * nat => (Z.of_nat (snd x) - Z.of_nat (fst x))%Z) with width.
  destruct (argmin (map width (hits pmf p))) as [best|]; [|reflexivity].
  change 0%nat with (fst (0%nat, 0%nat)) at 1.
  rewrite map_nth.
  change 0%nat with (snd (0%nat, 0%nat)) at 3.
  now rewrite map_nth.
Qed.

Lemma hdi_returns (pmf : series) (p a b : R) :
  highest_density_interval pmf p = Ok (a, b) ->
  exists lo hi : nat,
    qualifies pmf p lo hi /\
    a = nth lo (map fst pmf) 0%R /\ b = nth hi (map fst pmf) 0%R /\
    forall i j, qualifies pmf p i j ->
      (width (lo, hi) <= width (i, j))%Z /\
      (width (i, j) = width (lo, hi) -> lex_le (lo, hi) (i, j)).
Proof.
  rewrite hdi_unfold.
  destruct (argmin (map width (hits pmf p))) as [best|] eqn:E; [|discriminate].
  intros H. injection H as <- <-.
  apply argmin_first_least in E. destruct E as (Hb & Hmin & Hfirst).
  rewrite length_map in Hb, Hmin.
  destruct (nth best (hits pmf p) (0, 0)%nat) as [lo hi] eqn:Hbest.
  exists lo, hi. simpl fst. simpl snd.
  assert (Hq : qualifies pmf p lo hi).
  { apply in_hits. rewrite <- Hbest. now apply nth_In. }
  split; [exact Hq|]. split; [reflexivity|]. split; [reflexivity|].
  intros i j H. split.
  - apply in_hits in H. apply (In_nth _ _ (0, 0)%nat) in H.
    destruct H as (k & Hk & Hnth). specialize (Hmin k Hk).
    change 0%Z with (width (0, 0)%nat) in Hmin.
    now rewrite !map_nth, Hbest, Hnth in Hmin.
  - intros Hw. apply in_hits in H. apply (In_nth _ _ (0, 0)%nat) in H.
    destruct H as (k & Hk & Hnth).
    destruct (Nat.lt_trichotomy k best) as [Hlt|[->|Hgt]].
    + specialize (Hfirst k Hlt).
      change 0%Z with (width (0, 0)%nat) in Hfirst.
      rewrite !map_nth, Hbest, Hnth, Hw in Hfirst.
      now apply Z.lt_irrefl in Hfirst.
    + rewrite Hbest in Hnth. injection Hnth as <- <-.
      right. simpl. split; [reflexivity|lia].
    + pose proof (StronglySorted_nth lex_lt _ (0, 0)%nat best k
                    (nonzero_sorted _) Hgt Hk) as Hs.
      fold (hits pmf p) in Hs. rewrite Hbest, Hnth in Hs.
      destruct Hs as [Hs|[Hs1 Hs2]]; simpl in *.
      * now left.
      * right. simpl. split; [exact Hs1|lia].
Qed.

Lemma hdi_raises_iff (pmf : series) (p : R) (e : exn) :
  highest_density_interval pmf p = Raise e <->
  e = argmin_error /\ forall i j, ~ qualifies pmf p i j.
Proof.
  rewrite hdi_unfold.
  destruct (argmin (map width (hits pmf p))) as [best|] eqn:E.
  - split; [discriminate|]. intros [_ Hno]. exfalso.
    apply argmin_first_least in E. destruct E as (Hb & _).
    rewrite length_map in Hb.
    destruct (nth best (hits pmf p) (0, 0)%nat) as [lo hi] eqn:Hbest.
    apply (Hno lo hi). apply in_hits. rewrite <- Hbest. now apply nth_In.
  - apply argmin_None in E. apply map_eq_nil in E. split.
    + intros H. injection H as <-. split; [reflexivity|].
      intros i j Hq. apply in_hits in Hq. now rewrite E in Hq.
    + intros [-> _]. reflexivity.
Qed.

Lemma hdi_total (pmf : series) (p : R) (i j : nat) :
  qualifies pmf p i j ->
  exists a b, highest_density_interval pmf p = Ok (a, b).
Proof.
  intros Hq.
  destruct (highest_density_interval pmf p) as [[a b]|e] eqn:E.
  - now exists a, b.
  - apply hdi_raises_iff in E. destruct E as [_ Hno]. now destruct (Hno i j).
Qed.

Lemma gtb_Fin_true (x y : R) : (y < x)%R -> gtb (Fin x) (Fin y) = true.
Proof. intros H. simpl. now destruct (Rlt_dec y x). Qed.

Lemma gtb_Fin_false (x y : R) : (x <= y)%R -> gtb (Fin x) (Fin y) = false.
Proof. intros H. simpl. destruct (Rlt_dec y x); [lra|reflexivity]. Qed.

Lemma gtb_Fin_iff (x y : R) : gtb (Fin x) (Fin y) = true <-> (y < x)%R.
Proof.
  simpl. destruct (Rlt_dec y x); split; auto; discriminate.
Qed.

Lemma gtb_weaken (v : float) (p1 p2 : R) :
  (p1 <= p2)%R -> gtb v (Fin p2) = true -> gtb v (Fin p1) = true.
Proof.
  intros Hp. destruct v as [x| | |]; simpl; auto.
  destruct (Rlt_dec p2 x); [|discriminate].
  intros _. destruct (Rlt_dec p1 x); [reflexivity|lra].
Qed.

Lemma hdi_best_pair (pmf : series) (p : R) :
  highest_density_interval pmf p
  = match best_pair pmf p with
    | None => Raise argmin_error
    | Some ij => Ok (nth (fst ij) (map fst pmf) 0%R,
                     nth (snd ij) (map fst pmf) 0%R)
    end.
Proof.
  rewrite hdi_unfold. unfold best_pair.
  now destruct (argmin (map width (hits pmf p))).
Qed.

(** The pair line 70 selects qualifies and is the narrowest that does. *)
Lemma best_pair_narrowest (pmf : series) (p : R) (lo hi : nat) :
  best_pair pmf p = Some (lo, hi) ->
  qualifies pmf p lo hi /\
  forall i j, qualifies pmf p i j -> (width (lo, hi) <= width (i, j))%Z.
Proof.
  unfold best_pair.
  destruct (argmin (map width (hits pmf p))) as [best|] eqn:E; [|discriminate].
  intros H. injection H as Hbest.
  apply argmin_first_least in E. destruct E as (Hb & Hmin & _).
  rewrite length_map in Hb, Hmin. split.
  - apply in_hits. rewrite <- Hbest. now apply nth_In.
  - intros i j H. apply in_hits in H. apply (In_nth _ _ (0, 0)%nat) in H.
    destruct H as (k & Hk & Hnth). specialize (Hmin k Hk).
    change 0%Z with (width (0, 0)%nat) in Hmin.
    rewrite !map_nth in Hmin. now rewrite Hbest, Hnth in Hmin.
Qed.

(** C8 (as amended).  For every Series and coverage levels [p1 <= p2] at
    which [highest_density_interval] returns, the index pair selected at
    [p2] spans at least as many steps of the index as the pair selected at
    [p1]: [highs - lows], the quantity line 70 minimises, does not shrink.
    The width in labels, [high - low], does not shrink either when the
    labels are exactly evenly spaced. *)
Theorem hdi_width_monotone (pmf : series) (p1 p2 low1 high1 low2 high2 : R) :
  (p1 <= p2)%R ->
  highest_density_interval pmf p1 = Ok (low1, high1) ->
  highest_density_interval pmf p2 = Ok (low2, high2) ->
  exists i1 j1 i2 j2 : nat,
    best_pair pmf p1 = Some (i1, j1) /\
    best_pair pmf p2 = Some (i2, j2) /\
    low1 = nth i1 (map fst pmf) 0%R /\ high1 = nth j1 (map fst pmf) 0%R /\
    low2 = nth i2 (map fst pmf) 0%R /\ high2 = nth j2 (map fst pmf) 0%R /\
    (Z.of_nat j1 - Z.of_nat i1 <= Z.of_nat j2 - Z.of_nat i2)%Z /\
    (evenly_spaced (map fst pmf) -> (high1 - low1 <= high2 - low2)%R).
Proof.
  intros Hp H1 H2. rewrite hdi_best_pair in H1, H2.
  destruct (best_pair pmf p1) as [[i1 j1]|] eqn:E1; [|discriminate].
  destruct (best_pair pmf p2) as [[i2 j2]|] eqn:E2; [|discriminate].
  cbn [fst snd] in H1, H2. injection H1 as <- <-. injection H2 as <- <-.
  destruct (best_pair_narrowest pmf p1 i1 j1 E1) as [Hq1 Hmin1].
  destruct (best_pair_narrowest pmf p2 i2 j2 E2) as [Hq2 _].
  assert (Hq21 : qualifies pmf p1 i2 j2).
  { destruct Hq2 as (Hi & Hj & Hg). repeat split; auto.
    now apply (gtb_weaken _ p1 p2). }
  pose proof (Hmin1 _ _ Hq21) as Hw. unfold width in Hw. cbn [fst snd] in Hw.
  exists i1, j1, i2, j2. repeat (split; [reflexivity|]).
  split; [exact Hw|].
  intros (a & h & Hh & Hidx).
  assert (Hnth : forall k, (k < length pmf)%nat ->
                 nth k (map fst pmf) 0%R = (a + INR k * h)%R).
  { intros k Hk. rewrite Hidx.
    rewrite (nth_map_in _ _ _ _ 0%nat) by now rewrite length_seq, length_map.
    rewrite seq_nth by now rewrite length_map. reflexivity. }
  destruct Hq1 as (Hl1 & Hh1 & _). destruct Hq2 as (Hl2 & Hh2 & _).
  rewrite !Hnth by assumption. rewrite !INR_IZR_INZ.
  apply IZR_le in Hw. rewrite !minus_IZR in Hw. nra.
Qed.

(** ** Arrays of finite values *)

Lemma finite_nonneg_values (values : list float) :
  Forall (fun v => exists x, v = Fin x /\ (0 <= x)%R) values ->
  exists xs, values = map Fin xs /\ Forall (fun x => (0 <= x)%R) xs.
Proof.
  induction 1 as [|v values (x & -> & Hx) _ (xs & -> & Hxs)].
  - now exists [].
  - exists (x :: xs). split; [reflexivity|]. now constructor.
Qed.

Lemma sum_map_Fin (xs : list R) : F64.sum (map Fin xs) = Fin (rsum xs).
Proof.
  induction xs as [|x xs IH]; [reflexivity|].
  unfold F64.sum in *. simpl. now rewrite IH.
Qed.

Lemma rsum_nonneg (xs : list R) :
  Forall (fun x => (0 <= x)%R) xs -> (0 <= rsum xs)%R.
Proof. induction 1; simpl; lra. Qed.

Lemma cumsum_from_bounds (xs : list R) (a : R) (j : nat) :
  Forall (fun x => (0 <= x)%R) xs -> (j < length xs)%nat ->
  exists y, nth j (cumsum_from (Fin a) (map Fin xs)) NaN = Fin y /\
            (a <= y <= a + rsum xs)%R.
Proof.
  intros Hxs. revert a j.
  induction Hxs as [|x xs Hx Hxs IH]; intros a j Hj; simpl in Hj; [lia|].
  pose proof (rsum_nonneg xs Hxs) as Hs.
  destruct j as [|j]; simpl.
  - exists (a + x)%R. split; [reflexivity|lra].
  - destruct (IH (a + x)%R j) as (y & Hy & Hb); [lia|].
    exists y. split; [exact Hy|lra].
Qed.

Lemma cumsum_from_mono (xs : list R) (a : R) (i j : nat) :
  Forall (fun x => (0 <= x)%R) xs -> (i <= j)%nat -> (j < length xs)%nat ->
  exists x y, nth i (cumsum_from (Fin a) (map Fin xs)) NaN = Fin x /\
              nth j (cumsum_from (Fin a) (map Fin xs)) NaN = Fin y /\
              (x <= y)%R.
Proof.
  intros Hxs. revert a i j.
  induction Hxs as [|x xs Hx Hxs IH]; intros a i j Hij Hj; simpl in Hj; [lia|].
  destruct i as [|i].
  - destruct j as [|j]; simpl.
    + exists (a + x)%R, (a + x)%R. repeat split; lra.
    + destruct (cumsum_from_bounds xs (a + x)%R j Hxs) as (y & Hy & Hb); [lia|].
      exists (a + x)%R, y. repeat split; auto; lra.
  - destruct j as [|j]; [lia|]. simpl. apply IH; lia.
Qed.

(** For non-negative values and [p >= 0] a qualifying pair has [i < j]. *)
Lemma qualifies_ordered (pmf : series) (p : R) (i j : nat) :
  Forall (fun v => exists x, v = Fin x /\ (0 <= x)%R) (map snd pmf) ->
  (0 <= p)%R -> qualifies pmf p i j -> (i < j)%nat.
Proof.
  intros Hv Hp (Hi & Hj & Hg).
  destruct (finite_nonneg_values _ Hv) as (xs & Hxs & Hnn).
  assert (Hlen : length xs = length pmf).
  { rewrite <- (length_map snd pmf), Hxs. now rewrite length_map. }
  destruct (Nat.lt_ge_cases i j) as [Hlt|Hge]; [exact Hlt|exfalso].
  unfold span_mass, F64.cumsum in Hg. rewrite Hxs in Hg.
  destruct (cumsum_from_mono xs 0 j i Hnn Hge) as (x & y & Hx & Hy & Hxy);
    [lia|].
  rewrite Hx, Hy in Hg. simpl in Hg.
  destruct (Rlt_dec p (x + - y)); [lra|discriminate].
Qed.

(** C4. For every PMF over the index and every [p >= 0] (every coverage
    level [0 < p < 1] in particular) for which some pair [i <= j] has span
    mass [cumsum[j] - cumsum[i] > p], [highest_density_interval] returns the
    index labels at a pair [lowIdx <= highIdx] whose span mass exceeds [p] and
    whose width [highIdx - lowIdx] is least among all such pairs; among the
    pairs of that width it is the first in the row-major enumeration. *)
Theorem hdi_selects_narrowest_pair (pmf : series) (p : R) :
  is_pmf (map snd pmf) ->
  (0 <= p)%R ->
  (exists i j, (i <= j)%nat /\ qualifies pmf p i j) ->
  exists lowIdx highIdx : nat,
    highest_density_interval pmf p
    = Ok (nth lowIdx (map fst pmf) 0%R, nth highIdx (map fst pmf) 0%R) /\
    (lowIdx <= highIdx)%nat /\
    qualifies pmf p lowIdx highIdx /\
    forall i j, (i <= j)%nat -> qualifies pmf p i j ->
      (highIdx - lowIdx <= j - i)%nat /\
      ((j - i = highIdx - lowIdx)%nat -> lex_le (lowIdx, highIdx) (i, j)).
Proof.
  intros [Hv _] Hp (i0 & j0 & _ & Hq0).
  destruct (hdi_total _ _ _ _ Hq0) as (a & b & Hok).
  destruct (hdi_returns _ _ _ _ Hok) as (lo & hi & Hq & -> & -> & Hmin).
  exists lo, hi. split; [exact Hok|].
  pose proof (qualifies_ordered _ _ _ _ Hv Hp Hq) as Hlt.
  split; [lia|]. split; [exact Hq|].
  intros i j Hij Hqij. destruct (Hmin i j Hqij) as [Hw Htie].
  unfold width in Hw, Htie. simpl in Hw, Htie. split; [lia|].
  intros Heq. apply Htie. lia.
Qed.

(** *** Point masses *)

Lemma point_mass_fst (index : list R) (k : nat) :
  map fst (point_mass index k) = index.
Proof.
  unfold point_mass.
  assert (H : forall (l : list R) (m : list float),
             length l = length m -> map fst (combine l m) = l).
  { induction l as [|x l IH]; intros [|y m] Hl; simpl in *;
      try discriminate; auto. f_equal. apply IH. lia. }
  apply H. now rewrite length_map, length_seq.
Qed.

Lemma point_mass_snd (index : list R) (k : nat) :
  map snd (point_mass index k)
  = map (fun i => if Nat.eqb i k then Fin 1 else Fin 0) (seq 0 (length index)).
Proof.
  unfold point_mass.
  assert (H : forall (l : list R) (m : list float),
             length l = length m -> map snd (combine l m) = m).
  { induction l as [|x l IH]; intros [|y m] Hl; simpl in *;
      try discriminate; auto. f_equal. apply IH. lia. }
  apply H. now rewrite length_map, length_seq.
Qed.

Lemma point_mass_length (index : list R) (k : nat) :
  length (point_mass index k) = length index.
Proof. now rewrite <- (length_map fst), point_mass_fst. Qed.

Lemma point_mass_cumsum (k len s j : nat) (a : R) :
  (j < len)%nat ->
  nth j (cumsum_from (Fin a)
           (map (fun i => if Nat.eqb i k then Fin 1 else Fin 0) (seq s len)))
      NaN
  = Fin (a + (if (s <=? k)%nat && (k <=? s + j)%nat then 1 else 0))%R.
Proof.
  revert s j a. induction len as [|len IH]; intros s j a Hj; [lia|].
  change (seq s (S len)) with (s :: seq (S s) len).
  rewrite map_cons, cumsum_from_cons.
  assert (Hacc : add (Fin a) (if Nat.eqb s k then Fin 1 else Fin 0)
                 = Fin (a + (if Nat.eqb s k then 1 else 0))%R)
    by now destruct (Nat.eqb s k).
  rewrite Hacc. destruct j as [|j]; simpl nth.
  - f_equal. f_equal.
    destruct (Nat.eqb_spec s k), (Nat.leb_spec s k), (Nat.leb_spec k (s + 0));
      simpl; try reflexivity; lia.
  - rewrite IH by lia. f_equal.
    destruct (Nat.eqb_spec s k), (Nat.leb_spec s k), (Nat.leb_spec (S s) k),
      (Nat.leb_spec k (s + S j)), (Nat.leb_spec k (S s + j));
      simpl; try lra; lia.
Qed.

Lemma point_mass_qualifies (index : list R) (k : nat) (p : R) (i j : nat) :
  (0 <= p < 1)%R ->
  qualifies (point_mass index k) p i j <->
  (i < k)%nat /\ (k <= j)%nat /\ (j < length index)%nat.
Proof.
  intros Hp. unfold qualifies, span_mass, F64.cumsum.
  rewrite point_mass_length, point_mass_snd. split.
  - intros (Hi & Hj & Hg).
    rewrite !point_mass_cumsum in Hg by assumption. simpl in Hg.
    destruct (Rlt_dec _ _) as [Hlt|]; [|discriminate].
    destruct (Nat.leb_spec k j), (Nat.leb_spec k i); simpl in Hlt;
      try lra; lia.
  - intros (Hi & Hk & Hj).
    split; [lia|]. split; [exact Hj|].
    rewrite !point_mass_cumsum by lia. simpl.
    destruct (Rlt_dec _ _) as [|Hn]; [reflexivity|exfalso; apply Hn].
    destruct (Nat.leb_spec k j), (Nat.leb_spec k i); simpl; try lra; lia.
Qed.

Lemma hdi_point_mass_at (index : list R) (k : nat) (p : R) :
  (1 <= k)%nat -> (k < length index)%nat -> (0 <= p < 1)%R ->
  highest_density_interval (point_mass index k) p
  = Ok (nth (k - 1) index 0%R, nth k index 0%R).
Proof.
  intros Hk1 Hk Hp.
  assert (Hq : qualifies (point_mass index k) p (k - 1) k)
    by (apply point_mass_qualifies; [exact Hp|lia]).
  destruct (hdi_total _ _ _ _ Hq) as (a & b & Hok). rewrite Hok.
  destruct (hdi_returns _ _ _ _ Hok) as (lo & hi & Hq' & -> & -> & Hmin).
  destruct (Hmin _ _ Hq) as [Hw _]. unfold width in Hw. simpl in Hw.
  apply point_mass_qualifies in Hq'; [|exact Hp].
  rewrite point_mass_fst.
  replace lo with (k - 1)%nat by lia. replace hi with k by lia. reflexivity.
Qed.

(** C5 (as amended).  For the point mass at position [k >= 1] of the index,
    [highest_density_interval] at [p = 0.5] returns the interval from the
    label before [k] to the label at [k]: [low = index[k - 1]],
    [high = index[k]]. *)
Theorem hdi_point_mass_interval (index : list R) (k : nat) :
  (1 <= k)%nat -> (k < length index)%nat ->
  highest_density_interval (point_mass index k) (1 / 2)
  = Ok (nth (k - 1) index 0%R, nth k index 0%R).
Proof. intros Hk1 Hk. apply hdi_point_mass_at; auto. lra. Qed.

Lemma hdi_point_mass_interval_witness :
  highest_density_interval (point_mass [0; 1 / 100; 2 / 100]%R 2) (1 / 2)
  = Ok (1 / 100, 2 / 100)%R.
Proof. apply (hdi_point_mass_interval [0; 1 / 100; 2 / 100]%R 2); simpl; lia. Defined.

(** C5, the claim as stated fails: for the point mass at the middle label of
    a three-point index the code returns [(0, 0.01)], not the degenerate
    interval [(0.01, 0.01)]. *)
Lemma hdi_point_mass_not_degenerate :
  highest_density_interval (point_mass [0; 1 / 100; 2 / 100]%R 1) (1 / 2)
  = Ok (0, 1 / 100)%R /\
  highest_density_interval (point_mass [0; 1 / 100; 2 / 100]%R 1) (1 / 2)
  <> Ok (1 / 100, 1 / 100)%R.
Proof.
  assert (H : highest_density_interval
                (point_mass [0; 1 / 100; 2 / 100]%R 1) (1 / 2)
              = Ok (0, 1 / 100)%R).
  { apply (hdi_point_mass_at [0; 1 / 100; 2 / 100]%R 1); simpl; try lia; lra. }
  split; [exact H|]. rewrite H. intros E. injection E as E. lra.
Qed.

Ltac decide_Rlt :=
  repeat match goal with
         | |- context [Rlt_dec ?a ?b] =>
             destruct (Rlt_dec a b); [try (exfalso; lra)|try (exfalso; lra)]
         end.

Lemma two_point_is_pmf : is_pmf (map snd two_point_pmf).
Proof.
  split.
  - repeat constructor; exists (1 / 2)%R; split; auto; lra.
  - unfold F64.sum. simpl. f_equal. lra.
Qed.

(** C6, the claim as stated fails: with the coverage [p = -1], outside
    (0,1), the code raises nothing and returns the inverted interval
    [(0.01, 0)]. *)
Lemma hdi_accepts_negative_coverage :
  highest_density_interval two_point_pmf (- 1) = Ok (1 / 100, 0)%R.
Proof.
  unfold highest_density_interval, two_point_pmf, F64.cumsum, total_p, nonzero,
    enumerate.
  simpl. decide_Rlt. reflexivity.
Qed.

(** C6 (as amended).  [highest_density_interval] does not examine [p].  For
    every Series and every [p] it fails exactly when no index pair [(i, j)]
    has a computed mass [cumsum[j] - cumsum[i] > p], and its only failure is
    NumPy's ValueError for the [argmin] of an empty array. *)
Theorem hdi_fails_iff_no_pair (pmf : series) (p : R) :
  (highest_density_interval pmf p = Raise argmin_error <->
   forall i j, ~ qualifies pmf p i j) /\
  (forall e, highest_density_interval pmf p = Raise e -> e = argmin_error).
Proof.
  split.
  - rewrite hdi_raises_iff. tauto.
  - intros e He. now apply hdi_raises_iff in He.
Qed.

Lemma two_point_qualifies : qualifies two_point_pmf (1 / 4) 0 1.
Proof.
  unfold qualifies, span_mass, two_point_pmf, F64.cumsum. simpl.
  repeat split; try lia. decide_Rlt. reflexivity.
Qed.

Lemma hdi_selects_narrowest_pair_witness :
  exists lowIdx highIdx : nat,
    highest_density_interval two_point_pmf (1 / 4)
    = Ok (nth lowIdx (map fst two_point_pmf) 0%R,
          nth highIdx (map fst two_point_pmf) 0%R) /\
    (lowIdx <= highIdx)%nat /\
    qualifies two_point_pmf (1 / 4) lowIdx highIdx /\
    forall i j, (i <= j)%nat -> qualifies two_point_pmf (1 / 4) i j ->
      (highIdx - lowIdx <= j - i)%nat /\
      ((j - i = highIdx - lowIdx)%nat -> lex_le (lowIdx, highIdx) (i, j)).
Proof.
  apply (hdi_selects_narrowest_pair two_point_pmf (1 / 4) two_point_is_pmf).
  - lra.
  - exists 0%nat, 1%nat. split; [lia|exact two_point_qualifies].
Defined.

Lemma three_point_evenly_spaced : evenly_spaced (map fst three_point_pmf).
Proof.
  exists 0%R, (1 / 100)%R. split; [lra|]. simpl.
  f_equal; [lra|]. f_equal; [lra|]. f_equal. lra.
Qed.

Lemma three_point_hdi_quarter :
  highest_density_interval three_point_pmf (1 / 4) = Ok (0, 1 / 100)%R.
Proof.
  unfold highest_density_interval, three_point_pmf, F64.cumsum, total_p,
    nonzero, enumerate.
  simpl. decide_Rlt. reflexivity.
Qed.

Lemma three_point_hdi_three_fifths :
  highest_density_interval three_point_pmf (3 / 5) = Ok (0, 2 / 100)%R.
Proof.
  unfold highest_density_interval, three_point_pmf, F64.cumsum, total_p,
    nonzero, enumerate.
  simpl. decide_Rlt. reflexivity.
Qed.

Lemma hdi_width_monotone_witness :
  exists i1 j1 i2 j2 : nat,
    best_pair three_point_pmf (1 / 4) = Some (i1, j1) /\
    best_pair three_point_pmf (3 / 5) = Some (i2, j2) /\
    0%R = nth i1 (map fst three_point_pmf) 0%R /\
    (1 / 100)%R = nth j1 (map fst three_point_pmf) 0%R /\
    0%R = nth i2 (map fst three_point_pmf) 0%R /\
    (2 / 100)%R = nth j2 (map fst three_point_pmf) 0%R /\
    (Z.of_nat j1 - Z.of_nat i1 <= Z.of_nat j2 - Z.of_nat i2)%Z /\
    (evenly_spaced (map fst three_point_pmf) ->
     (1 / 100 - 0 <= 2 / 100 - 0)%R).
Proof.
  apply (hdi_width_monotone three_point_pmf (1 / 4) (3 / 5)
           0 (1 / 100) 0 (2 / 100)).
  - lra.
  - exact three_point_hdi_quarter.
  - exact three_point_hdi_three_fifths.
Defined.

Lemma skewed_is_pmf : is_pmf (map snd skewed_pmf).
Proof.
  split.
  - repeat constructor; eexists; (split; [reflexivity|lra]).
  - unfold F64.sum. simpl. f_equal. lra.
Qed.

Lemma skewed_hdi_half :
  highest_density_interval skewed_pmf (1 / 2)
  = Ok (nth 0 float64_labels 0, nth 2 float64_labels 0)%R.
Proof.
  unfold highest_density_interval, skewed_pmf, float64_labels, F64.cumsum,
    total_p, nonzero, enumerate.
  simpl. decide_Rlt. reflexivity.
Qed.

Lemma skewed_hdi_nine_tenths :
  highest_density_interval skewed_pmf (9 / 10)
  = Ok (nth 1 float64_labels 0, nth 3 float64_labels 0)%R.
Proof.
  unfold highest_density_interval, skewed_pmf, float64_labels, F64.cumsum,
    total_p, nonzero, enumerate.
  simpl. decide_Rlt. reflexivity.
Qed.

(** C8, the claim as stated fails on the labels of the Grid as [float64]
    holds them: for the PMF [0, 1/16, 15/32, 15/32] over the first four
    labels the interval at [p = 1/2] is [(0, 0.02)] and the interval at
    [p = 9/10] is [(0.01, 0.03)], both two steps wide, and
    [0.03 - 0.01 < 0.02 - 0]. *)
Lemma hdi_width_shrinks_on_float64_labels :
  is_pmf (map snd skewed_pmf) /\
  map fst skewed_pmf = float64_labels /\
  highest_density_interval skewed_pmf (1 / 2)
  = Ok (nth 0 float64_labels 0, nth 2 float64_labels 0)%R /\
  highest_density_interval skewed_pmf (9 / 10)
  = Ok (nth 1 float64_labels 0, nth 3 float64_labels 0)%R /\
  (nth 3 float64_labels 0 - nth 1 float64_labels 0
   < nth 2 float64_labels 0 - nth 0 float64_labels 0)%R.
Proof.
  split; [exact skewed_is_pmf|]. split; [reflexivity|].
  split; [exact skewed_hdi_half|]. split; [exact skewed_hdi_nine_tenths|].
  unfold float64_labels. cbn [nth]. lra.
Qed.


Local Open Scope R_scope.

(** ** Elementwise operations *)

Lemma map2_length {A B C : Type} (f : A -> B -> C) (l : list A) (m : list B) :
  length (map2 f l m) = Nat.min (length l) (length m).
Proof.
  revert m; induction l as [|x l IH]; intros [|y m]; simpl; auto.
Qed.

Lemma map2_map {A A' B B' C : Type} (f : A' -> B' -> C) (g : A -> A')
  (h : B -> B') (l : list A) (m : list B) :
  map2 f (map g l) (map h m) = map2 (fun x y => f (g x) (h y)) l m.
Proof.
  revert m; induction l as [|x l IH]; intros [|y m]; simpl; auto.
  now rewrite IH.
Qed.

Lemma map_map2 {A B C E : Type} (g : C -> E) (f : A -> B -> C) (l : list A)
  (m : list B) :
  map g (map2 f l m) = map2 (fun x y => g (f x y)) l m.
Proof.
  revert m; induction l as [|x l IH]; intros [|y m]; simpl; auto.
  now rewrite IH.
Qed.

Lemma map2_ext_in {A B C : Type} (f g : A -> B -> C) (l : list A) (m : list B) :
  (forall x y, In x l -> In y m -> f x y = g x y) ->
  map2 f l m = map2 g l m.
Proof.
  revert m; induction l as [|x l IH]; intros [|y m] H; simpl; auto.
  rewrite H by (simpl; auto). f_equal. apply IH.
  intros x' y' Hx Hy. apply H; simpl; auto.
Qed.

Lemma in_map2 {A B C : Type} (f : A -> B -> C) (l : list A) (m : list B) (z : C) :
  In z (map2 f l m) -> exists x y, In x l /\ In y m /\ z = f x y.
Proof.
  revert m; induction l as [|x l IH]; intros [|y m] H; simpl in H;
    try contradiction.
  destruct H as [<-|H].
  - exists x, y. simpl. auto.
  - destruct (IH m H) as (x' & y' & Hx & Hy & ->).
    exists x', y'. simpl. auto.
Qed.

Lemma nth_map2 {A B C : Type} (f : A -> B -> C) (l : list A) (m : list B)
  (t : nat) (d : C) (da : A) (db : B) :
  (t < length l)%nat -> (t < length m)%nat ->
  nth t (map2 f l m) d = f (nth t l da) (nth t m db).
Proof.
  revert m t; induction l as [|x l IH]; intros [|y m] t Hl Hm; simpl in *;
    try lia.
  destruct t as [|t]; [reflexivity|]. apply IH; lia.
Qed.

(** ** Sums *)

Lemma rsum_map2_plus (u v : list R) :
  length u = length v ->
  rsum (map2 Rplus u v) = rsum u + rsum v.
Proof.
  revert v; induction u as [|x u IH]; intros [|y v] H; simpl in *;
    try discriminate; [lra|].
  rewrite IH by lia. lra.
Qed.

Lemma rsum_axis0_length (n : nat) (m : list (list R)) :
  Forall (fun row => length row = n) m -> length (rsum_axis0 n m) = n.
Proof.
  induction 1 as [|row m Hrow _ IH]; simpl.
  - apply repeat_length.
  - rewrite map2_length, IH, Hrow. apply Nat.min_id.
Qed.

Lemma rsum_repeat_zero (n : nat) : rsum (repeat 0 n) = 0.
Proof. induction n as [|n IH]; simpl; [reflexivity|]. rewrite IH. lra. Qed.

(** The total of [m @ v] is the column sums of [m] weighted by [v]. *)
Lemma rsum_rmatvec (n : nat) (m : list (list R)) (v : list R) :
  Forall (fun row => length row = n) m -> length v = n ->
  rsum (rmatvec m v) = rsum (map2 Rmult (rsum_axis0 n m) v).
Proof.
  intros Hm Hv. induction Hm as [|row m Hrow Hm IH]; simpl.
  - subst n. clear. induction v as [|x v IH]; simpl; [reflexivity|].
    rewrite <- IH. lra.
  - rewrite IH. clear IH.
    pose proof (rsum_axis0_length n m Hm) as Hlen.
    revert Hrow Hlen Hv. generalize (rsum_axis0 n m) as s. clear.
    revert row v. induction n as [|n IH]; intros row v s Hrow Hs Hv.
    + destruct row, s, v; simpl in *; try discriminate. lra.
    + destruct row as [|a row], s as [|b s], v as [|c v]; simpl in *;
        try discriminate.
      specialize (IH row v s). rewrite <- IH by lia. lra.
Qed.

Lemma rsum_mult_ones (v : list R) :
  rsum (map2 Rmult (repeat 1 (length v)) v) = rsum v.
Proof. induction v as [|x v IH]; simpl; [reflexivity|]. rewrite IH. lra. Qed.

(** ** Lifting real arrays to [float] arrays *)

Lemma sum_axis0_Fin (n : nat) (m : list (list R)) :
  sum_axis0 n (map (map Fin) m) = map Fin (rsum_axis0 n m).
Proof.
  unfold sum_axis0, rsum_axis0. induction m as [|row m IH]; simpl.
  - induction n as [|n IHn]; simpl; [reflexivity|]. now rewrite IHn.
  - rewrite IH, map2_map, map_map2. reflexivity.
Qed.

Lemma matvec_Fin (m : list (list R)) (v : list R) :
  matvec (map (map Fin) m) (map Fin v) = map Fin (rmatvec m v).
Proof.
  unfold matvec, rmatvec. rewrite !map_map. apply map_ext. intros row.
  rewrite map2_map.
  rewrite <- sum_map_Fin. f_equal. now rewrite map_map2.
Qed.

Lemma div_row_Fin (row total : list R) :
  Forall (fun x => x <> 0) total ->
  map2 div (map Fin row) (map Fin total) = map Fin (map2 Rdiv row total).
Proof.
  intros Ht. rewrite map2_map, map_map2. apply map2_ext_in.
  intros x y _ Hy. simpl. rewrite Forall_forall in Ht.
  destruct (Req_dec_T y 0) as [E|_]; [now destruct (Ht y Hy)|reflexivity].
Qed.

(** ** The process matrix *)

Lemma gauss_density_pos (loc scale x : R) :
  0 < scale -> 0 < gauss_density loc scale x.
Proof.
  intros Hs. unfold gauss_density.
  assert (H1 : 0 < sqrt (2 * PI)).
  { apply sqrt_lt_R0. pose proof PI_RGT_0. lra. }
  apply Rdiv_lt_0_compat; [|exact Hs].
  apply Rdiv_lt_0_compat; [apply exp_pos|exact H1].
Qed.

Lemma norm_pdf_valid (loc scale x : R) :
  0 < scale -> norm_pdf loc scale x = Fin (gauss_density loc scale x).
Proof. intros Hs. unfold norm_pdf. now destruct (Rlt_dec 0 scale). Qed.

Lemma norm_pdf_invalid (loc scale x : R) :
  ~ 0 < scale -> norm_pdf loc scale x = NaN.
Proof. intros Hs. unfold norm_pdf. now destruct (Rlt_dec 0 scale). Qed.

Lemma raw_R_rows (grid : list R) (sigma : R) :
  Forall (fun row => length row = length grid) (raw_R grid sigma).
Proof.
  unfold raw_R. apply Forall_map, Forall_forall. intros x _.
  now rewrite length_map.
Qed.

Lemma raw_R_pos (grid : list R) (sigma : R) :
  0 < sigma -> Forall (Forall (fun x => 0 < x)) (raw_R grid sigma).
Proof.
  intros Hs. unfold raw_R. apply Forall_map, Forall_forall. intros x _.
  apply Forall_map, Forall_forall. intros loc _. now apply gauss_density_pos.
Qed.

Lemma rsum_axis0_pos (n : nat) (m : list (list R)) :
  Forall (Forall (fun x => 0 < x)) m ->
  Forall (fun row => length row = n) m ->
  m <> [] ->
  Forall (fun x => 0 < x) (rsum_axis0 n m).
Proof.
  intros Hpos Hlen Hne.
  assert (Hnn : forall m', Forall (Forall (fun x => 0 < x)) m' ->
                Forall (fun row => length row = n) m' ->
                Forall (fun x => 0 <= x) (rsum_axis0 n m')).
  { clear. induction m' as [|row m' IH]; intros Hpos Hlen; simpl.
    - apply Forall_forall. intros x Hx. apply repeat_spec in Hx. lra.
    - inversion Hpos as [|? ? Hrow Hpos']; subst.
      inversion Hlen as [|? ? Hl Hlen']; subst.
      specialize (IH Hpos' Hlen'). apply Forall_forall. intros z Hz.
      apply in_map2 in Hz. destruct Hz as (a & b & Ha & Hb & ->).
      rewrite Forall_forall in Hrow, IH.
      specialize (Hrow a Ha). specialize (IH b Hb). lra. }
  destruct m as [|row m]; [congruence|]. simpl.
  inversion Hpos as [|? ? Hrow Hpos']; subst.
  inversion Hlen as [|? ? Hl Hlen']; subst.
  specialize (Hnn m Hpos' Hlen'). apply Forall_forall. intros z Hz.
  apply in_map2 in Hz. destruct Hz as (a & b & Ha & Hb & ->).
  rewrite Forall_forall in Hrow, Hnn.
  specialize (Hrow a Ha). specialize (Hnn b Hb). lra.
Qed.

Lemma total_R_pos (grid : list R) (sigma : R) :
  0 < sigma ->
  Forall (fun x => 0 < x) (rsum_axis0 (length grid) (raw_R grid sigma)).
Proof.
  intros Hs. destruct (list_eq_dec Req_dec_T grid []) as [->|Hne].
  - constructor.
  - apply rsum_axis0_pos.
    + now apply raw_R_pos.
    + apply raw_R_rows.
    + unfold raw_R. intros E. apply map_eq_nil in E. contradiction.
Qed.

Lemma process_matrix_finite (grid : list R) (sigma : R) :
  0 < sigma ->
  process_matrix grid sigma = map (map Fin) (process_matrix_R grid sigma).
Proof.
  intros Hs. unfold process_matrix, process_matrix_R. fold (raw_R grid sigma).
  assert (Hraw : map (fun x => map (fun loc => norm_pdf loc sigma x) grid) grid
                 = map (map Fin) (raw_R grid sigma)).
  { unfold raw_R. rewrite map_map. apply map_ext. intros x.
    rewrite map_map. apply map_ext. intros loc. now apply norm_pdf_valid. }
  rewrite Hraw, sum_axis0_Fin, !map_map. apply map_ext. intros row.
  apply div_row_Fin.
  eapply Forall_impl; [|apply (total_R_pos grid sigma Hs)].
  intros x Hx. simpl in Hx. lra.
Qed.

Lemma process_matrix_R_rows (grid : list R) (sigma : R) :
  Forall (fun row => length row = length grid) (process_matrix_R grid sigma).
Proof.
  unfold process_matrix_R. fold (raw_R grid sigma).
  apply Forall_map. eapply Forall_impl; [|apply raw_R_rows].
  intros row Hrow. simpl in *.
  rewrite map2_length, Hrow, rsum_axis0_length by apply raw_R_rows.
  apply Nat.min_id.
Qed.

Lemma process_matrix_R_pos (grid : list R) (sigma : R) :
  0 < sigma ->
  Forall (Forall (fun x => 0 < x)) (process_matrix_R grid sigma).
Proof.
  intros Hs. unfold process_matrix_R. fold (raw_R grid sigma).
  apply Forall_map.
  eapply Forall_impl; [|apply (raw_R_pos grid sigma Hs)].
  intros row Hrow. simpl in *. apply Forall_forall. intros z Hz.
  apply in_map2 in Hz. destruct Hz as (a & b & Ha & Hb & ->).
  rewrite Forall_forall in Hrow. specialize (Hrow a Ha).
  pose proof (total_R_pos grid sigma Hs) as Ht.
  rewrite Forall_forall in Ht. specialize (Ht b Hb).
  now apply Rdiv_lt_0_compat.
Qed.

Lemma rsum_axis0_normalised (n : nat) (m : list (list R)) (total : list R) :
  Forall (fun row => length row = n) m -> length total = n ->
  rsum_axis0 n (map (fun row => map2 Rdiv row total) m)
  = map2 Rdiv (rsum_axis0 n m) total.
Proof.
  intros Hm Ht. induction Hm as [|row m Hrow Hm IH]; simpl.
  - subst n. clear. induction total as [|t total IH]; simpl; [reflexivity|].
    f_equal; [unfold Rdiv; ring|exact IH].
  - rewrite IH. clear IH.
    pose proof (rsum_axis0_length n m Hm) as Hlen.
    revert Hrow Hlen Ht. generalize (rsum_axis0 n m) as s. clear.
    revert row total. induction n as [|n IH]; intros row total s Hrow Hs Ht.
    + destruct row, s, total; simpl in *; try discriminate. reflexivity.
    + destruct row as [|a row], s as [|b s], total as [|c total]; simpl in *;
        try discriminate.
      f_equal; [unfold Rdiv; ring|apply IH; lia].
Qed.

Lemma self_ratio_ones (total : list R) :
  Forall (fun x => x <> 0) total ->
  map2 Rdiv total total = repeat 1 (length total).
Proof.
  induction 1 as [|x total Hx _ IH]; simpl; [reflexivity|].
  rewrite IH. f_equal. now field.
Qed.

(** Every column of the normalised matrix sums to one. *)
Lemma process_matrix_R_columns (grid : list R) (sigma : R) :
  0 < sigma ->
  rsum_axis0 (length grid) (process_matrix_R grid sigma)
  = repeat 1 (length grid).
Proof.
  intros Hs. unfold process_matrix_R. fold (raw_R grid sigma).
  pose proof (raw_R_rows grid sigma) as Hrows.
  rewrite rsum_axis0_normalised; [|exact Hrows|now apply rsum_axis0_length].
  rewrite self_ratio_ones.
  - now rewrite rsum_axis0_length.
  - eapply Forall_impl; [|apply (total_R_pos grid sigma Hs)].
    intros x Hx. simpl in Hx. lra.
Qed.

(** C10. For a valid process noise [sigma > 0], every column of the
    normalised process matrix sums to one, and for every vector [v] over the
    Grid the entries of [process_matrix @ v] have the same total as the
    entries of [v]: the prediction step needs no renormalisation. *)
Theorem prediction_preserves_mass (r_t_range : list R) (sigma : R)
  (v : list R) :
  0 < sigma ->
  length v = length r_t_range ->
  sum_axis0 (length r_t_range) (process_matrix r_t_range sigma)
  = repeat (Fin 1) (length r_t_range) /\
  F64.sum (matvec (process_matrix r_t_range sigma) (map Fin v))
  = F64.sum (map Fin v).
Proof.
  intros Hs Hv. rewrite process_matrix_finite by exact Hs.
  rewrite sum_axis0_Fin, matvec_Fin, !sum_map_Fin.
  rewrite process_matrix_R_columns by exact Hs. split.
  - clear. induction (length r_t_range) as [|n IH]; simpl; [reflexivity|].
    now rewrite IH.
  - f_equal.
    rewrite (rsum_rmatvec (length r_t_range));
      [|apply process_matrix_R_rows|exact Hv].
    rewrite process_matrix_R_columns by exact Hs.
    rewrite <- Hv. apply rsum_mult_ones.
Qed.

(** ** The draw of [gamma] *)

Lemma draw_gamma_fst (grid : list R) (st : RandomState) :
  fst (draw_gamma grid st)
  = map (fun x => div (Fin 1) (Fin x)) (serial_interval_draws grid st).
Proof. reflexivity. Qed.

Lemma draw_gamma_snd (grid : list R) (st : RandomState) :
  snd (draw_gamma grid st) = snd (random_normal 4 (2 / 10) (length grid) st).
Proof. reflexivity. Qed.

Lemma serial_interval_draws_length (grid : list R) (st : RandomState) :
  length (serial_interval_draws grid st) = length grid.
Proof.
  unfold serial_interval_draws, random_normal. simpl.
  now rewrite length_map, length_seq.
Qed.

Lemma serial_interval_draws_nth (grid : list R) (st : RandomState) (i : nat) :
  (i < length grid)%nat ->
  nth i (serial_interval_draws grid st) 0
  = 4 + 2 / 10 * gauss st (pos st + i).
Proof.
  intros Hi. unfold serial_interval_draws, random_normal. simpl.
  rewrite (nth_map_in _ _ _ _ 0%nat) by now rewrite length_seq.
  now rewrite seq_nth.
Qed.

(** ** Shape of [get_posteriors] *)

Lemma get_posteriors_unfold {D : Type} (grid : list R) (st : RandomState)
  (sr : list Z) (date : list D) (sigma : R) :
  get_posteriors grid st sr date sigma
  = (if negb (Nat.eqb (length (removelast sr)) (length (tl date))) then
       Raise (ValueError "Shape of passed values does not match the indices")
     else
       match date with
       | [] => Raise (IndexError "index 0 is out of bounds")
       | _ :: _ =>
           let out :=
             bayes_loop (process_matrix grid sigma) (prior0 grid)
               (map (fun t => column t
                                (likelihood_data grid sr
                                                 (fst (draw_gamma grid st))))
                    (seq 0 (length (tl date))))
               (Fin 0) in
           Ok (combine date (prior0 grid :: fst out), snd out)
       end,
     snd (draw_gamma grid st)).
Proof.
  unfold get_posteriors. destruct (draw_gamma grid st) as [gamma st'].
  simpl fst. simpl snd.
  destruct (negb _); [reflexivity|].
  destruct date as [|d date]; [reflexivity|].
  now destruct (bayes_loop _ _ _ _).
Qed.

Lemma bayes_loop_cons (pm : list (list float)) (prev lik : list float)
  (rest : list (list float)) (ll : float) :
  bayes_loop pm prev (lik :: rest) ll
  = (fst (bayes_update pm prev lik)
       :: fst (bayes_loop pm (fst (bayes_update pm prev lik)) rest
                 (add ll (F64.log (snd (bayes_update pm prev lik))))),
     snd (bayes_loop pm (fst (bayes_update pm prev lik)) rest
            (add ll (F64.log (snd (bayes_update pm prev lik)))))).
Proof.
  cbn [bayes_loop]. destruct (bayes_update pm prev lik) as [post den].
  cbn [fst snd]. now destruct (bayes_loop pm post rest _).
Qed.

Lemma denominators_cons (pm : list (list float)) (prev lik : list float)
  (rest : list (list float)) :
  denominators pm prev (lik :: rest)
  = snd (bayes_update pm prev lik)
      :: denominators pm (fst (bayes_update pm prev lik)) rest.
Proof.
  cbn [denominators]. now destruct (bayes_update pm prev lik) as [post den].
Qed.

Lemma bayes_loop_length (pm : list (list float)) (liks : list (list float))
  (prev : list float) (ll : float) :
  length (fst (bayes_loop pm prev liks ll)) = length liks.
Proof.
  revert prev ll. induction liks as [|lik liks IH]; intros prev ll;
    [reflexivity|].
  rewrite bayes_loop_cons. cbn [fst length]. now rewrite IH.
Qed.

Lemma map_fst_combine {A B : Type} (l : list A) (m : list B) :
  length l = length m -> map fst (combine l m) = l.
Proof.
  revert m; induction l as [|x l IH]; intros [|y m] H; simpl in *;
    try discriminate; auto.
  f_equal. apply IH. lia.
Qed.

Lemma map_snd_combine {A B : Type} (l : list A) (m : list B) :
  length l = length m -> map snd (combine l m) = m.
Proof.
  revert m; induction l as [|x l IH]; intros [|y m] H; simpl in *;
    try discriminate; auto.
  f_equal. apply IH. lia.
Qed.

(** C2 (as amended).  [get_posteriors] does not examine the denominator.
    Whenever [date] is not empty and the lengths of [sr] and [date] agree, the
    run raises nothing, whatever the denominators of its day pairs are: it
    returns a table with one column for every date, in order, and a
    log-likelihood. *)
Theorem get_posteriors_never_checks_denominator {D : Type} (r_t_range : list R)
  (st : RandomState) (sr : list Z) (date : list D) (sigma : R) :
  date <> [] ->
  length (removelast sr) = length (tl date) ->
  exists (posteriors : list (D * list float)) (log_likelihood : float),
    fst (get_posteriors r_t_range st sr date sigma)
    = Ok (posteriors, log_likelihood) /\
    map fst posteriors = date.
Proof.
  intros Hne Hshape. rewrite get_posteriors_unfold. simpl fst.
  rewrite Hshape, Nat.eqb_refl. simpl negb. cbv iota.
  destruct date as [|d date]; [congruence|].
  eexists _, _. split; [reflexivity|].
  apply map_fst_combine. simpl. now rewrite bayes_loop_length, length_map, length_seq.
Qed.

(** ** The likelihood array *)

Lemma removelast_length {A : Type} (l : list A) :
  length (removelast l) = (length l - 1)%nat.
Proof.
  induction l as [|x l IH]; [reflexivity|].
  destruct l as [|y l]; [reflexivity|].
  change (removelast (x :: y :: l)) with (x :: removelast (y :: l)).
  simpl length in *. rewrite IH. lia.
Qed.

Lemma removelast_nth {A : Type} (l : list A) (t : nat) (d : A) :
  (S t < length l)%nat -> nth t (removelast l) d = nth t l d.
Proof.
  revert t; induction l as [|x l IH]; intros t Ht; [simpl in Ht; lia|].
  destruct l as [|y l]; [simpl in Ht; lia|].
  change (removelast (x :: y :: l)) with (x :: removelast (y :: l)).
  destruct t as [|t]; [reflexivity|]. simpl nth. apply IH. simpl in *. lia.
Qed.

Lemma tl_nth {A : Type} (l : list A) (t : nat) (d : A) :
  nth t (tl l) d = nth (S t) l d.
Proof. destruct l; [now destruct t|reflexivity]. Qed.

Lemma tl_length {A : Type} (l : list A) : length (tl l) = (length l - 1)%nat.
Proof. destruct l; simpl; lia. Qed.

Lemma likelihood_column (grid : list R) (sr : list Z) (gamma : list float)
  (t : nat) :
  (S t < length sr)%nat ->
  column t (likelihood_data grid sr gamma)
  = map2 (fun g r => poisson_pmf (nth (S t) sr 0%Z) (rate g r (nth t sr 0%Z)))
         gamma grid.
Proof.
  intros Ht. unfold column, likelihood_data, lam.
  rewrite map_map, map_map2. apply map2_ext_in. intros g r _ _.
  rewrite (nth_map2 _ _ _ _ _ 0%Z NaN).
  - rewrite tl_nth. rewrite (nth_map_in _ _ _ _ 0%Z).
    + now rewrite removelast_nth.
    + rewrite removelast_length. lia.
  - rewrite tl_length. lia.
  - rewrite length_map, removelast_length. lia.
Qed.

Lemma likelihood_entry (grid : list R) (st : RandomState) (sr : list Z)
  (i t : nat) :
  (i < length grid)%nat -> (S t < length sr)%nat ->
  nth i (column t (likelihood_data grid sr (fst (draw_gamma grid st)))) NaN
  = likelihood_reciprocal grid st sr i t.
Proof.
  intros Hi Ht. rewrite likelihood_column by exact Ht.
  rewrite draw_gamma_fst.
  rewrite (nth_map2 _ _ _ _ _ NaN 0).
  - unfold likelihood_reciprocal, rate.
    rewrite (nth_map_in _ _ _ _ 0)
      by now rewrite serial_interval_draws_length.
    reflexivity.
  - now rewrite length_map, serial_interval_draws_length.
  - exact Hi.
Qed.

(** C7 (as amended).  The likelihood of grid point [i] on day pair [t] is the
    Poisson mass at the next count [sr[t+1]] with rate
    [sr[t] * exp(gamma[i] * (r_t_range[i] - 1))], where [gamma[i]] is the
    reciprocal [1 / s[i]] of the [i]-th value of one vector [s] of
    [len(r_t_range)] samples of [np.random.normal(4, 0.2)]; the generator is
    consulted for that one vector only, whatever the number of days. *)
Theorem likelihood_uses_reciprocal_draw {D : Type} (r_t_range : list R)
  (st : RandomState) (sr : list Z) (date : list D) (sigma : R) (i t : nat) :
  (i < length r_t_range)%nat ->
  (S t < length sr)%nat ->
  nth i (column t (likelihood_data r_t_range sr
                                   (fst (draw_gamma r_t_range st)))) NaN
  = likelihood_reciprocal r_t_range st sr i t /\
  snd (get_posteriors r_t_range st sr date sigma)
  = snd (random_normal 4 (2 / 10) (length r_t_range) st).
Proof.
  intros Hi Ht. split; [now apply likelihood_entry|].
  rewrite get_posteriors_unfold. reflexivity.
Qed.

Lemma r_t_range_LU_length : length r_t_range_LU = 1001%nat.
Proof. unfold r_t_range_LU, linspace. now rewrite length_map, length_seq. Qed.

Lemma r_t_range_LU_nth (i : nat) :
  (i < 1001)%nat -> nth i r_t_range_LU 0 = INR i / 100.
Proof.
  intros Hi. unfold r_t_range_LU, linspace.
  rewrite (nth_map_in _ _ _ _ 0%nat) by now rewrite length_seq.
  rewrite seq_nth by exact Hi.
  replace (INR R_T_MAX) with 10 by (unfold R_T_MAX; simpl; lra).
  replace (INR (R_T_MAX * 100 + 1 - 1)) with 1000.
  - simpl. lra.
  - change (R_T_MAX * 100 + 1 - 1)%nat with 1000%nat.
    rewrite INR_IZR_INZ. reflexivity.
Qed.

(** ** Finite results have finite operands *)

Lemma by_sign_not_finite (x y : R) (u v : float) :
  (forall z, u <> Fin z) -> (forall z, v <> Fin z) -> by_sign x u v <> Fin y.
Proof.
  intros Hu Hv. unfold by_sign.
  destruct (Rlt_dec 0 x); [apply Hu|].
  destruct (Rlt_dec x 0); [apply Hv|discriminate].
Qed.

Lemma add_Fin_inv (a b : float) (s : R) :
  add a b = Fin s -> exists x y, a = Fin x /\ b = Fin y /\ s = x + y.
Proof.
  destruct a as [x| | |], b as [y| | |]; simpl; try discriminate.
  intros H. injection H as <-. now exists x, y.
Qed.

Lemma mul_Fin_inv (a b : float) (c : R) :
  mul a b = Fin c -> exists x y, a = Fin x /\ b = Fin y /\ c = x * y.
Proof.
  destruct a as [x| | |], b as [y| | |]; simpl; try discriminate;
    try (intros H; exfalso; revert H; apply by_sign_not_finite; discriminate).
  intros H. injection H as <-. now exists x, y.
Qed.

Lemma sum_Fin_inv (l : list float) (s : R) :
  F64.sum l = Fin s -> exists xs, l = map Fin xs /\ rsum xs = s.
Proof.
  revert s. induction l as [|a l IH]; intros s H.
  - injection H as <-. now exists [].
  - change (F64.sum (a :: l)) with (add a (F64.sum l)) in H.
    apply add_Fin_inv in H. destruct H as (x & y & -> & Hy & ->).
    destruct (IH y Hy) as (xs & -> & <-). now exists (x :: xs).
Qed.

Lemma div_Fin_nonzero (x d : R) : d <> 0 -> div (Fin x) (Fin d) = Fin (x / d).
Proof. intros Hd. simpl. now destruct (Req_dec_T d 0). Qed.

(** ** The sum that skips [NaN] *)

Lemma filter_notnan_Fin (xs : list R) :
  filter (fun v => negb (isnan v)) (map Fin xs) = map Fin xs.
Proof. induction xs as [|x xs IH]; simpl; [reflexivity|]. now rewrite IH. Qed.

Lemma nansum_map_Fin (xs : list R) : nansum (map Fin xs) = Fin (rsum xs).
Proof. unfold nansum. now rewrite filter_notnan_Fin, sum_map_Fin. Qed.

Lemma nansum_cons_NaN (l : list float) : nansum (NaN :: l) = nansum l.
Proof. reflexivity. Qed.

Lemma nansum_cons (v : float) (l : list float) :
  v <> NaN -> nansum (v :: l) = add v (nansum l).
Proof. intros Hv. destruct v; try reflexivity. congruence. Qed.

Lemma nansum_all_NaN (l : list float) :
  Forall (fun v => v = NaN) l -> nansum l = Fin 0.
Proof.
  induction 1 as [|v l -> _ IH]; [reflexivity|]. now rewrite nansum_cons_NaN.
Qed.

(** The values a finite sum is made of: all that are not [NaN] are finite. *)
Lemma nansum_Fin_inv (l : list float) (s : R) :
  nansum l = Fin s ->
  exists xs,
    filter (fun v => negb (isnan v)) l = map Fin xs /\ rsum xs = s.
Proof. intros H. now apply sum_Fin_inv. Qed.

Lemma in_notnan (l : list float) (x : R) :
  In (Fin x) l -> In (Fin x) (filter (fun v => negb (isnan v)) l).
Proof. intros H. apply filter_In. now split. Qed.

Lemma rsum_scale (xs : list R) (d : R) :
  rsum (map (fun x => x / d) xs) = rsum xs / d.
Proof.
  induction xs as [|x xs IH]; simpl; [unfold Rdiv; ring|].
  rewrite IH. unfold Rdiv. ring.
Qed.

Lemma rsum_nonneg_in (xs : list R) :
  (forall x, In x xs -> 0 <= x) -> 0 <= rsum xs.
Proof. intros H. apply rsum_nonneg. now apply Forall_forall. Qed.

(** ** One pass of the loop *)

Lemma weighted_sum_nonneg (row prev : list float) (b : R) :
  Forall weakly_nonneg row -> Forall weakly_nonneg prev ->
  F64.sum (map2 mul row prev) = Fin b -> 0 <= b.
Proof.
  intros Hrow Hprev Hb. apply sum_Fin_inv in Hb.
  destruct Hb as (ys & Hys & <-). apply rsum_nonneg_in. intros y Hy.
  assert (Hin : In (Fin y) (map2 mul row prev))
    by (rewrite Hys; now apply in_map).
  apply in_map2 in Hin. destruct Hin as (u & v & Hu & Hv & Huv).
  symmetry in Huv. apply mul_Fin_inv in Huv.
  destruct Huv as (u' & v' & -> & -> & ->).
  rewrite Forall_forall in Hrow, Hprev.
  pose proof (Hrow _ Hu u' eq_refl). pose proof (Hprev _ Hv v' eq_refl). nra.
Qed.

Lemma rmatvec_nonneg (pm : list (list R)) (v : list R) :
  Forall (Forall (fun x => 0 <= x)) pm -> Forall (fun x => 0 <= x) v ->
  Forall (fun x => 0 <= x) (rmatvec pm v).
Proof.
  intros Hpm Hv. unfold rmatvec. apply Forall_map, Forall_forall.
  intros row Hrow. apply rsum_nonneg_in. intros z Hz.
  apply in_map2 in Hz. destruct Hz as (a & b & Ha & Hb & ->).
  rewrite Forall_forall in Hpm, Hv.
  pose proof (Hpm row Hrow) as Hr. rewrite Forall_forall in Hr.
  apply Rmult_le_pos; [now apply Hr|now apply Hv].
Qed.

Lemma map2_mult_nonneg (l v : list R) :
  Forall (fun x => 0 <= x) l -> Forall (fun x => 0 <= x) v ->
  Forall (fun x => 0 <= x) (map2 Rmult l v).
Proof.
  intros Hl Hv. apply Forall_forall. intros z Hz.
  apply in_map2 in Hz. destruct Hz as (a & b & Ha & Hb & ->).
  rewrite Forall_forall in Hl, Hv.
  apply Rmult_le_pos; [now apply Hl|now apply Hv].
Qed.

(** One pass on finite arrays: no value is [NaN], and the sum that skips
    [NaN] is the sum. *)
Lemma bayes_update_Fin (pm : list (list R)) (v l : list R) :
  bayes_update (map (map Fin) pm) (map Fin v) (map Fin l)
  = (map (fun x => div (Fin x) (Fin (rsum (map2 Rmult l (rmatvec pm v)))))
         (map2 Rmult l (rmatvec pm v)),
     Fin (rsum (map2 Rmult l (rmatvec pm v)))).
Proof.
  unfold bayes_update. rewrite matvec_Fin, map2_map.
  rewrite <- (map_map2 Fin Rmult). now rewrite nansum_map_Fin, map_map.
Qed.

Lemma normalized_is_pmf (nums : list R) :
  Forall (fun x => 0 <= x) nums -> 0 < rsum nums ->
  is_pmf (map Fin (map (fun x => x / rsum nums) nums)).
Proof.
  intros Hnn Hd. split.
  - apply Forall_map, Forall_map. eapply Forall_impl; [|exact Hnn].
    intros x Hx. exists (x / rsum nums). split; [reflexivity|].
    now apply Rle_mult_inv_pos.
  - rewrite sum_map_Fin, rsum_scale. f_equal. field. lra.
Qed.

Lemma pmf_weakly_nonneg (values : list float) :
  is_pmf values -> Forall weakly_nonneg values.
Proof.
  intros [Hv _]. eapply Forall_impl; [|exact Hv].
  intros v (x & -> & Hx) y Hy. injection Hy as <-. exact Hx.
Qed.

(** On finite non-negative arrays, denominators that are not zero keep
    every column a PMF. *)
Lemma bayes_loop_pmf (pm liks : list (list R)) (prev : list R) (ll : float) :
  Forall (Forall (fun x => 0 <= x)) pm ->
  Forall (fun x => 0 <= x) prev ->
  Forall (Forall (fun x => 0 <= x)) liks ->
  Forall finite_nonzero
         (denominators (map (map Fin) pm) (map Fin prev) (map (map Fin) liks)) ->
  Forall is_pmf
         (fst (bayes_loop (map (map Fin) pm) (map Fin prev)
                          (map (map Fin) liks) ll)).
Proof.
  intros Hpm. revert prev ll.
  induction liks as [|lik liks IH]; intros prev ll Hprev Hliks Hden.
  - constructor.
  - cbn [map] in *. rewrite bayes_loop_cons.
    rewrite denominators_cons in Hden. rewrite bayes_update_Fin in *.
    cbn [fst snd] in *.
    set (nums := map2 Rmult lik (rmatvec pm prev)) in *.
    apply Forall_cons_iff in Hliks. destruct Hliks as [Hlik Hliks].
    apply Forall_cons_iff in Hden. destruct Hden as [(d & Hd & Hd0) Hden].
    injection Hd as Hd. subst d.
    assert (Hnn : Forall (fun x => 0 <= x) nums)
      by (apply map2_mult_nonneg; [exact Hlik|now apply rmatvec_nonneg]).
    assert (Hpos : 0 < rsum nums)
      by (pose proof (rsum_nonneg nums Hnn); lra).
    assert (Hcol : map (fun x => div (Fin x) (Fin (rsum nums))) nums
                   = map Fin (map (fun x => x / rsum nums) nums)).
    { rewrite map_map. apply map_ext. intros x. apply div_Fin_nonzero. lra. }
    rewrite Hcol in *. constructor; [now apply normalized_is_pmf|].
    apply IH; [|exact Hliks|exact Hden].
    apply Forall_map. eapply Forall_impl; [|exact Hnn].
    intros x Hx. now apply Rle_mult_inv_pos.
Qed.

(** ** The inputs of the loop *)

Lemma poisson_pmf_weakly_nonneg (k : Z) (mu : float) :
  weakly_nonneg (poisson_pmf k mu).
Proof.
  intros x. destruct mu as [m| | |]; simpl; try discriminate.
  - destruct (Rlt_dec m 0) as [|Hm]; [discriminate|].
    destruct (k <? 0)%Z; intros H; injection H as <-; [lra|].
    apply Rle_mult_inv_pos; [|apply INR_fact_lt_0].
    apply Rmult_le_pos; [left; apply exp_pos|apply pow_le; lra].
  - destruct (k <=? 0)%Z; [|discriminate]. intros H; injection H as <-. lra.
Qed.

Lemma NaN_weakly_nonneg : weakly_nonneg NaN.
Proof. intros x H. discriminate. Qed.

Lemma likelihood_columns_weakly_nonneg (grid : list R) (sr : list Z)
  (gamma : list float) (n : nat) :
  Forall (Forall weakly_nonneg)
         (map (fun t => column t (likelihood_data grid sr gamma)) (seq 0 n)).
Proof.
  apply Forall_map, Forall_forall. intros t _. unfold column.
  apply Forall_map, Forall_forall. intros row Hrow.
  destruct (nth_in_or_default t row NaN) as [Hin | ->];
    [|apply NaN_weakly_nonneg].
  unfold likelihood_data in Hrow. apply in_map_iff in Hrow.
  destruct Hrow as (lrow & <- & _).
  apply in_map2 in Hin. destruct Hin as (k & mu & _ & _ & ->).
  apply poisson_pmf_weakly_nonneg.
Qed.

Lemma process_matrix_weakly_nonneg (grid : list R) (sigma : R) :
  Forall (Forall weakly_nonneg) (process_matrix grid sigma).
Proof.
  destruct (Rlt_dec 0 sigma) as [Hs|Hs].
  - rewrite process_matrix_finite by exact Hs.
    apply Forall_map.
    eapply Forall_impl; [|apply (process_matrix_R_pos grid sigma Hs)].
    intros row Hrow. apply Forall_map.
    eapply Forall_impl; [|exact Hrow].
    intros x Hx y Hy. injection Hy as <-. simpl in Hx. lra.
  - unfold process_matrix. apply Forall_map, Forall_map, Forall_forall.
    intros x _. apply Forall_forall. intros v Hv.
    apply in_map2 in Hv. destruct Hv as (a & b & Ha & _ & ->).
    apply in_map_iff in Ha. destruct Ha as (loc & <- & _).
    rewrite norm_pdf_invalid by exact Hs. apply NaN_weakly_nonneg.
Qed.

Lemma rsum_constant {A : Type} (c : R) (l : list A) :
  rsum (map (fun _ => c) l) = INR (length l) * c.
Proof.
  induction l as [|x l IH]; [simpl; lra|].
  rewrite map_cons. change (length (x :: l)) with (S (length l)).
  rewrite S_INR. simpl. rewrite IH. lra.
Qed.

(** The prior is the uniform distribution over a non-empty Grid. *)
Lemma prior0_uniform (grid : list R) :
  grid <> [] ->
  prior0 grid = map (fun _ => Fin (/ INR (length grid))) grid.
Proof.
  intros Hne.
  assert (Hn : INR (length grid) <> 0).
  { apply not_0_INR. destruct grid; [congruence|discriminate]. }
  assert (Hones : map (fun _ : R => div (Fin 1) (Fin (INR (length grid)))) grid
                  = map Fin (map (fun _ => 1 / INR (length grid)) grid)).
  { rewrite map_map. apply map_ext. intros _. now apply div_Fin_nonzero. }
  assert (Hone : INR (length grid) * (1 / INR (length grid)) = 1)
    by now field.
  unfold prior0. rewrite Hones, sum_map_Fin, rsum_constant, Hone, !map_map.
  apply map_ext. intros _.
  rewrite div_Fin_nonzero by lra. f_equal. now field.
Qed.

Lemma prior0_pmf (grid : list R) : grid <> [] -> is_pmf (prior0 grid).
Proof.
  intros Hne. rewrite prior0_uniform by exact Hne.
  assert (Hn : 0 < INR (length grid)).
  { apply lt_0_INR. destruct grid; [congruence|simpl; lia]. }
  split.
  - apply Forall_map, Forall_forall. intros _ _. eexists. split; [reflexivity|].
    left. now apply Rinv_0_lt_compat.
  - rewrite <- (map_map (fun _ : R => / INR (length grid)) Fin).
    rewrite sum_map_Fin, rsum_constant. f_equal. field. lra.
Qed.

Lemma Forall_combine_snd {A B : Type} (P : B -> Prop) (l : list A)
  (m : list B) :
  Forall P m -> Forall (fun c => P (snd c)) (combine l m).
Proof.
  intros Hm. revert l. induction Hm as [|y m Hy _ IH]; intros [|x l]; simpl;
    constructor; auto.
Qed.

Lemma poisson_pmf_values (k : Z) (mu : float) :
  poisson_pmf k mu = NaN \/ exists x, poisson_pmf k mu = Fin x /\ 0 <= x.
Proof.
  destruct (poisson_pmf k mu) as [x| | |] eqn:E; auto.
  - right. exists x. split; [reflexivity|].
    now apply (poisson_pmf_weakly_nonneg k mu).
  - destruct mu as [m| | |]; simpl in E; try discriminate.
    + destruct (Rlt_dec m 0); [discriminate|]. now destruct (k <? 0)%Z.
    + now destruct (k <=? 0)%Z.
  - destruct mu as [m| | |]; simpl in E; try discriminate.
    + destruct (Rlt_dec m 0); [discriminate|]. now destruct (k <? 0)%Z.
    + now destruct (k <=? 0)%Z.
Qed.

(** A likelihood is a finite non-negative number or [NaN]. *)
Lemma likelihood_columns_values (grid : list R) (sr : list Z)
  (gamma : list float) (n : nat) :
  Forall (Forall (fun v => v = NaN \/ exists x, v = Fin x /\ 0 <= x))
         (map (fun t => column t (likelihood_data grid sr gamma)) (seq 0 n)).
Proof.
  apply Forall_map, Forall_forall. intros t _. unfold column.
  apply Forall_map, Forall_forall. intros row Hrow.
  destruct (nth_in_or_default t row NaN) as [Hin | ->]; [|now left].
  unfold likelihood_data in Hrow. apply in_map_iff in Hrow.
  destruct Hrow as (lrow & <- & _).
  apply in_map2 in Hin. destruct Hin as (k & mu & _ & _ & ->).
  apply poisson_pmf_values.
Qed.

Lemma notnan_values_finite (l : list float) :
  Forall (fun v => v = NaN \/ exists x, v = Fin x /\ 0 <= x) l ->
  Forall (fun v => v <> NaN) l ->
  exists xs, l = map Fin xs /\ Forall (fun x => 0 <= x) xs.
Proof.
  induction 1 as [|v l Hv _ IH]; intros Hn.
  - exists []. split; [reflexivity|constructor].
  - apply Forall_cons_iff in Hn. destruct Hn as [Hv' Hn].
    destruct Hv as [->|(x & -> & Hx)]; [congruence|].
    destruct (IH Hn) as (xs & -> & Hxs).
    exists (x :: xs). split; [reflexivity|now constructor].
Qed.

Lemma notnan_columns_finite (liks : list (list float)) :
  Forall (Forall (fun v => v = NaN \/ exists x, v = Fin x /\ 0 <= x)) liks ->
  Forall (Forall (fun v => v <> NaN)) liks ->
  exists liksR,
    liks = map (map Fin) liksR /\ Forall (Forall (fun x => 0 <= x)) liksR.
Proof.
  induction 1 as [|l liks Hl _ IH]; intros Hn.
  - exists []. split; [reflexivity|constructor].
  - apply Forall_cons_iff in Hn. destruct Hn as [Hl' Hn].
    destruct (notnan_values_finite l Hl Hl') as (xs & -> & Hxs).
    destruct (IH Hn) as (liksR & -> & HR).
    exists (xs :: liksR). split; [reflexivity|now constructor].
Qed.

(** With an invalid [sigma] every entry of the process matrix is [NaN]. *)
Lemma process_matrix_invalid (grid : list R) (sigma : R) :
  ~ 0 < sigma ->
  Forall (Forall (fun v => v = NaN)) (process_matrix grid sigma).
Proof.
  intros Hs. unfold process_matrix. apply Forall_map, Forall_map, Forall_forall.
  intros x _. apply Forall_forall. intros v Hv.
  apply in_map2 in Hv. destruct Hv as (a & b & Ha & _ & ->).
  apply in_map_iff in Ha. destruct Ha as (loc & <- & _).
  now rewrite norm_pdf_invalid by exact Hs.
Qed.

Lemma rsum_nonzero_entry (xs : list R) :
  rsum xs <> 0 -> exists x, In x xs /\ x <> 0.
Proof.
  induction xs as [|x xs IH]; simpl; intros H; [congruence|].
  destruct (Req_dec_T x 0) as [->|Hx].
  - destruct IH as (y & Hy & Hy0); [lra|]. exists y. auto.
  - exists x. auto.
Qed.

(** A denominator that is a number other than zero comes from a valid
    [sigma]. *)
Lemma finite_denominator_valid_sigma (grid : list R) (sigma : R)
  (prev lik : list float) :
  finite_nonzero (snd (bayes_update (process_matrix grid sigma) prev lik)) ->
  0 < sigma.
Proof.
  intros (d & Hd & Hd0). destruct (Rlt_dec 0 sigma) as [Hs|Hs]; [exact Hs|].
  exfalso. unfold bayes_update in Hd. cbn [snd] in Hd.
  apply nansum_Fin_inv in Hd. destruct Hd as (xs & Hxs & Hsum).
  destruct (rsum_nonzero_entry xs) as (x & Hx & Hx0); [now rewrite Hsum|].
  assert (Hin : In (Fin x) (map2 mul lik (matvec (process_matrix grid sigma) prev))).
  { apply (in_map Fin) in Hx. rewrite <- Hxs in Hx.
    now apply filter_In in Hx. }
  apply in_map2 in Hin. destruct Hin as (l & c & _ & Hc & Hlc).
  symmetry in Hlc. apply mul_Fin_inv in Hlc.
  destruct Hlc as (l' & c' & -> & -> & ->).
  unfold matvec in Hc. apply in_map_iff in Hc. destruct Hc as (row & Hrow & Hin).
  apply sum_Fin_inv in Hrow. destruct Hrow as (ys & Hys & Hc').
  destruct (rsum_nonzero_entry ys) as (y & Hy & _); [rewrite Hc'; nra|].
  apply (in_map Fin) in Hy. rewrite <- Hys in Hy.
  apply in_map2 in Hy. destruct Hy as (a & b & Ha & _ & Hab).
  symmetry in Hab. apply mul_Fin_inv in Hab. destruct Hab as (a' & _ & -> & _).
  pose proof (process_matrix_invalid grid sigma Hs) as Hnan.
  rewrite Forall_forall in Hnan. specialize (Hnan row Hin).
  rewrite Forall_forall in Hnan. specialize (Hnan _ Ha). discriminate.
Qed.

Lemma is_pmf_within_tolerance (values : list float) :
  is_pmf values ->
  exists s, F64.sum values = Fin s /\ Rabs (s - 1) <= / 10 ^ 9.
Proof.
  intros [_ Hs]. exists 1. split; [exact Hs|].
  replace (1 - 1) with 0 by ring. rewrite Rabs_R0.
  left. apply Rinv_0_lt_compat. apply pow_lt. lra.
Qed.

(** The columns of a run whose denominators are numbers other than zero and
    whose likelihoods hold no [NaN]. *)
Lemma run_columns_are_pmfs {D : Type} (r_t_range : list R)
  (st : RandomState) (sr : list Z) (date : list D) (sigma : R)
  (posteriors : list (D * list float)) (log_likelihood : float) :
  r_t_range <> [] ->
  fst (get_posteriors r_t_range st sr date sigma)
  = Ok (posteriors, log_likelihood) ->
  Forall finite_nonzero (day_denominators r_t_range st sr date sigma) ->
  Forall (Forall (fun v => v <> NaN)) (day_likelihoods r_t_range st sr date) ->
  Forall (fun column => is_pmf (snd column)) posteriors.
Proof.
  intros Hne Hok Hden Hlik. rewrite get_posteriors_unfold in Hok.
  simpl fst in Hok.
  destruct (negb _); [discriminate|].
  destruct date as [|d date]; [discriminate|].
  cbv zeta in Hok. injection Hok as <- _.
  unfold day_denominators in Hden. unfold day_likelihoods in Hlik.
  set (liks := map _ (seq 0 (length (tl (d :: date))))) in *.
  assert (Hcols : Forall is_pmf
            (prior0 r_t_range
               :: fst (bayes_loop (process_matrix r_t_range sigma)
                         (prior0 r_t_range) liks (Fin 0)))).
  { constructor; [now apply prior0_pmf|].
    destruct (notnan_columns_finite liks) as (liksR & HliksR & Hnn);
      [apply likelihood_columns_values|exact Hlik|].
    rewrite HliksR in *. clear HliksR liks Hlik.
    destruct liksR as [|lik liksR]; [constructor|].
    assert (Hs : 0 < sigma).
    { cbn [map] in Hden. rewrite denominators_cons in Hden.
      apply Forall_inv in Hden.
      exact (finite_denominator_valid_sigma _ _ _ _ Hden). }
    rewrite process_matrix_finite in * by exact Hs.
    rewrite prior0_uniform in * by exact Hne.
    rewrite <- (map_map (fun _ : R => / INR (length r_t_range)) Fin) in *.
    apply bayes_loop_pmf; [| |exact Hnn|exact Hden].
    - eapply Forall_impl; [|apply (process_matrix_R_pos r_t_range sigma Hs)].
      intros row Hrow. eapply Forall_impl; [|exact Hrow].
      intros x Hx. simpl in Hx. lra.
    - apply Forall_map, Forall_forall. intros _ _. left.
      apply Rinv_0_lt_compat, lt_0_INR.
      destruct r_t_range; [congruence|simpl; lia]. }
  exact (Forall_combine_snd is_pmf (d :: date) _ Hcols).
Qed.

(** C3 (as amended).  For every input on which [get_posteriors] returns, if
    every day's denominator is a number other than zero and no likelihood
    is [NaN], every column of the returned table is a PMF: its entries are
    non-negative and sum to one (exactly, the arithmetic being exact, and so
    within [1e-9]); the first day's column is the uniform prior over the
    non-empty Grid. *)
Theorem posterior_columns_are_pmfs {D : Type} (r_t_range : list R)
  (st : RandomState) (sr : list Z) (date : list D) (sigma : R)
  (posteriors : list (D * list float)) (log_likelihood : float) :
  r_t_range <> [] ->
  fst (get_posteriors r_t_range st sr date sigma)
  = Ok (posteriors, log_likelihood) ->
  Forall finite_nonzero (day_denominators r_t_range st sr date sigma) ->
  Forall (Forall (fun v => v <> NaN)) (day_likelihoods r_t_range st sr date) ->
  Forall (fun column => is_pmf (snd column)) posteriors /\
  Forall (fun column =>
            exists s, F64.sum (snd column) = Fin s /\
                      Rabs (s - 1) <= / 10 ^ 9) posteriors /\
  exists day0 rest,
    posteriors
    = (day0, map (fun _ => Fin (/ INR (length r_t_range))) r_t_range) :: rest.
Proof.
  intros Hne Hok Hden Hlik.
  pose proof (run_columns_are_pmfs r_t_range st sr date sigma posteriors
                log_likelihood Hne Hok Hden Hlik) as Hpmf.
  split; [exact Hpmf|]. split.
  - eapply Forall_impl; [|exact Hpmf].
    intros column. apply is_pmf_within_tolerance.
  - rewrite get_posteriors_unfold in Hok. simpl fst in Hok.
    destruct (negb _); [discriminate|].
    destruct date as [|d date]; [discriminate|].
    cbv zeta in Hok. injection Hok as <- _.
    simpl combine. rewrite prior0_uniform by exact Hne. eauto.
Qed.

(** ** Runs with valid samples and counts *)

Lemma map2_map_l {A A' B C : Type} (f : A' -> B -> C) (g : A -> A')
  (l : list A) (m : list B) :
  map2 f (map g l) m = map2 (fun x y => f (g x) y) l m.
Proof.
  revert m; induction l as [|x l IH]; intros [|y m]; simpl; auto.
  now rewrite IH.
Qed.

Lemma rate_finite (s r : R) (a : Z) :
  s <> 0 ->
  rate (div (Fin 1) (Fin s)) r a
  = Fin (IZR a * Rtrigo_def.exp (1 / s * (r + - 1))).
Proof. intros Hs. unfold rate. now rewrite div_Fin_nonzero. Qed.

Lemma poisson_pmf_finite (k : Z) (m : R) :
  0 <= m -> (0 <= k)%Z -> poisson_pmf k (Fin m) = Fin (poisson_mass k m).
Proof.
  intros Hm Hk. unfold poisson_pmf.
  destruct (Rlt_dec m 0); [lra|].
  destruct (Z.ltb_spec k 0); [lia|reflexivity].
Qed.

Lemma likelihood_column_Fin (grid : list R) (st : RandomState) (sr : list Z)
  (t : nat) :
  Forall (fun s => s <> 0) (serial_interval_draws grid st) ->
  (S t < length sr)%nat ->
  (0 <= nth t sr 0)%Z -> (0 <= nth (S t) sr 0)%Z ->
  column t (likelihood_data grid sr (fst (draw_gamma grid st)))
  = map Fin (map2 (fun s r => likelihood_R s r (nth t sr 0%Z) (nth (S t) sr 0%Z))
                  (serial_interval_draws grid st) grid).
Proof.
  intros Hs Ht Ha Hk. rewrite likelihood_column by exact Ht.
  rewrite draw_gamma_fst.
  rewrite map2_map_l, map_map2.
  apply map2_ext_in. intros s r Hin _.
  rewrite Forall_forall in Hs. rewrite rate_finite by now apply Hs.
  apply poisson_pmf_finite; [|exact Hk].
  apply Rmult_le_pos; [now apply IZR_le|left; apply exp_pos].
Qed.

(** With samples other than zero and counts that are not negative, no
    likelihood is [NaN]. *)
Lemma valid_likelihoods_no_nan {D : Type} (grid : list R) (st : RandomState)
  (sr : list Z) (date : list D) :
  Forall (fun s => s <> 0) (serial_interval_draws grid st) ->
  Forall (fun c => (0 <= c)%Z) sr ->
  length (removelast sr) = length (tl date) ->
  Forall (Forall (fun v => v <> NaN)) (day_likelihoods grid st sr date).
Proof.
  intros Hs Hsr Hshape. unfold day_likelihoods.
  apply Forall_map, Forall_forall. intros t Ht. apply in_seq in Ht.
  rewrite <- Hshape, removelast_length in Ht.
  rewrite Forall_forall in Hsr.
  rewrite likelihood_column_Fin;
    [|exact Hs|lia|apply Hsr, nth_In; lia|apply Hsr, nth_In; lia].
  apply Forall_map, Forall_forall. intros x _. discriminate.
Qed.

Lemma prior0_finite (grid : list R) :
  grid <> [] -> prior0 grid = map Fin (prior_R grid).
Proof.
  intros Hne. rewrite prior0_uniform by exact Hne. unfold prior_R.
  now rewrite map_map.
Qed.

(** The run over two days whose likelihood column is finite. *)
Lemma two_day_run {D : Type} (grid : list R) (st : RandomState) (a k : Z)
  (d0 d1 : D) (sigma : R) (lik : list R) :
  0 < sigma -> grid <> [] ->
  column 0 (likelihood_data grid [a; k] (fst (draw_gamma grid st)))
  = map Fin lik ->
  let nums :=
    map2 Rmult lik (rmatvec (process_matrix_R grid sigma) (prior_R grid)) in
  fst (get_posteriors grid st [a; k] [d0; d1] sigma)
  = Ok ([(d0, prior0 grid);
         (d1, map (fun x => div (Fin x) (Fin (rsum nums))) nums)],
        add (Fin 0) (F64.log (Fin (rsum nums)))) /\
  day_denominators grid st [a; k] [d0; d1] sigma = [Fin (rsum nums)].
Proof.
  intros Hs Hne Hlik nums.
  assert (Hstep : bayes_update (process_matrix grid sigma) (prior0 grid)
                               (map Fin lik)
                  = (map (fun x => div (Fin x) (Fin (rsum nums))) nums,
                     Fin (rsum nums))).
  { unfold bayes_update.
    rewrite process_matrix_finite by exact Hs.
    rewrite prior0_finite by exact Hne.
    rewrite matvec_Fin, map2_map.
    rewrite <- (map_map2 Fin Rmult). fold nums.
    now rewrite nansum_map_Fin, map_map. }
  split.
  - rewrite get_posteriors_unfold. cbn [fst removelast tl length Nat.eqb negb seq map].
    rewrite Hlik, bayes_loop_cons, Hstep. reflexivity.
  - unfold day_denominators. cbn [tl length seq map].
    rewrite Hlik, denominators_cons, Hstep. reflexivity.
Qed.

(** *** A zero count followed by a positive one *)

Lemma likelihood_R_zero_rate (s r : R) : likelihood_R s r 0 1 = 0.
Proof. unfold likelihood_R, poisson_mass. simpl. field. Qed.

Lemma rsum_zeros (xs : list R) : (forall x, In x xs -> x = 0) -> rsum xs = 0.
Proof.
  induction xs as [|x xs IH]; intros H; simpl; [reflexivity|].
  rewrite (H x) by (simpl; auto). rewrite IH by (intros; apply H; simpl; auto).
  lra.
Qed.

Lemma div_zero_by_zero : div (Fin 0) (Fin 0) = NaN.
Proof.
  simpl. destruct (Req_dec_T 0 0); [|congruence]. unfold by_sign.
  destruct (Rlt_dec 0 0); [lra|reflexivity].
Qed.

Lemma log_zero : F64.log (Fin 0) = NInf.
Proof.
  simpl. destruct (Rlt_dec 0 0); [lra|]. now destruct (Req_dec_T 0 0).
Qed.

Lemma map_constant_repeat {A B : Type} (c : B) (l : list A) :
  map (fun _ => c) l = repeat c (length l).
Proof. induction l as [|x l IH]; simpl; [reflexivity|now rewrite IH]. Qed.

Lemma process_matrix_R_length (grid : list R) (sigma : R) :
  length (process_matrix_R grid sigma) = length grid.
Proof. unfold process_matrix_R. now rewrite !length_map. Qed.

Lemma zero_then_positive_run {D : Type} (grid : list R) (st : RandomState)
  (d0 d1 : D) (sigma : R) :
  0 < sigma -> grid <> [] ->
  Forall (fun s => s <> 0) (serial_interval_draws grid st) ->
  fst (get_posteriors grid st [0; 1]%Z [d0; d1] sigma)
  = Ok ([(d0, prior0 grid); (d1, repeat NaN (length grid))], NInf) /\
  day_denominators grid st [0; 1]%Z [d0; d1] sigma = [Fin 0].
Proof.
  intros Hs Hne Hdraws.
  pose proof (likelihood_column_Fin grid st [0; 1]%Z 0 Hdraws) as Hlik.
  cbn [nth length] in Hlik. specialize (Hlik ltac:(lia) ltac:(lia) ltac:(lia)).
  destruct (two_day_run grid st 0 1 d0 d1 sigma _ Hs Hne Hlik) as [Hrun Hden].
  set (nums := map2 Rmult _ _) in *.
  assert (Hzero : forall x, In x nums -> x = 0).
  { intros x Hx. apply in_map2 in Hx. destruct Hx as (l & c & Hl & _ & ->).
    apply in_map2 in Hl. destruct Hl as (s & r & _ & _ & ->).
    rewrite likelihood_R_zero_rate. ring. }
  assert (Hlen : length nums = length grid).
  { unfold nums, rmatvec.
    rewrite !map2_length, length_map, serial_interval_draws_length,
      process_matrix_R_length.
    lia. }
  rewrite (rsum_zeros nums Hzero) in Hrun, Hden.
  rewrite (map_ext_in _ (fun _ => NaN)) in Hrun
    by (intros x Hx; rewrite (Hzero x Hx); apply div_zero_by_zero).
  rewrite map_constant_repeat, Hlen, log_zero in Hrun.
  split; [exact Hrun|exact Hden].
Qed.

Lemma constant_stream_draws (grid : list R) (z : R) :
  serial_interval_draws grid (constant_stream z)
  = map (fun _ => 4 + 2 / 10 * z) (seq 0 (length grid)).
Proof. reflexivity. Qed.

Lemma constant_stream_zero_valid (grid : list R) :
  Forall (fun s => s <> 0) (serial_interval_draws grid (constant_stream 0)).
Proof.
  rewrite constant_stream_draws. apply Forall_map, Forall_forall.
  intros _ _. lra.
Qed.

Lemma r_t_range_LU_nonempty : r_t_range_LU <> [].
Proof.
  intros E. pose proof r_t_range_LU_length as H. rewrite E in H. discriminate.
Qed.

(** C2, the claim as stated fails: on the smoothed counts [0, 1] the one
    day pair has the denominator zero, and the run raises nothing: it divides
    and returns the table, the second day's column made of [NaN]. *)
Lemma zero_denominator_is_divided :
  day_denominators r_t_range_LU (constant_stream 0) [0; 1]%Z [0; 1]%nat
                   (15 / 100)
  = [Fin 0] /\
  fst (get_posteriors r_t_range_LU (constant_stream 0) [0; 1]%Z [0; 1]%nat
                      (15 / 100))
  = Ok ([(0%nat, prior0 r_t_range_LU); (1%nat, repeat NaN 1001)], NInf).
Proof.
  destruct (zero_then_positive_run r_t_range_LU (constant_stream 0) 0%nat 1%nat
              (15 / 100)) as [Hrun Hden].
  - lra.
  - exact r_t_range_LU_nonempty.
  - apply constant_stream_zero_valid.
  - rewrite r_t_range_LU_length in Hrun. split; [exact Hden|exact Hrun].
Qed.

Lemma NaN_column_not_pmf (n : nat) : ~ is_pmf (repeat NaN (S n)).
Proof.
  intros [Hv _]. inversion Hv as [|? ? (x & Hx & _) _]. discriminate.
Qed.

(** On the smoothed counts [0, 1] [get_posteriors] completes, and the
    second day's column of the table it returns is not a PMF. *)
Lemma zero_denominator_run_not_pmf :
  exists posteriors log_likelihood,
    fst (get_posteriors r_t_range_LU (constant_stream 0) [0; 1]%Z [0; 1]%nat
                        (15 / 100))
    = Ok (posteriors, log_likelihood) /\
    ~ Forall (fun column => is_pmf (snd column)) posteriors.
Proof.
  destruct (zero_then_positive_run r_t_range_LU (constant_stream 0) 0%nat 1%nat
              (15 / 100)) as [Hrun _].
  - lra.
  - exact r_t_range_LU_nonempty.
  - apply constant_stream_zero_valid.
  - rewrite r_t_range_LU_length in Hrun.
    eexists _, _. split; [exact Hrun|].
    intros H. pose proof (Forall_inv (Forall_inv_tail H)) as Hcol.
    exact (NaN_column_not_pmf 1000 Hcol).
Qed.

(** *** Positive counts *)

Lemma poisson_mass_pos (k : Z) (m : R) : 0 < m -> 0 < poisson_mass k m.
Proof.
  intros Hm. unfold poisson_mass.
  apply Rdiv_lt_0_compat; [|apply INR_fact_lt_0].
  apply Rmult_lt_0_compat; [apply exp_pos|now apply pow_lt].
Qed.

Lemma likelihood_R_pos (s r : R) (a k : Z) :
  (0 < a)%Z -> 0 < likelihood_R s r a k.
Proof.
  intros Ha. apply poisson_mass_pos.
  apply Rmult_lt_0_compat; [now apply IZR_lt|apply exp_pos].
Qed.

Lemma rsum_pos (xs : list R) :
  xs <> [] -> Forall (fun x => 0 < x) xs -> 0 < rsum xs.
Proof.
  intros Hne Hpos. destruct xs as [|x xs]; [congruence|].
  inversion Hpos as [|? ? Hx Hxs]; subst. simpl.
  assert (0 <= rsum xs); [|lra].
  apply rsum_nonneg. eapply Forall_impl; [|exact Hxs]. intros y Hy. simpl in Hy. lra.
Qed.

Lemma map2_mult_pos (l m : list R) :
  Forall (fun x => 0 < x) l -> Forall (fun x => 0 < x) m ->
  Forall (fun x => 0 < x) (map2 Rmult l m).
Proof.
  intros Hl Hm. apply Forall_forall. intros z Hz.
  apply in_map2 in Hz. destruct Hz as (a & b & Ha & Hb & ->).
  rewrite Forall_forall in Hl, Hm. apply Rmult_lt_0_compat; auto.
Qed.

Lemma prior_R_pos (grid : list R) :
  Forall (fun x => 0 < x) (prior_R grid).
Proof.
  unfold prior_R. apply Forall_map, Forall_forall. intros r Hr.
  apply Rinv_0_lt_compat, lt_0_INR. destruct grid; [contradiction|simpl; lia].
Qed.

(** The predicted prior of the first pass is positive everywhere. *)
Lemma first_prediction_pos (grid : list R) (sigma : R) :
  0 < sigma ->
  Forall (fun x => 0 < x)
         (rmatvec (process_matrix_R grid sigma) (prior_R grid)).
Proof.
  intros Hs. unfold rmatvec. apply Forall_map.
  pose proof (process_matrix_R_pos grid sigma Hs) as Hpos.
  pose proof (process_matrix_R_rows grid sigma) as Hrows.
  rewrite Forall_forall in Hpos, Hrows. apply Forall_forall.
  intros row Hrow. apply rsum_pos.
  - intros E. pose proof (f_equal (@length R) E) as Hl.
    rewrite map2_length, (Hrows row Hrow) in Hl. unfold prior_R in Hl.
    rewrite length_map, Nat.min_id in Hl. simpl in Hl.
    assert (Hin : In row (process_matrix_R grid sigma)) by exact Hrow.
    unfold process_matrix_R in Hin. apply in_map_iff in Hin.
    destruct Hin as (raw & _ & Hraw). apply in_map_iff in Hraw.
    destruct Hraw as (x & _ & Hx). destruct grid; [contradiction|discriminate].
  - apply map2_mult_pos; [now apply Hpos|apply prior_R_pos].
Qed.

(** With valid samples, a positive count and a non-negative next count the
    denominator of the first pass is positive. *)
Lemma positive_counts_run {D : Type} (grid : list R) (st : RandomState)
  (a k : Z) (d0 d1 : D) (sigma : R) :
  0 < sigma -> grid <> [] ->
  Forall (fun s => s <> 0) (serial_interval_draws grid st) ->
  (0 < a)%Z -> (0 <= k)%Z ->
  let nums :=
    map2 Rmult
         (map2 (fun s r => likelihood_R s r a k)
               (serial_interval_draws grid st) grid)
         (rmatvec (process_matrix_R grid sigma) (prior_R grid)) in
  0 < rsum nums /\
  fst (get_posteriors grid st [a; k] [d0; d1] sigma)
  = Ok ([(d0, prior0 grid); (d1, map (fun x => Fin (x / rsum nums)) nums)],
        Fin (0 + ln (rsum nums))) /\
  day_denominators grid st [a; k] [d0; d1] sigma = [Fin (rsum nums)].
Proof.
  intros Hs Hne Hdraws Ha Hk nums.
  pose proof (likelihood_column_Fin grid st [a; k] 0 Hdraws) as Hlik.
  cbn [nth length] in Hlik. specialize (Hlik ltac:(lia) ltac:(lia) Hk).
  destruct (two_day_run grid st a k d0 d1 sigma _ Hs Hne Hlik) as [Hrun Hden].
  fold nums in Hrun, Hden.
  assert (Hpos : 0 < rsum nums).
  { apply rsum_pos.
    - intros E. pose proof (f_equal (@length R) E) as Hl. unfold nums in Hl.
      unfold rmatvec in Hl.
      rewrite !map2_length, length_map, serial_interval_draws_length,
        process_matrix_R_length, !Nat.min_id in Hl.
      destruct grid; [congruence|discriminate].
    - apply map2_mult_pos; [|now apply first_prediction_pos].
      apply Forall_forall. intros z Hz. apply in_map2 in Hz.
      destruct Hz as (s & r & _ & _ & ->). now apply likelihood_R_pos. }
  split; [exact Hpos|]. split; [|exact Hden].
  rewrite Hrun. f_equal. f_equal.
  - f_equal. f_equal. f_equal. apply map_ext. intros x.
    apply div_Fin_nonzero. lra.
  - simpl. now destruct (Rlt_dec 0 (rsum nums)).
Qed.

Lemma finite_nonzero_pos (x : R) : 0 < x -> finite_nonzero (Fin x).
Proof. intros Hx. exists x. split; [reflexivity|lra]. Qed.

Lemma posterior_columns_are_pmfs_witness :
  exists posteriors log_likelihood,
    fst (get_posteriors r_t_range_LU (constant_stream 0) [1; 0]%Z [0; 1]%nat
                        (15 / 100))
    = Ok (posteriors, log_likelihood) /\
    Forall (fun column => is_pmf (snd column)) posteriors /\
    Forall (fun column =>
              exists s, F64.sum (snd column) = Fin s /\
                        Rabs (s - 1) <= / 10 ^ 9) posteriors /\
    exists day0 rest,
      posteriors
      = (day0, map (fun _ => Fin (/ INR (length r_t_range_LU))) r_t_range_LU)
          :: rest.
Proof.
  destruct (positive_counts_run r_t_range_LU (constant_stream 0) 1 0 0%nat 1%nat
              (15 / 100)) as (Hpos & Hrun & Hden);
    [lra | exact r_t_range_LU_nonempty | apply constant_stream_zero_valid
     | lia | lia |].
  eexists _, _. split; [exact Hrun|].
  apply (posterior_columns_are_pmfs r_t_range_LU (constant_stream 0) [1; 0]%Z
           [0; 1]%nat (15 / 100) _ _ r_t_range_LU_nonempty Hrun).
  - rewrite Hden. constructor; [now apply finite_nonzero_pos|constructor].
  - apply valid_likelihoods_no_nan.
    + apply constant_stream_zero_valid.
    + repeat constructor; lia.
    + reflexivity.
Defined.

Lemma get_posteriors_never_checks_denominator_witness :
  exists (posteriors : list (nat * list float)) (log_likelihood : float),
    fst (get_posteriors r_t_range_LU (constant_stream 0) [0; 1]%Z [0; 1]%nat
                        (15 / 100))
    = Ok (posteriors, log_likelihood) /\
    map fst posteriors = [0; 1]%nat.
Proof.
  apply (get_posteriors_never_checks_denominator r_t_range_LU
           (constant_stream 0) [0; 1]%Z [0; 1]%nat (15 / 100)).
  - discriminate.
  - reflexivity.
Defined.

(** ** The serial-interval sample *)

Lemma constant_stream_draw (z : R) (i : nat) :
  (i < 1001)%nat ->
  nth i (serial_interval_draws r_t_range_LU (constant_stream z)) 0
  = 4 + 2 / 10 * z.
Proof.
  intros Hi. rewrite serial_interval_draws_nth
    by now rewrite r_t_range_LU_length.
  reflexivity.
Qed.

Lemma poisson_mass_zero_count_inj (m1 m2 : R) :
  poisson_mass 0 m1 = poisson_mass 0 m2 -> m1 = m2.
Proof.
  unfold poisson_mass. simpl. intros H.
  assert (E : Rtrigo_def.exp (- m1) = Rtrigo_def.exp (- m2)) by lra.
  apply exp_inv in E. lra.
Qed.

(** C7, the claim as stated fails: with every Normal sample equal to [4],
    the previous count [1] and the next count [0], the likelihood of the
    grid point [r = 0] is the Poisson mass with rate [exp(-1/4)]; the rate
    built with the sample itself would be [exp(-4)]. *)
Lemma likelihood_differs_from_specified :
  nth 0 (column 0 (likelihood_data r_t_range_LU [1; 0]%Z
                     (fst (draw_gamma r_t_range_LU (constant_stream 0))))) NaN
  <> likelihood_as_specified r_t_range_LU (constant_stream 0) [1; 0]%Z 0 0.
Proof.
  rewrite likelihood_entry
    by (rewrite ?r_t_range_LU_length; simpl; lia).
  unfold likelihood_reciprocal, likelihood_as_specified.
  rewrite !constant_stream_draw by lia.
  rewrite r_t_range_LU_nth by lia.
  cbn [nth]. fold (rate (div (Fin 1) (Fin (4 + 2 / 10 * 0))) (INR 0 / 100) 1).
  rewrite rate_finite by lra.
  rewrite poisson_pmf_finite;
    [|apply Rmult_le_pos; [lra|left; apply exp_pos]|lia].
  cbn [mul sub add neg F64.exp].
  rewrite poisson_pmf_finite;
    [|apply Rmult_le_pos; [lra|left; apply exp_pos]|lia].
  intros E. injection E as E. apply poisson_mass_zero_count_inj in E.
  apply Rmult_eq_reg_l in E; [|lra]. apply exp_inv in E. simpl in E. lra.
Qed.

(** ** Dependence on the generator *)

(** C9 (as amended).  The results of [get_posteriors] depend on the state of
    the random generator, and on nothing else besides the arguments, through
    the one vector of serial-interval samples: two runs on identical [sr],
    [date] and [sigma] whose generators deliver the same samples return
    identical tables and log-likelihoods. *)
Theorem get_posteriors_determined_by_draws {D : Type} (r_t_range : list R)
  (st1 st2 : RandomState) (sr : list Z) (date : list D) (sigma : R) :
  serial_interval_draws r_t_range st1 = serial_interval_draws r_t_range st2 ->
  fst (get_posteriors r_t_range st1 sr date sigma)
  = fst (get_posteriors r_t_range st2 sr date sigma).
Proof.
  intros Hdraws. rewrite !get_posteriors_unfold. cbn [fst].
  now rewrite !draw_gamma_fst, Hdraws.
Qed.

Lemma get_posteriors_determined_by_draws_witness :
  fst (get_posteriors r_t_range_LU (constant_stream 0) [1; 0]%Z [0; 1]%nat
                      (15 / 100))
  = fst (get_posteriors r_t_range_LU {| gauss := fun _ => 0; pos := 7 |}
                        [1; 0]%Z [0; 1]%nat (15 / 100)).
Proof.
  apply (get_posteriors_determined_by_draws r_t_range_LU (constant_stream 0)
           {| gauss := fun _ => 0; pos := 7 |}).
  reflexivity.
Defined.

Lemma get_posteriors_state {D : Type} (grid : list R) (st : RandomState)
  (sr : list Z) (date : list D) (sigma : R) :
  snd (get_posteriors grid st sr date sigma)
  = {| gauss := gauss st; pos := (pos st + length grid)%nat |}.
Proof. rewrite get_posteriors_unfold. reflexivity. Qed.

Lemma draws_valid (grid : list R) (st : RandomState) :
  (forall i, (i < length grid)%nat -> 4 + 2 / 10 * gauss st (pos st + i) <> 0) ->
  Forall (fun s => s <> 0) (serial_interval_draws grid st).
Proof.
  intros H. unfold serial_interval_draws, random_normal. cbn [fst].
  apply Forall_map, Forall_forall. intros i Hi. apply in_seq in Hi.
  apply H. lia.
Qed.

Lemma first_entry_of_numerator (grid : list R) (st : RandomState) (a k : Z)
  (sigma : R) :
  0 < sigma -> grid <> [] ->
  exists c, 0 < c /\
    nth 0 (map2 Rmult
             (map2 (fun s r => likelihood_R s r a k)
                   (serial_interval_draws grid st) grid)
             (rmatvec (process_matrix_R grid sigma) (prior_R grid))) 0
    = likelihood_R (nth 0 (serial_interval_draws grid st) 0) (nth 0 grid 0) a k
      * c /\
    c = nth 0 (rmatvec (process_matrix_R grid sigma) (prior_R grid)) 0.
Proof.
  intros Hs Hne.
  assert (Hn : (0 < length grid)%nat)
    by (destruct grid; [congruence|simpl; lia]).
  assert (Hc : (0 < length (rmatvec (process_matrix_R grid sigma)
                                    (prior_R grid)))%nat)
    by (unfold rmatvec; now rewrite length_map, process_matrix_R_length).
  exists (nth 0 (rmatvec (process_matrix_R grid sigma) (prior_R grid)) 0).
  split; [|split; [|reflexivity]].
  - pose proof (first_prediction_pos grid sigma Hs) as Hpos.
    rewrite Forall_forall in Hpos. apply Hpos. now apply nth_In.
  - rewrite (nth_map2 _ _ _ _ _ 0 0);
      [|now rewrite map2_length, serial_interval_draws_length, Nat.min_id
       |exact Hc].
    f_equal.
    apply (nth_map2 (fun s r => likelihood_R s r a k) _ _ _ _ 0 0);
      [now rewrite serial_interval_draws_length|exact Hn].
Qed.

(** Two runs on the counts [1, 0] whose first samples differ return different
    results, when the first grid point is not [1]. *)
Lemma first_draw_matters {D : Type} (grid : list R) (st1 st2 : RandomState)
  (d0 d1 : D) (sigma : R) :
  0 < sigma -> grid <> [] ->
  Forall (fun s => s <> 0) (serial_interval_draws grid st1) ->
  Forall (fun s => s <> 0) (serial_interval_draws grid st2) ->
  nth 0 grid 0 <> 1 ->
  nth 0 (serial_interval_draws grid st1) 0
  <> nth 0 (serial_interval_draws grid st2) 0 ->
  fst (get_posteriors grid st1 [1; 0]%Z [d0; d1] sigma)
  <> fst (get_posteriors grid st2 [1; 0]%Z [d0; d1] sigma).
Proof.
  intros Hs Hne Hv1 Hv2 Hr Hdiff.
  destruct (positive_counts_run grid st1 1 0 d0 d1 sigma Hs Hne Hv1)
    as (Hpos1 & Hrun1 & _); [lia | lia |].
  destruct (positive_counts_run grid st2 1 0 d0 d1 sigma Hs Hne Hv2)
    as (Hpos2 & Hrun2 & _); [lia | lia |].
  destruct (first_entry_of_numerator grid st1 1 0 sigma Hs Hne)
    as (c1 & Hc1 & Hn1 & Hc1').
  destruct (first_entry_of_numerator grid st2 1 0 sigma Hs Hne)
    as (c2 & Hc2 & Hn2 & Hc2').
  subst c2. rewrite <- Hc1' in Hn2. clear Hc1' Hc2.
  revert Hpos1 Hrun1 Hn1 Hpos2 Hrun2 Hn2.
  generalize (map2 Rmult
                (map2 (fun s r => likelihood_R s r 1 0)
                      (serial_interval_draws grid st1) grid)
                (rmatvec (process_matrix_R grid sigma) (prior_R grid))).
  generalize (map2 Rmult
                (map2 (fun s r => likelihood_R s r 1 0)
                      (serial_interval_draws grid st2) grid)
                (rmatvec (process_matrix_R grid sigma) (prior_R grid))).
  intros nums2 nums1 Hpos1 Hrun1 Hn1 Hpos2 Hrun2 Hn2.
  rewrite Hrun1, Hrun2. intros E. injection E as Ecol Ell.
  assert (Hd : rsum nums1 = rsum nums2).
  { apply ln_inv; [exact Hpos1|exact Hpos2|lra]. }
  assert (Hlen : forall nums, 0 < rsum nums -> (0 < length nums)%nat).
  { intros [|x nums] H; [simpl in H; lra|simpl; lia]. }
  apply (f_equal (fun l => nth 0 l NaN)) in Ecol.
  rewrite !(nth_map_in _ _ _ _ 0) in Ecol by now apply Hlen.
  injection Ecol as Ecol. rewrite Hd, Hn1, Hn2 in Ecol.
  assert (Elik : likelihood_R (nth 0 (serial_interval_draws grid st1) 0)
                              (nth 0 grid 0) 1 0
                 = likelihood_R (nth 0 (serial_interval_draws grid st2) 0)
                                (nth 0 grid 0) 1 0).
  { apply Rmult_eq_reg_r with (r := c1); [|lra].
    apply Rmult_eq_reg_r with (r := / rsum nums2);
      [exact Ecol|apply Rinv_neq_0_compat; lra]. }
  apply poisson_mass_zero_count_inj in Elik.
  apply Rmult_eq_reg_l in Elik; [|lra]. apply exp_inv in Elik.
  apply Rmult_eq_reg_r in Elik; [|lra].
  rewrite Forall_forall in Hv1, Hv2.
  assert (Hn : (0 < length grid)%nat)
    by (destruct grid; [congruence|simpl; lia]).
  assert (H1 : nth 0 (serial_interval_draws grid st1) 0 <> 0)
    by (apply Hv1, nth_In; now rewrite serial_interval_draws_length).
  assert (H2 : nth 0 (serial_interval_draws grid st2) 0 <> 0)
    by (apply Hv2, nth_In; now rewrite serial_interval_draws_length).
  apply Hdiff.
  apply Rmult_eq_reg_l with (r := 1 / nth 0 (serial_interval_draws grid st1) 0).
  - rewrite Elik at 2. now field.
  - intros E0. apply (Rmult_eq_compat_l (nth 0 (serial_interval_draws grid st1) 0)) in E0.
    field_simplify in E0; [lra|exact H1].
Qed.

(** C9, the claim as stated fails: two consecutive runs on the same smoothed
    counts [1, 0], the same dates and the same [sigma] return different
    results, the generator having moved on between them. *)
Lemma consecutive_runs_differ :
  fst (get_posteriors r_t_range_LU switching_stream [1; 0]%Z [0; 1]%nat
                      (15 / 100))
  <> fst (get_posteriors r_t_range_LU
            (snd (get_posteriors r_t_range_LU switching_stream [1; 0]%Z
                                 [0; 1]%nat (15 / 100)))
            [1; 0]%Z [0; 1]%nat (15 / 100)).
Proof.
  rewrite get_posteriors_state. rewrite r_t_range_LU_length.
  apply first_draw_matters.
  - lra.
  - exact r_t_range_LU_nonempty.
  - apply draws_valid. intros i Hi. rewrite r_t_range_LU_length in Hi.
    cbn [switching_stream gauss pos Nat.add].
    destruct (Nat.ltb_spec i 1001); [lra|lia].
  - apply draws_valid. intros i Hi.
    cbn [switching_stream gauss pos].
    destruct (Nat.ltb_spec (0 + 1001 + i) 1001); [lia|lra].
  - rewrite r_t_range_LU_nth by lia. simpl. lra.
  - rewrite !serial_interval_draws_nth by (rewrite r_t_range_LU_length; lia).
    cbn [switching_stream gauss pos].
    destruct (Nat.ltb_spec (0 + 0) 1001); [|lia].
    destruct (Nat.ltb_spec (0 + 1001 + 0) 1001); [lia|]. lra.
Qed.

(** ** Instances on the Grid of the script *)

Lemma likelihood_uses_reciprocal_draw_witness :
  nth 0 (column 0 (likelihood_data r_t_range_LU [1; 0]%Z
                     (fst (draw_gamma r_t_range_LU (constant_stream 0))))) NaN
  = likelihood_reciprocal r_t_range_LU (constant_stream 0) [1; 0]%Z 0 0 /\
  snd (get_posteriors r_t_range_LU (constant_stream 0) [1; 0]%Z [0; 1]%nat
                      (15 / 100))
  = snd (random_normal 4 (2 / 10) (length r_t_range_LU) (constant_stream 0)).
Proof.
  apply (likelihood_uses_reciprocal_draw r_t_range_LU (constant_stream 0)
           [1; 0]%Z [0; 1]%nat (15 / 100) 0 0).
  - rewrite r_t_range_LU_length. lia.
  - simpl. lia.
Defined.

Lemma prior_R_length (grid : list R) : length (prior_R grid) = length grid.
Proof. unfold prior_R. now rewrite length_map. Qed.

Lemma prediction_preserves_mass_witness :
  sum_axis0 (length r_t_range_LU) (process_matrix r_t_range_LU (15 / 100))
  = repeat (Fin 1) (length r_t_range_LU) /\
  F64.sum (matvec (process_matrix r_t_range_LU (15 / 100))
                  (map Fin (prior_R r_t_range_LU)))
  = F64.sum (map Fin (prior_R r_t_range_LU)).
Proof.
  apply (prediction_preserves_mass r_t_range_LU (15 / 100)
           (prior_R r_t_range_LU)).
  - lra.
  - apply prior_R_length.
Defined.

(** * Further properties of the code *)

Local Close Scope R_scope.

(** ** More on [prepare_cases] *)

Lemma diff_length (cases : list Z) : length (diff cases) = length cases.
Proof.
  destruct cases as [|c rest]; [reflexivity|]. simpl. f_equal.
  rewrite length_map, map2_length. simpl. lia.
Qed.

Lemma rolling_mean_length (w : nat) (s : list (option Z)) :
  length (rolling_mean w s) = length s.
Proof. unfold rolling_mean. now rewrite length_map, length_seq. Qed.

(** X1. [prepare_cases] returns two series over the same rows: both have
    the length of the input less the [idx_start = 22] warm-up rows. *)
Theorem prepare_cases_lengths (cases : list Z) (cutoff : Z) :
  exists original smoothed,
    prepare_cases cases cutoff = Ok (original, smoothed) /\
    length original = (length cases - idx_start)%nat /\
    length smoothed = (length cases - idx_start)%nat.
Proof.
  eexists _, _. split; [apply prepare_cases_never_raises|].
  unfold round. rewrite !length_skipn, length_map, rolling_mean_length, diff_length.
  split; reflexivity.
Qed.

(** *** The first differences *)

Lemma diff_nth (cases : list Z) (t : nat) :
  (S t < length cases)%nat ->
  nth (S t) (diff cases) None
  = Some (nth (S t) cases 0 - nth t cases 0)%Z.
Proof.
  intros Ht. destruct cases as [|c rest]; [simpl in Ht; lia|].
  cbn [diff nth]. rewrite (nth_map_in _ _ _ _ 0%Z).
  - f_equal. rewrite (nth_map2 _ _ _ _ _ 0%Z 0%Z) by (simpl in *; lia).
    reflexivity.
  - rewrite map2_length. simpl in *. lia.
Qed.

Lemma diff_cumsum_from (acc : Z) (xs : list Z) :
  map2 Z.sub (Script.cumsum_from acc xs) (acc :: Script.cumsum_from acc xs) = xs.
Proof.
  revert acc. induction xs as [|x xs IH]; intros acc; [reflexivity|].
  cbn [Script.cumsum_from map2]. rewrite IH. f_equal. lia.
Qed.

(** [diff] undoes [cumsum], up to the [NaN] of the first row. *)
Lemma diff_cumsum (xs : list Z) :
  diff (Script.cumsum xs) = match xs with
                            | [] => []
                            | _ :: rest => None :: map Some rest
                            end.
Proof.
  destruct xs as [|x xs]; [reflexivity|]. unfold Script.cumsum.
  cbn [Script.cumsum_from diff]. now rewrite diff_cumsum_from.
Qed.

(** X2. Lines 275-278 accumulate the daily counts and [prepare_cases]
    differences them again: the "original" series it returns is the daily
    counts themselves, from row [idx_start] on. *)
Theorem prepare_daily_returns_counts (new_cases : list Z) :
  exists smoothed,
    Script.prepare_daily new_cases
    = Ok (map Some (skipn idx_start new_cases), smoothed).
Proof.
  exists (skipn idx_start
            (round (rolling_mean 7 (diff (Script.cumsum new_cases))))).
  unfold Script.prepare_daily. rewrite prepare_cases_never_raises.
  f_equal. f_equal.
  rewrite diff_cumsum. destruct new_cases as [|x rest]; [reflexivity|].
  unfold idx_start. rewrite !skipn_cons, skipn_map. reflexivity.
Qed.

(** *** The smoothing keeps the range of the increments *)

Lemma in_dropna (s : list (option Z)) (x : Z) :
  In x (dropna s) <-> In (Some x) s.
Proof.
  unfold dropna. rewrite in_flat_map. split.
  - intros ([y|] & Hin & Hx); simpl in Hx; [|contradiction].
    destruct Hx as [->|[]]. exact Hin.
  - intros Hin. exists (Some x). split; [exact Hin|simpl; auto].
Qed.

Lemma in_skipn_in {A : Type} (n : nat) (l : list A) (x : A) :
  In x (skipn n l) -> In x l.
Proof.
  intros H. rewrite <- (firstn_skipn n l). apply in_or_app. now right.
Qed.

Lemma in_firstn_in {A : Type} (n : nat) (l : list A) (x : A) :
  In x (firstn n l) -> In x l.
Proof.
  intros H. rewrite <- (firstn_skipn n l). apply in_or_app. now left.
Qed.

Lemma in_window {A : Type} (w : nat) (s : list A) (t : nat) (x : A) :
  In x (window w s t) -> In x s.
Proof.
  unfold window. intros H. apply in_skipn_in in H.
  now apply in_firstn_in in H.
Qed.

Lemma window_has_current {A : Type} (w : nat) (s : list A) (t : nat) (d : A) :
  (0 < w)%nat -> (t < length s)%nat -> In (nth t s d) (window w s t).
Proof.
  intros Hw Ht. unfold window.
  assert (Hsplit : firstn (S t) s = firstn t s ++ [nth t s d]).
  { clear Hw. revert t Ht. induction s as [|x s IH]; intros t Ht;
      [simpl in Ht; lia|].
    destruct t as [|t]; [reflexivity|]. simpl in Ht.
    change (firstn (S (S t)) (x :: s)) with (x :: firstn (S t) s).
    rewrite IH by lia. reflexivity. }
  rewrite Hsplit.
  assert (Hlen : length (firstn t s) = t) by (rewrite length_firstn; lia).
  rewrite skipn_app. apply in_or_app. right.
  replace (S t - w - length (firstn t s))%nat with 0%nat by lia.
  simpl. auto.
Qed.

Lemma zsum_bounds (a b : Z) (l : list Z) :
  (forall x, In x l -> (a <= x <= b)%Z) ->
  (Z.of_nat (length l) * a <= zsum l <= Z.of_nat (length l) * b)%Z.
Proof.
  induction l as [|x l IH]; intros H; [simpl; lia|].
  assert (Hx : (a <= x <= b)%Z) by (apply H; simpl; auto).
  assert (Hl : (Z.of_nat (length l) * a <= zsum l <= Z.of_nat (length l) * b)%Z)
    by (apply IH; intros y Hy; apply H; simpl; auto).
  change (zsum (x :: l)) with (x + zsum l)%Z.
  change (length (x :: l)) with (S (length l)). lia.
Qed.

(** A rounded mean of integers in [[a, b]] is in [[a, b]]. *)
Lemma round_half_even_bounds (a b s : Z) (n : positive) :
  (Zpos n * a <= s <= Zpos n * b)%Z ->
  (a <= round_half_even (s # n) <= b)%Z.
Proof.
  intros [Ha Hb]. unfold round_half_even. cbn [Qnum Qden].
  pose proof (Z.div_mod s (Zpos n) ltac:(lia)) as Hdm.
  pose proof (Z.mod_pos_bound s (Zpos n) ltac:(lia)) as Hmod.
  set (f := (s / Zpos n)%Z) in *. set (r := (s mod Zpos n)%Z) in *.
  assert (Hfa : (a <= f)%Z) by nia.
  assert (Hfb : (f <= b)%Z) by nia.
  destruct (Z.eq_dec f b) as [Heq|Hne].
  - assert (Hr : r = 0%Z) by nia.
    rewrite Hr. cbn [Z.mul]. destruct (Z.compare_spec 0 (Zpos n)); lia.
  - destruct (Z.compare_spec (2 * r) (Zpos n));
      [destruct (Z.even f)|..]; lia.
Qed.

Lemma rolling_mean_nth (w : nat) (s : list (option Z)) (t : nat) :
  (t < length s)%nat ->
  nth t (rolling_mean w s) None
  = match dropna (window w s t) with
    | [] => None
    | x :: obs => Some (zsum (x :: obs) # Pos.of_nat (length (x :: obs)))%Q
    end.
Proof.
  intros Ht. unfold rolling_mean.
  rewrite (nth_map_in _ _ _ _ 0%nat) by now rewrite length_seq.
  rewrite seq_nth by exact Ht. cbn [Nat.add].
  now destruct (dropna (window w s t)).
Qed.

(** X3. The smoothed series [prepare_cases] returns has no [NaN], and it
    keeps the range of the increments: when every first difference lies
    between [a] and [b], so does every smoothed value.  In particular
    non-negative increments give non-negative smoothed counts. *)
Theorem smoothed_within_range_of_increments (cases : list Z) (cutoff a b : Z) :
  (forall d, In (Some d) (diff cases) -> (a <= d <= b)%Z) ->
  exists original smoothed,
    prepare_cases cases cutoff = Ok (original, smoothed) /\
    Forall (fun v => exists z, v = Some z /\ (a <= z <= b)%Z) smoothed.
Proof.
  intros Hrange. eexists _, _. split; [apply prepare_cases_never_raises|].
  apply Forall_forall. intros v Hv.
  apply (In_nth _ _ None) in Hv. destruct Hv as (k & Hk & <-).
  rewrite length_skipn in Hk. unfold round in *.
  rewrite length_map, rolling_mean_length, diff_length in Hk.
  rewrite nth_skipn. rewrite (nth_map_in _ _ _ _ None)
    by (rewrite rolling_mean_length, diff_length; lia).
  set (t := (idx_start + k)%nat).
  assert (Ht : (t < length (diff cases))%nat) by (rewrite diff_length; lia).
  rewrite rolling_mean_nth by exact Ht.
  assert (Hcur : In (nth t (diff cases) None) (window 7 (diff cases) t))
    by (apply window_has_current; [lia|exact Ht]).
  assert (Hsome : exists d, nth t (diff cases) None = Some d).
  { unfold t. change idx_start with (S 21). cbn [Nat.add].
    eexists. apply diff_nth. rewrite diff_length in Ht. unfold t in Ht.
    change idx_start with (S 21) in Ht. cbn [Nat.add] in Ht. exact Ht. }
  destruct Hsome as (d & Hd). rewrite Hd in Hcur. apply in_dropna in Hcur.
  destruct (dropna (window 7 (diff cases) t)) as [|x obs] eqn:Hobs;
    [contradiction|].
  cbn [option_map]. eexists. split; [reflexivity|].
  apply round_half_even_bounds.
  assert (Hpos : Zpos (Pos.of_nat (length (x :: obs)))
                 = Z.of_nat (length (x :: obs))).
  { rewrite <- positive_nat_Z, Nat2Pos.id; [reflexivity|discriminate]. }
  rewrite Hpos. apply zsum_bounds. intros y Hy. apply Hrange.
  rewrite <- Hobs in Hy. apply in_dropna in Hy. now apply in_window in Hy.
Qed.

Lemma smoothed_within_range_of_increments_witness :
  exists original smoothed,
    prepare_cases series_with_decrease 25 = Ok (original, smoothed) /\
    Forall (fun v => exists z, v = Some z /\ (-40 <= z <= 60)%Z) smoothed.
Proof.
  apply (smoothed_within_range_of_increments series_with_decrease 25
           (-40) 60).
  intros d Hd. vm_compute in Hd.
  repeat (destruct Hd as [Hd|Hd];
          [first [discriminate | injection Hd as <-; lia]|]).
  contradiction.
Defined.

Local Open Scope R_scope.

(** ** More on [get_posteriors] *)

(** *** When it raises *)


(** *** Shapes *)

Lemma sum_axis0_length (n : nat) (m : list (list float)) :
  Forall (fun row => length row = n) m -> length (sum_axis0 n m) = n.
Proof.
  unfold sum_axis0. induction 1 as [|row m Hrow _ IH]; cbn [fold_right].
  - apply repeat_length.
  - rewrite map2_length, IH, Hrow. apply Nat.min_id.
Qed.

Lemma process_matrix_length (grid : list R) (sigma : R) :
  length (process_matrix grid sigma) = length grid.
Proof. unfold process_matrix. now rewrite !length_map. Qed.

Lemma process_matrix_rows (grid : list R) (sigma : R) :
  Forall (fun row => length row = length grid) (process_matrix grid sigma).
Proof.
  unfold process_matrix. apply Forall_map, Forall_map, Forall_forall.
  intros x _. rewrite map2_length, length_map, sum_axis0_length.
  - apply Nat.min_id.
  - apply Forall_map, Forall_forall. intros y _. now rewrite length_map.
Qed.

Lemma likelihood_column_length (grid : list R) (st : RandomState)
  (sr : list Z) (t : nat) :
  length (column t (likelihood_data grid sr (fst (draw_gamma grid st))))
  = length grid.
Proof.
  unfold column, likelihood_data, lam.
  rewrite !length_map, map2_length, draw_gamma_fst, length_map,
    serial_interval_draws_length.
  apply Nat.min_id.
Qed.

Lemma prior0_length (grid : list R) : length (prior0 grid) = length grid.
Proof. unfold prior0. now rewrite !length_map. Qed.

Lemma bayes_update_length (pm : list (list float)) (prev lik : list float) :
  length (fst (bayes_update pm prev lik))
  = Nat.min (length lik) (length pm).
Proof.
  unfold bayes_update, matvec. cbn [fst].
  now rewrite length_map, map2_length, length_map.
Qed.

Lemma bayes_loop_columns_length (n : nat) (pm : list (list float))
  (liks : list (list float)) (prev : list float) (ll : float) :
  length pm = n -> Forall (fun lik => length lik = n) liks ->
  Forall (fun col => length col = n) (fst (bayes_loop pm prev liks ll)).
Proof.
  intros Hpm Hliks. revert prev ll.
  induction Hliks as [|lik liks Hlik _ IH]; intros prev ll.
  - constructor.
  - rewrite bayes_loop_cons. cbn [fst]. constructor; [|apply IH].
    rewrite bayes_update_length, Hlik, Hpm. apply Nat.min_id.
Qed.

(** The likelihood columns the loop of a call goes through. *)
Lemma run_likelihoods_length {D : Type} (grid : list R) (st : RandomState)
  (sr : list Z) (date : list D) :
  Forall (fun lik => length lik = length grid)
         (map (fun t => column t (likelihood_data grid sr
                                    (fst (draw_gamma grid st))))
              (seq 0 (length (tl date)))).
Proof.
  apply Forall_map, Forall_forall. intros t _.
  apply likelihood_column_length.
Qed.

(** The columns of the table a call returns. *)
Lemma get_posteriors_columns {D : Type} (grid : list R) (st : RandomState)
  (sr : list Z) (date : list D) (sigma : R) (tbl : list (D * list float))
  (ll : float) :
  fst (get_posteriors grid st sr date sigma) = Ok (tbl, ll) ->
  map snd tbl
  = prior0 grid
      :: fst (bayes_loop (process_matrix grid sigma) (prior0 grid)
                (map (fun t => column t (likelihood_data grid sr
                                           (fst (draw_gamma grid st))))
                     (seq 0 (length (tl date))))
                (Fin 0)) /\
  ll = snd (bayes_loop (process_matrix grid sigma) (prior0 grid)
              (map (fun t => column t (likelihood_data grid sr
                                         (fst (draw_gamma grid st))))
                   (seq 0 (length (tl date))))
              (Fin 0)).
Proof.
  rewrite get_posteriors_unfold. cbn [fst].
  destruct (negb _); [discriminate|].
  destruct date as [|d date]; [discriminate|].
  cbv zeta. intros H.
  set (out := bayes_loop _ _ _ _) in *.
  assert (Etbl : tbl = combine (d :: date) (prior0 grid :: fst out))
    by congruence.
  assert (Ell : ll = snd out) by congruence.
  split; [|exact Ell]. rewrite Etbl.
  apply map_snd_combine. unfold out. cbn [length tl].
  now rewrite bayes_loop_length, length_map, length_seq.
Qed.

(** X5. Every column of the table [get_posteriors] returns has one entry
    for each point of the Grid. *)
Theorem posterior_columns_have_grid_length {D : Type} (r_t_range : list R)
  (st : RandomState) (sr : list Z) (date : list D) (sigma : R)
  (posteriors : list (D * list float)) (log_likelihood : float) :
  fst (get_posteriors r_t_range st sr date sigma)
  = Ok (posteriors, log_likelihood) ->
  Forall (fun column => length (snd column) = length r_t_range) posteriors.
Proof.
  intros Hok. apply get_posteriors_columns in Hok. destruct Hok as [Hcols _].
  apply (proj1 (Forall_map snd (fun c => length c = length r_t_range)
                          posteriors)).
  rewrite Hcols. constructor; [apply prior0_length|].
  apply bayes_loop_columns_length;
    [apply process_matrix_length|apply run_likelihoods_length].
Qed.

(** *** The log-likelihood *)

Lemma bayes_loop_log_likelihood (pm : list (list float))
  (liks : list (list float)) (prev : list float) (ll : float) :
  snd (bayes_loop pm prev liks ll)
  = fold_left (fun acc d => add acc (F64.log d)) (denominators pm prev liks) ll.
Proof.
  revert prev ll. induction liks as [|lik liks IH]; intros prev ll;
    [reflexivity|].
  rewrite bayes_loop_cons, denominators_cons. cbn [snd fold_left]. apply IH.
Qed.

(** X6. The log-likelihood [get_posteriors] returns is the running sum,
    from [0.0] and in date order, of the logarithms of the denominators of
    its day pairs. *)
Theorem log_likelihood_sums_log_denominators {D : Type} (r_t_range : list R)
  (st : RandomState) (sr : list Z) (date : list D) (sigma : R)
  (posteriors : list (D * list float)) (log_likelihood : float) :
  fst (get_posteriors r_t_range st sr date sigma)
  = Ok (posteriors, log_likelihood) ->
  log_likelihood
  = fold_left (fun acc d => add acc (F64.log d))
              (day_denominators r_t_range st sr date sigma) (Fin 0).
Proof.
  intros Hok. apply get_posteriors_columns in Hok. destruct Hok as [_ ->].
  apply bayes_loop_log_likelihood.
Qed.

(** *** Consecutive columns *)

(** Column [t + 1] and denominator [t] come from one pass over column [t]. *)
Lemma loop_chain (pm : list (list float)) (liks : list (list float))
  (prev : list float) (ll : float) (t : nat) :
  (t < length liks)%nat ->
  let cols := prev :: fst (bayes_loop pm prev liks ll) in
  nth (S t) cols [] = fst (bayes_update pm (nth t cols []) (nth t liks [])) /\
  nth t (denominators pm prev liks) NaN
  = snd (bayes_update pm (nth t cols []) (nth t liks [])).
Proof.
  revert prev ll t. induction liks as [|lik liks IH]; intros prev ll t Ht;
    [simpl in Ht; lia|].
  cbv zeta. rewrite bayes_loop_cons, denominators_cons. cbn [fst].
  destruct t as [|t]; [split; reflexivity|].
  cbn [nth]. simpl in Ht.
  apply (IH (fst (bayes_update pm prev lik))
            (add ll (F64.log (snd (bayes_update pm prev lik)))) t).
  lia.
Qed.

(** *** Signs *)

Lemma div_weakly_nonneg (x d : float) :
  weakly_nonneg x -> weakly_nonneg d -> weakly_nonneg (div x d).
Proof.
  intros Hx Hd y. destruct x as [a| | |], d as [b| | |]; simpl;
    try discriminate.
  - destruct (Req_dec_T b 0) as [|Hb].
    + intros H. exfalso. revert H. apply by_sign_not_finite; discriminate.
    + intros H. injection H as <-.
      pose proof (Hx a eq_refl). pose proof (Hd b eq_refl).
      apply Rle_mult_inv_pos; lra.
  - intros H. injection H as <-. lra.
  - intros H. injection H as <-. lra.
  - destruct (Rlt_dec b 0); discriminate.
  - destruct (Rlt_dec b 0); discriminate.
Qed.

Lemma numerator_weakly_nonneg (pm : list (list float)) (prev lik : list float) :
  Forall (Forall weakly_nonneg) pm ->
  Forall weakly_nonneg prev ->
  Forall weakly_nonneg lik ->
  Forall weakly_nonneg (map2 mul lik (matvec pm prev)).
Proof.
  intros Hpm Hprev Hlik. apply Forall_forall. intros v Hv x Hx.
  apply in_map2 in Hv. destruct Hv as (l & c & Hl & Hc & ->).
  apply mul_Fin_inv in Hx. destruct Hx as (l' & c' & -> & -> & ->).
  rewrite Forall_forall in Hlik. pose proof (Hlik _ Hl l' eq_refl).
  unfold matvec in Hc. apply in_map_iff in Hc.
  destruct Hc as (row & Hrow & Hin). rewrite Forall_forall in Hpm.
  pose proof (weighted_sum_nonneg row prev c' (Hpm _ Hin) Hprev Hrow). nra.
Qed.

Lemma sum_weakly_nonneg (l : list float) :
  Forall weakly_nonneg l -> weakly_nonneg (F64.sum l).
Proof.
  intros Hl s Hs. apply sum_Fin_inv in Hs. destruct Hs as (xs & -> & <-).
  apply rsum_nonneg_in. intros x Hx. rewrite Forall_forall in Hl.
  apply (Hl (Fin x)); [now apply in_map|reflexivity].
Qed.

Lemma nansum_weakly_nonneg (l : list float) :
  Forall weakly_nonneg l -> weakly_nonneg (nansum l).
Proof.
  intros Hl. apply sum_weakly_nonneg. apply Forall_forall. intros v Hv.
  apply filter_In in Hv. rewrite Forall_forall in Hl. now apply Hl.
Qed.

Lemma bayes_update_weakly_nonneg (pm : list (list float))
  (prev lik : list float) :
  Forall (Forall weakly_nonneg) pm ->
  Forall weakly_nonneg prev ->
  Forall weakly_nonneg lik ->
  Forall weakly_nonneg (fst (bayes_update pm prev lik)).
Proof.
  intros Hpm Hprev Hlik.
  pose proof (numerator_weakly_nonneg pm prev lik Hpm Hprev Hlik) as Hnum.
  unfold bayes_update. cbn [fst]. apply Forall_map.
  eapply Forall_impl; [|exact Hnum].
  intros x Hx. apply div_weakly_nonneg; [exact Hx|].
  now apply nansum_weakly_nonneg.
Qed.

Lemma bayes_loop_weakly_nonneg (pm : list (list float))
  (liks : list (list float)) (prev : list float) (ll : float) :
  Forall (Forall weakly_nonneg) pm ->
  Forall weakly_nonneg prev ->
  Forall (Forall weakly_nonneg) liks ->
  Forall (Forall weakly_nonneg) (prev :: fst (bayes_loop pm prev liks ll)).
Proof.
  intros Hpm. revert prev ll.
  induction liks as [|lik liks IH]; intros prev ll Hprev Hliks.
  - repeat constructor. exact Hprev.
  - rewrite bayes_loop_cons. cbn [fst].
    inversion Hliks as [|? ? Hlik Hliks']; subst.
    constructor; [exact Hprev|]. apply IH; [|exact Hliks'].
    now apply bayes_update_weakly_nonneg.
Qed.

(** *** A zero denominator *)

Lemma rsum_zero_all_zero (xs : list R) :
  (forall x, In x xs -> 0 <= x) -> rsum xs = 0 ->
  forall x, In x xs -> x = 0.
Proof.
  induction xs as [|y xs IH]; intros Hnn Hs x Hx; [contradiction|].
  simpl in Hs.
  assert (Hy : 0 <= y) by (apply Hnn; simpl; auto).
  assert (Hrest : 0 <= rsum xs)
    by (apply rsum_nonneg_in; intros z Hz; apply Hnn; simpl; auto).
  destruct Hx as [<-|Hx]; [lra|].
  apply IH; auto. - intros z Hz. apply Hnn. simpl. auto. - lra.
Qed.

(** A pass whose denominator is zero stores a column of [NaN]: every
    numerator that is not [NaN] is zero. *)
Lemma zero_denominator_update (pm : list (list float)) (prev lik : list float) :
  Forall (Forall weakly_nonneg) pm ->
  Forall weakly_nonneg prev ->
  Forall weakly_nonneg lik ->
  snd (bayes_update pm prev lik) = Fin 0 ->
  fst (bayes_update pm prev lik)
  = repeat NaN (Nat.min (length lik) (length pm)).
Proof.
  intros Hpm Hprev Hlik Hd.
  pose proof (numerator_weakly_nonneg pm prev lik Hpm Hprev Hlik) as Hnum.
  pose proof (bayes_update_length pm prev lik) as Hlen.
  unfold bayes_update in *. cbn [fst snd] in *.
  destruct (nansum_Fin_inv _ _ Hd) as (xs & Hxs & Hsum).
  rewrite Hd in *.
  assert (Hzero : forall x, In x xs -> x = 0).
  { apply rsum_zero_all_zero; [|exact Hsum].
    intros x Hx. rewrite Forall_forall in Hnum.
    apply (Hnum (Fin x)); [|reflexivity].
    apply (in_map Fin) in Hx. rewrite <- Hxs in Hx.
    now apply filter_In in Hx. }
  rewrite (map_ext_in _ (fun _ => NaN)).
  - rewrite map_constant_repeat. f_equal.
    rewrite <- Hlen. now rewrite length_map.
  - intros v Hv. destruct v as [x| | |] eqn:Ev; try reflexivity.
    + assert (Hin : In x xs).
      { apply in_notnan in Hv. rewrite Hxs in Hv.
        apply in_map_iff in Hv. destruct Hv as (y & [= <-] & Hy). exact Hy. }
      rewrite (Hzero x Hin). apply div_zero_by_zero.
    + exfalso. assert (Hin : In PInf (map Fin xs)).
      { rewrite <- Hxs. apply filter_In. now split. }
      apply in_map_iff in Hin. now destruct Hin as (y & [=] & _).
    + exfalso. assert (Hin : In NInf (map Fin xs)).
      { rewrite <- Hxs. apply filter_In. now split. }
      apply in_map_iff in Hin. now destruct Hin as (y & [=] & _).
Qed.

(** *** A column of [NaN] *)

Lemma sum_repeat_NaN (n : nat) : F64.sum (repeat NaN (S n)) = NaN.
Proof. reflexivity. Qed.

Lemma map2_mul_NaN (l : list float) (n : nat) :
  map2 mul l (repeat NaN n) = repeat NaN (Nat.min (length l) n).
Proof.
  revert n. induction l as [|x l IH]; intros [|n]; simpl; auto.
  rewrite IH. f_equal. now destruct x.
Qed.

(** A pass over a column of [NaN] stores a column of [NaN]. *)
Lemma nan_column_update (n : nat) (pm : list (list float)) (lik : list float) :
  length pm = n -> Forall (fun row => length row = n) pm -> length lik = n ->
  fst (bayes_update pm (repeat NaN n) lik) = repeat NaN n.
Proof.
  intros Hpm Hrows Hlik. destruct n as [|n].
  - destruct lik; [reflexivity|discriminate].
  - unfold bayes_update. cbn [fst].
    assert (Hmv : matvec pm (repeat NaN (S n)) = repeat NaN (S n)).
    { unfold matvec.
      rewrite (map_ext_in _ (fun _ => NaN)).
      - now rewrite map_constant_repeat, Hpm.
      - intros row Hrow. rewrite Forall_forall in Hrows.
        now rewrite map2_mul_NaN, (Hrows row Hrow), Nat.min_id. }
    rewrite Hmv, map2_mul_NaN, Hlik, Nat.min_id.
    rewrite (map_ext_in _ (fun _ => NaN)).
    + now rewrite map_constant_repeat, repeat_length.
    + intros x Hx. apply repeat_spec in Hx. now subst x.
Qed.

Lemma denominators_length (pm : list (list float)) (liks : list (list float))
  (prev : list float) :
  length (denominators pm prev liks) = length liks.
Proof.
  revert prev. induction liks as [|lik liks IH]; intros prev; [reflexivity|].
  rewrite denominators_cons. cbn [length]. now rewrite IH.
Qed.

Lemma nth_Forall {A : Type} (P : A -> Prop) (l : list A) (t : nat) (d : A) :
  Forall P l -> (t < length l)%nat -> P (nth t l d).
Proof.
  intros H Ht. rewrite Forall_forall in H. apply H. now apply nth_In.
Qed.

Lemma zero_denominator_column {D : Type} (r_t_range : list R)
  (st : RandomState) (sr : list Z) (date : list D) (sigma : R)
  (posteriors : list (D * list float)) (log_likelihood : float) (t : nat) :
  fst (get_posteriors r_t_range st sr date sigma)
  = Ok (posteriors, log_likelihood) ->
  nth t (day_denominators r_t_range st sr date sigma) NaN = Fin 0 ->
  nth (S t) (map snd posteriors) [] = repeat NaN (length r_t_range).
Proof.
  intros Hok Hden. apply get_posteriors_columns in Hok.
  destruct Hok as [Hcols _]. rewrite Hcols. unfold day_denominators in Hden.
  set (liks := map _ (seq 0 (length (tl date)))) in *.
  set (pm := process_matrix r_t_range sigma) in *.
  assert (Ht : (t < length liks)%nat).
  { rewrite <- (denominators_length pm liks (prior0 r_t_range)).
    destruct (Nat.lt_ge_cases t (length (denominators pm (prior0 r_t_range) liks)))
      as [H|H]; [exact H|].
    rewrite nth_overflow in Hden by exact H. discriminate. }
  destruct (loop_chain pm liks (prior0 r_t_range) (Fin 0) t Ht) as [Hnext Hd].
  rewrite Hnext. rewrite Hd in Hden.
  assert (Hnn : Forall (Forall weakly_nonneg)
                       (prior0 r_t_range
                          :: fst (bayes_loop pm (prior0 r_t_range) liks (Fin 0)))).
  { apply bayes_loop_weakly_nonneg.
    - apply process_matrix_weakly_nonneg.
    - destruct (list_eq_dec Req_dec_T r_t_range []) as [->|Hne];
        [constructor|].
      apply pmf_weakly_nonneg. now apply prior0_pmf.
    - apply likelihood_columns_weakly_nonneg. }
  rewrite zero_denominator_update; auto.
  - unfold pm. rewrite process_matrix_length.
    rewrite (nth_Forall (fun lik => length lik = length r_t_range) liks t []
               (run_likelihoods_length r_t_range st sr date) Ht).
    now rewrite Nat.min_id.
  - apply process_matrix_weakly_nonneg.
  - apply nth_Forall; [exact Hnn|].
    cbn [length]. rewrite bayes_loop_length. lia.
  - apply nth_Forall; [apply likelihood_columns_weakly_nonneg|exact Ht].
Qed.

(** X7. When the denominator of a day pair is zero, the division is carried
    out and the column stored for that day consists of [NaN]. *)
Theorem zero_denominator_gives_nan_column {D : Type} (r_t_range : list R)
  (st : RandomState) (sr : list Z) (date : list D) (sigma : R)
  (posteriors : list (D * list float)) (log_likelihood : float) (t : nat) :
  fst (get_posteriors r_t_range st sr date sigma)
  = Ok (posteriors, log_likelihood) ->
  nth t (day_denominators r_t_range st sr date sigma) NaN = Fin 0 ->
  nth (S t) (map snd posteriors) [] = repeat NaN (length r_t_range).
Proof. apply zero_denominator_column. Qed.

(** X8. A column of [NaN] is never recovered from: every later column of
    the table consists of [NaN] as well. *)
Theorem nan_column_persists {D : Type} (r_t_range : list R)
  (st : RandomState) (sr : list Z) (date : list D) (sigma : R)
  (posteriors : list (D * list float)) (log_likelihood : float) (t u : nat) :
  fst (get_posteriors r_t_range st sr date sigma)
  = Ok (posteriors, log_likelihood) ->
  nth t (map snd posteriors) [] = repeat NaN (length r_t_range) ->
  (t <= u)%nat -> (u < length posteriors)%nat ->
  nth u (map snd posteriors) [] = repeat NaN (length r_t_range).
Proof.
  intros Hok Hnan Htu Hu. apply get_posteriors_columns in Hok.
  destruct Hok as [Hcols _].
  assert (Hlen : length posteriors = length (map snd posteriors))
    by now rewrite length_map.
  rewrite Hlen in Hu. clear Hlen. rewrite Hcols in *.
  set (liks := map _ (seq 0 (length (tl date)))) in *.
  set (pm := process_matrix r_t_range sigma) in *.
  cbn [length] in Hu. rewrite bayes_loop_length in Hu.
  induction Htu as [|u Htu IH]; [exact Hnan|].
  assert (Hu' : (u < length liks)%nat) by lia.
  destruct (loop_chain pm liks (prior0 r_t_range) (Fin 0) u Hu') as [Hnext _].
  rewrite Hnext, IH by lia.
  apply nan_column_update.
  - apply process_matrix_length.
  - apply process_matrix_rows.
  - apply (nth_Forall (fun lik => length lik = length r_t_range) liks u []
             (run_likelihoods_length r_t_range st sr date) Hu').
Qed.

(** ** More on [highest_density_interval] *)

Lemma cumsum_from_NaN (l : list float) :
  cumsum_from NaN l = repeat NaN (length l).
Proof.
  induction l as [|x l IH]; [reflexivity|].
  rewrite cumsum_from_cons. cbn [add length repeat]. now rewrite IH.
Qed.

Lemma hdi_leading_nan (pmf : series) (p : R) (rest : list float) :
  map snd pmf = NaN :: rest ->
  highest_density_interval pmf p = Raise argmin_error.
Proof.
  intros Hv. apply hdi_raises_iff. split; [reflexivity|].
  intros i j (Hi & Hj & Hg). unfold span_mass, F64.cumsum in Hg.
  rewrite Hv, cumsum_from_cons in Hg. cbn [add] in Hg.
  rewrite cumsum_from_NaN in Hg.
  change (NaN :: repeat NaN (length rest)) with (repeat NaN (S (length rest)))
    in Hg.
  assert (Hn : forall k, nth k (repeat NaN (S (length rest))) NaN = NaN).
  { intros k. destruct (nth_in_or_default k (repeat NaN (S (length rest))) NaN)
      as [H|H]; [now apply repeat_spec in H|exact H]. }
  rewrite !Hn in Hg. discriminate.
Qed.

(** X9. A Series whose first value is [NaN] makes
    [highest_density_interval] raise, whatever [p] is: the running sums are
    all [NaN], no comparison with [p] holds, and [argmin] receives an empty
    array. *)
Theorem hdi_raises_on_leading_nan (pmf : series) (p : R) (rest : list float) :
  map snd pmf = NaN :: rest ->
  highest_density_interval pmf p = Raise argmin_error.
Proof. apply hdi_leading_nan. Qed.

Lemma hdi_raises_on_leading_nan_witness :
  highest_density_interval [(0, NaN); (1 / 100, Fin 1)]%R (1 / 2)
  = Raise argmin_error.
Proof.
  apply (hdi_raises_on_leading_nan [(0, NaN); (1 / 100, Fin 1)]%R (1 / 2)
           [Fin 1]).
  reflexivity.
Defined.

Lemma hdi_only_error (pmf : series) (p : R) (e : exn) :
  highest_density_interval pmf p = Raise e -> e = argmin_error.
Proof. intros H. now apply hdi_raises_iff in H. Qed.

Lemma highest_density_interval_df_error_is_argmin {D : Type} (index : list R)
  (columns : list (D * list float)) (p : R) (e : exn) :
  highest_density_interval_df index columns p = Raise e -> e = argmin_error.
Proof.
  induction columns as [|[d col] columns IH]; [discriminate|].
  cbn [highest_density_interval_df].
  destruct (highest_density_interval (combine index col) p) as [lh|e1] eqn:E.
  - destruct (highest_density_interval_df index columns p) as [rest|e2];
      [discriminate|].
    intros H. injection H as <-. now apply IH.
  - intros H. injection H as <-. now apply hdi_only_error in E.
Qed.

(** X10. Over a DataFrame, [highest_density_interval] returns one interval
    for each column, under the column's label and equal to the interval of
    that column alone; it raises exactly when some column alone does. *)
Theorem hdi_df_columnwise {D : Type} (index : list R)
  (columns : list (D * list float)) (p : R) :
  (forall out, highest_density_interval_df index columns p = Ok out <->
     Forall2 (fun column interval =>
                fst interval = fst column /\
                highest_density_interval (combine index (snd column)) p
                = Ok (snd interval))
             columns out) /\
  (highest_density_interval_df index columns p = Raise argmin_error <->
   Exists (fun column =>
             highest_density_interval (combine index (snd column)) p
             = Raise argmin_error)
          columns).
Proof.
  induction columns as [|[d col] columns [IHok IHerr]].
  - split.
    + intros out. simpl. split.
      * intros H. injection H as <-. constructor.
      * intros H. inversion H. reflexivity.
    + simpl. split; [discriminate|]. intros H. inversion H.
  - cbn [highest_density_interval_df].
    destruct (highest_density_interval (combine index col) p) as [lh|e] eqn:E.
    + destruct (highest_density_interval_df index columns p) as [rest|e'] eqn:E'.
      * split.
        -- intros out. split.
           ++ intros H. injection H as <-. constructor; [now split|].
              now apply IHok.
           ++ intros H. inversion H as [|? [d' lh'] ? ? [Hd Hlh] Hrest]; subst.
              cbn [fst snd] in *. subst d'. rewrite E in Hlh.
              injection Hlh as <-. apply IHok in Hrest. now injection Hrest as <-.
        -- split; [discriminate|]. intros H.
           inversion H as [? ? Hhd|? ? Htl]; subst; cbn [snd] in *.
           ++ rewrite E in Hhd. discriminate.
           ++ apply IHerr in Htl. discriminate.
      * split.
        -- intros out. split; [discriminate|].
           intros H. inversion H as [|? ? ? ? _ Hrest]; subst.
           apply IHok in Hrest. discriminate.
        -- split.
           ++ intros H. injection H as ->. apply Exists_cons_tl.
              now apply IHerr.
           ++ intros _. f_equal.
              exact (highest_density_interval_df_error_is_argmin
                       index columns p e' E').
    + pose proof (hdi_only_error _ _ _ E) as ->. split.
      * intros out. split; [discriminate|].
        intros H. inversion H as [|? ? ? ? [_ Hlh] _]; subst.
        cbn [snd] in Hlh. rewrite E in Hlh. discriminate.
      * split; [|reflexivity]. intros _. apply Exists_cons_hd. exact E.
Qed.

Lemma hdi_df_raises_when_column_raises {D : Type} (index : list R)
  (columns : list (D * list float)) (p : R) (column : D * list float) :
  In column columns ->
  highest_density_interval (combine index (snd column)) p = Raise argmin_error ->
  highest_density_interval_df index columns p = Raise argmin_error.
Proof.
  intros Hin Hraise. induction columns as [|[d col] columns IH];
    [contradiction|].
  cbn [highest_density_interval_df].
  destruct (highest_density_interval (combine index col) p) as [lh|e] eqn:E.
  - destruct Hin as [<-|Hin]; [cbn [snd] in Hraise; congruence|].
    now rewrite (IH Hin).
  - now rewrite (hdi_only_error _ _ _ E).
Qed.

Lemma hdi_nan_column (index : list R) (p : R) :
  highest_density_interval (combine index (repeat NaN (length index))) p
  = Raise argmin_error.
Proof.
  destruct index as [|r index].
  - apply hdi_raises_iff. split; [reflexivity|].
    intros i j (Hi & _). simpl in Hi. lia.
  - apply (hdi_leading_nan _ p (repeat NaN (length index))).
    rewrite map_snd_combine by now rewrite repeat_length.
    reflexivity.
Qed.

(** X11. A day whose denominator is zero does stop the analysis, but later
    and elsewhere: the table [get_posteriors] returns then makes
    [highest_density_interval], applied to it as line 292 does, raise the
    ValueError of [argmin], for every [p]. *)
Theorem zero_denominator_fails_at_hdi {D : Type} (r_t_range : list R)
  (st : RandomState) (sr : list Z) (date : list D) (sigma p : R)
  (posteriors : list (D * list float)) (log_likelihood : float) :
  fst (get_posteriors r_t_range st sr date sigma)
  = Ok (posteriors, log_likelihood) ->
  In (Fin 0) (day_denominators r_t_range st sr date sigma) ->
  highest_density_interval_df r_t_range posteriors p = Raise argmin_error.
Proof.
  intros Hok Hin. apply (In_nth _ _ NaN) in Hin.
  destruct Hin as (t & Ht & Hnth).
  pose proof (zero_denominator_column _ _ _ _ _ _ _ _ Hok Hnth) as Hcol.
  pose proof (get_posteriors_columns _ _ _ _ _ _ _ Hok) as [Hcols _].
  assert (Hlen : (S t < length posteriors)%nat).
  { rewrite <- (length_map snd), Hcols. cbn [length].
    rewrite bayes_loop_length. unfold day_denominators in Ht.
    rewrite denominators_length in Ht. lia. }
  assert (Hmem : In (repeat NaN (length r_t_range)) (map snd posteriors)).
  { rewrite <- Hcol. apply nth_In. now rewrite length_map. }
  apply in_map_iff in Hmem. destruct Hmem as (column & Hsnd & Hmem).
  apply (hdi_df_raises_when_column_raises _ _ _ column Hmem).
  rewrite Hsnd. apply hdi_nan_column.
Qed.

(** X12. For a PMF over a strictly increasing index and [p >= 0], an
    interval [highest_density_interval] returns is never degenerate:
    [low < high]. *)
Theorem hdi_interval_is_proper (pmf : series) (p low high : R) :
  is_pmf (map snd pmf) ->
  0 <= p ->
  StronglySorted Rlt (map fst pmf) ->
  highest_density_interval pmf p = Ok (low, high) ->
  low < high.
Proof.
  intros [Hv _] Hp Hsorted Hok.
  destruct (hdi_returns _ _ _ _ Hok) as (lo & hi & Hq & -> & -> & _).
  pose proof (qualifies_ordered _ _ _ _ Hv Hp Hq) as Hlt.
  destruct Hq as (_ & Hhi & _).
  apply StronglySorted_nth; [exact Hsorted|exact Hlt|now rewrite length_map].
Qed.

Lemma two_point_hdi_quarter :
  highest_density_interval two_point_pmf (1 / 4) = Ok (0, 1 / 100).
Proof.
  unfold highest_density_interval, two_point_pmf, F64.cumsum, total_p, nonzero,
    enumerate.
  simpl. decide_Rlt. reflexivity.
Qed.

Lemma hdi_interval_is_proper_witness : 0 < 1 / 100.
Proof.
  apply (hdi_interval_is_proper two_point_pmf (1 / 4) 0 (1 / 100)
           two_point_is_pmf).
  - lra.
  - simpl. repeat constructor. lra.
  - exact two_point_hdi_quarter.
Defined.

(** *** Runs that stay finite *)

Lemma rmatvec_pos (n : nat) (pm : list (list R)) (v : list R) :
  (0 < n)%nat ->
  Forall (Forall (fun x => 0 < x)) pm ->
  Forall (fun row => length row = n) pm ->
  length v = n -> Forall (fun x => 0 < x) v ->
  Forall (fun x => 0 < x) (rmatvec pm v).
Proof.
  intros Hn Hpos Hrows Hlen Hv. unfold rmatvec. apply Forall_map.
  rewrite Forall_forall in Hpos, Hrows. apply Forall_forall.
  intros row Hrow. apply rsum_pos.
  - intros E. pose proof (f_equal (@length R) E) as Hl.
    rewrite map2_length, (Hrows row Hrow), Hlen, Nat.min_id in Hl.
    simpl in Hl. lia.
  - apply map2_mult_pos; [now apply Hpos|exact Hv].
Qed.

Lemma healthy_loop (n : nat) (pm : list (list R)) (liks : list (list R))
  (v : list R) (ll : R) :
  (0 < n)%nat ->
  Forall (Forall (fun x => 0 < x)) pm ->
  Forall (fun row => length row = n) pm -> length pm = n ->
  Forall (fun l => length l = n /\ Forall (fun x => 0 < x) l) liks ->
  length v = n -> Forall (fun x => 0 < x) v ->
  Forall positive_finite
         (denominators (map (map Fin) pm) (map Fin v) (map (map Fin) liks)) /\
  exists x, snd (bayes_loop (map (map Fin) pm) (map Fin v)
                            (map (map Fin) liks) (Fin ll)) = Fin x.
Proof.
  intros Hn Hpos Hrows Hpm Hliks. revert v ll.
  induction Hliks as [|l liks [Hl Hlpos] _ IH]; intros v ll Hlen Hv.
  - split; [constructor|]. now exists ll.
  - cbn [map]. rewrite denominators_cons, bayes_loop_cons, bayes_update_Fin.
    cbn [fst snd].
    set (nums := map2 Rmult l (rmatvec pm v)).
    assert (Hnums : Forall (fun x => 0 < x) nums).
    { apply map2_mult_pos; [exact Hlpos|]. now apply (rmatvec_pos n). }
    assert (Hnlen : length nums = n).
    { unfold nums, rmatvec. rewrite map2_length, length_map, Hl, Hpm.
      apply Nat.min_id. }
    assert (Hd : 0 < rsum nums).
    { apply rsum_pos; [|exact Hnums]. intros E. rewrite E in Hnlen.
      simpl in Hnlen. lia. }
    rewrite (map_ext _ (fun x => Fin (x / rsum nums)))
      by (intros x; apply div_Fin_nonzero; lra).
    rewrite <- (map_map (fun x => x / rsum nums) Fin).
    assert (Hlog : add (Fin ll) (F64.log (Fin (rsum nums)))
                   = Fin (ll + ln (rsum nums))).
    { simpl. now destruct (Rlt_dec 0 (rsum nums)). }
    rewrite Hlog.
    destruct (IH (map (fun x => x / rsum nums) nums) (ll + ln (rsum nums)))
      as [Hdens Hll].
    + now rewrite length_map.
    + apply Forall_map. eapply Forall_impl; [|exact Hnums].
      intros x Hx. simpl in *. now apply Rdiv_lt_0_compat.
    + split; [|exact Hll]. constructor; [|exact Hdens].
      exists (rsum nums). now split.
Qed.

Lemma poisson_mass_zero_count_pos (m : R) : 0 < poisson_mass 0 m.
Proof.
  unfold poisson_mass. simpl.
  apply Rdiv_lt_0_compat; [|lra].
  apply Rmult_lt_0_compat; [apply exp_pos|lra].
Qed.

Lemma likelihood_R_pos_general (s r : R) (a k : Z) :
  (0 <= a)%Z -> (a = 0%Z -> k = 0%Z) -> 0 < likelihood_R s r a k.
Proof.
  intros Ha Hk. destruct (Z.eq_dec a 0) as [E|E].
  - rewrite (Hk E). apply poisson_mass_zero_count_pos.
  - apply likelihood_R_pos. lia.
Qed.

Lemma positive_finite_nonzero (v : float) : positive_finite v -> finite_nonzero v.
Proof. intros (x & -> & Hx). exists x. split; [reflexivity|lra]. Qed.

Lemma get_posteriors_never_fails {D : Type} (grid : list R)
  (st : RandomState) (sr : list Z) (date : list D) (sigma : R) :
  date <> [] ->
  length (removelast sr) = length (tl date) ->
  exists tbl ll, fst (get_posteriors grid st sr date sigma) = Ok (tbl, ll).
Proof.
  intros Hne Hshape. rewrite get_posteriors_unfold. cbn [fst].
  rewrite Hshape, Nat.eqb_refl. cbn [negb].
  destruct date as [|d date]; [congruence|].
  eexists _, _. reflexivity.
Qed.

Lemma Forall_pos_nonneg (l : list R) :
  Forall (fun x => 0 < x) l -> Forall (fun x => 0 <= x) l.
Proof. apply Forall_impl. intros x Hx. lra. Qed.

(** The exact arithmetic of the model rounds no Poisson mass to zero: with
    samples other than zero and counts that are non-negative and never rise
    from zero, every denominator of the model is positive.  In [float64] a
    large rate makes the mass underflow; the lemma serves the instances
    below, whose rates are small. *)
Lemma healthy_run {D : Type} (r_t_range : list R)
  (st : RandomState) (sr : list Z) (date : list D) (sigma : R) :
  0 < sigma ->
  r_t_range <> [] ->
  Forall (fun s => s <> 0) (serial_interval_draws r_t_range st) ->
  date <> [] ->
  length (removelast sr) = length (tl date) ->
  never_rises_from_zero sr ->
  exists posteriors x,
    fst (get_posteriors r_t_range st sr date sigma) = Ok (posteriors, Fin x) /\
    Forall positive_finite (day_denominators r_t_range st sr date sigma) /\
    Forall (fun column => is_pmf (snd column)) posteriors.
Proof.
  intros Hs Hne Hdraws Hdate Hshape Hsr.
  assert (Hn : (0 < length r_t_range)%nat)
    by (destruct r_t_range; [congruence|simpl; lia]).
  set (liksR := map (fun t => map2 (fun s r =>
                         likelihood_R s r (nth t sr 0%Z) (nth (S t) sr 0%Z))
                       (serial_interval_draws r_t_range st) r_t_range)
                    (seq 0 (length (tl date)))).
  assert (Hliks : map (fun t => column t (likelihood_data r_t_range sr
                                           (fst (draw_gamma r_t_range st))))
                      (seq 0 (length (tl date)))
                  = map (map Fin) liksR).
  { unfold liksR. rewrite map_map. apply map_ext_in. intros t Ht.
    apply in_seq in Ht. rewrite <- Hshape, removelast_length in Ht.
    destruct (Hsr t) as (Ha & Hk & _); [lia|].
    apply likelihood_column_Fin; auto. lia. }
  assert (HliksR : Forall (fun l => length l = length r_t_range /\
                                    Forall (fun x => 0 < x) l) liksR).
  { unfold liksR. apply Forall_map, Forall_forall. intros t Ht.
    apply in_seq in Ht. rewrite <- Hshape, removelast_length in Ht.
    destruct (Hsr t) as (Ha & Hk & Hz); [lia|]. split.
    - rewrite map2_length, serial_interval_draws_length. apply Nat.min_id.
    - apply Forall_forall. intros z Hz'. apply in_map2 in Hz'.
      destruct Hz' as (s & r & _ & _ & ->).
      now apply likelihood_R_pos_general. }
  destruct (healthy_loop (length r_t_range) (process_matrix_R r_t_range sigma)
              liksR (prior_R r_t_range) 0 Hn) as [Hdens (x & Hll)].
  - now apply process_matrix_R_pos.
  - apply process_matrix_R_rows.
  - apply process_matrix_R_length.
  - exact HliksR.
  - unfold prior_R. now rewrite length_map.
  - apply prior_R_pos.
  - assert (Hpmf : Forall is_pmf
              (fst (bayes_loop (map (map Fin) (process_matrix_R r_t_range sigma))
                      (map Fin (prior_R r_t_range)) (map (map Fin) liksR)
                      (Fin 0)))).
    { apply bayes_loop_pmf.
      + eapply Forall_impl; [|apply (process_matrix_R_pos r_t_range sigma Hs)].
        intros row. apply Forall_pos_nonneg.
      + apply Forall_pos_nonneg, prior_R_pos.
      + eapply Forall_impl; [|exact HliksR].
        intros l [_ Hl]. now apply Forall_pos_nonneg.
      + eapply Forall_impl; [|exact Hdens]. apply positive_finite_nonzero. }
    rewrite <- process_matrix_finite, <- prior0_finite, <- Hliks
      in Hdens, Hll, Hpmf by assumption.
    destruct (get_posteriors_never_fails r_t_range st sr date sigma Hdate Hshape)
      as (tbl & ll & Hok).
    pose proof (get_posteriors_columns _ _ _ _ _ _ _ Hok) as [Hcols Hll'].
    rewrite Hll in Hll'. subst ll.
    exists tbl, x. split; [exact Hok|]. split; [exact Hdens|].
    apply (proj1 (Forall_map snd is_pmf tbl)). rewrite Hcols.
    constructor; [now apply prior0_pmf|exact Hpmf].
Qed.

(** *** The day a count rises from zero *)

Lemma likelihood_R_zero_previous (s r : R) (k : Z) :
  (0 < k)%Z -> likelihood_R s r 0 k = 0.
Proof.
  intros Hk. unfold likelihood_R, poisson_mass. rewrite Rmult_0_l.
  rewrite pow_i by lia. unfold Rdiv. ring.
Qed.

Lemma nansum_zero_or_nan (l : list float) :
  Forall (fun v => v = NaN \/ v = Fin 0) l -> nansum l = Fin 0.
Proof.
  induction 1 as [|v l [->| ->] _ IH]; [reflexivity|exact IH|].
  rewrite nansum_cons by discriminate. rewrite IH. simpl. f_equal. lra.
Qed.

Lemma mul_zero_values (c : float) :
  mul (Fin 0) c = NaN \/ mul (Fin 0) c = Fin 0.
Proof.
  destruct c as [y| | |]; simpl; auto.
  - right. f_equal. ring.
  - left. unfold by_sign. destruct (Rlt_dec 0 0); [lra|reflexivity].
  - left. unfold by_sign. destruct (Rlt_dec 0 0); [lra|reflexivity].
Qed.

Lemma rise_from_zero_denominator {D : Type} (grid : list R)
  (st : RandomState) (sr : list Z) (date : list D) (sigma : R) (t : nat) :
  0 < sigma ->
  grid <> [] ->
  Forall (fun s => s <> 0) (serial_interval_draws grid st) ->
  (S t < length sr)%nat ->
  (t < length (tl date))%nat ->
  (forall u, (u < t)%nat ->
     finite_nonzero (nth u (day_denominators grid st sr date sigma) NaN)) ->
  nth t sr 0%Z = 0%Z ->
  (0 < nth (S t) sr 0)%Z ->
  nth t (day_denominators grid st sr date sigma) NaN = Fin 0.
Proof.
  intros Hs Hne Hdraws Hsr Ht Hearlier Hzero Hpos.
  unfold day_denominators in *.
  set (liks := map _ (seq 0 (length (tl date)))) in *.
  assert (Hlen : length liks = length (tl date))
    by (unfold liks; now rewrite length_map, length_seq).
  destruct (loop_chain (process_matrix grid sigma) liks (prior0 grid) (Fin 0) t
              ltac:(lia)) as [_ Hd].
  rewrite Hd.
  assert (Hlik : nth t liks []
                 = map Fin (map2 (fun s r => likelihood_R s r 0 (nth (S t) sr 0%Z))
                                 (serial_interval_draws grid st) grid)).
  { unfold liks. rewrite (nth_map_in _ _ _ _ 0%nat) by now rewrite length_seq.
    rewrite seq_nth by exact Ht. cbn [Nat.add].
    rewrite likelihood_column_Fin; auto; try lia. now rewrite Hzero. }
  rewrite Hlik. unfold bayes_update. cbn [snd].
  apply nansum_zero_or_nan, Forall_forall. intros v Hv.
  apply in_map2 in Hv. destruct Hv as (l & c & Hl & _ & ->).
  apply in_map_iff in Hl. destruct Hl as (x & <- & Hx).
  apply in_map2 in Hx. destruct Hx as (s & r & _ & _ & ->).
  rewrite likelihood_R_zero_previous by exact Hpos. apply mul_zero_values.
Qed.

(** X14. With [sigma > 0], a non-empty Grid and non-zero serial-interval
    samples, the first day pair on which the smoothed count rises from zero
    (all earlier denominators being finite and not zero) has the denominator
    zero: every grid point gives the new count the likelihood zero. *)
Theorem rise_from_zero_gives_zero_denominator {D : Type} (r_t_range : list R)
  (st : RandomState) (sr : list Z) (date : list D) (sigma : R) (t : nat) :
  0 < sigma ->
  r_t_range <> [] ->
  Forall (fun s => s <> 0) (serial_interval_draws r_t_range st) ->
  (S t < length sr)%nat ->
  (t < length (tl date))%nat ->
  (forall u, (u < t)%nat ->
     finite_nonzero (nth u (day_denominators r_t_range st sr date sigma) NaN)) ->
  nth t sr 0%Z = 0%Z ->
  (0 < nth (S t) sr 0)%Z ->
  nth t (day_denominators r_t_range st sr date sigma) NaN = Fin 0.
Proof. apply rise_from_zero_denominator. Qed.

(** ** Instances *)

(** Three days of counts [0, 1, 1] on the Grid of the script. *)
Lemma three_day_run :
  exists posteriors log_likelihood,
    fst (get_posteriors r_t_range_LU (constant_stream 0) [0; 1; 1]%Z
                        [0; 1; 2]%nat (15 / 100))
    = Ok (posteriors, log_likelihood) /\
    length posteriors = 3%nat /\
    nth 0 (day_denominators r_t_range_LU (constant_stream 0) [0; 1; 1]%Z
                            [0; 1; 2]%nat (15 / 100)) NaN = Fin 0.
Proof.
  destruct (get_posteriors_never_fails r_t_range_LU (constant_stream 0)
              [0; 1; 1]%Z [0; 1; 2]%nat (15 / 100))
    as (tbl & ll & Hok); [discriminate|reflexivity|].
  exists tbl, ll. split; [exact Hok|]. split.
  - pose proof (get_posteriors_columns _ _ _ _ _ _ _ Hok) as [Hcols _].
    rewrite <- (length_map snd), Hcols. cbn [length].
    now rewrite bayes_loop_length, length_map, length_seq.
  - apply rise_from_zero_denominator.
    + lra.
    + exact r_t_range_LU_nonempty.
    + apply constant_stream_zero_valid.
    + simpl. lia.
    + simpl. lia.
    + intros u Hu. lia.
    + reflexivity.
    + simpl. lia.
Qed.

Lemma rise_from_zero_gives_zero_denominator_witness :
  nth 0 (day_denominators r_t_range_LU (constant_stream 0) [0; 1; 1]%Z
                          [0; 1; 2]%nat (15 / 100)) NaN = Fin 0.
Proof.
  apply (rise_from_zero_gives_zero_denominator r_t_range_LU (constant_stream 0)
           [0; 1; 1]%Z [0; 1; 2]%nat (15 / 100) 0).
  - lra.
  - exact r_t_range_LU_nonempty.
  - apply constant_stream_zero_valid.
  - simpl. lia.
  - simpl. lia.
  - intros u Hu. lia.
  - reflexivity.
  - simpl. lia.
Defined.

Lemma posterior_columns_have_grid_length_witness :
  exists posteriors log_likelihood,
    fst (get_posteriors r_t_range_LU (constant_stream 0) [0; 1; 1]%Z
                        [0; 1; 2]%nat (15 / 100))
    = Ok (posteriors, log_likelihood) /\
    Forall (fun column => length (snd column) = length r_t_range_LU)
           posteriors.
Proof.
  destruct three_day_run as (tbl & ll & Hok & _).
  exists tbl, ll. split; [exact Hok|].
  exact (posterior_columns_have_grid_length _ _ _ _ _ _ _ Hok).
Defined.

Lemma log_likelihood_sums_log_denominators_witness :
  exists posteriors log_likelihood,
    fst (get_posteriors r_t_range_LU (constant_stream 0) [0; 1; 1]%Z
                        [0; 1; 2]%nat (15 / 100))
    = Ok (posteriors, log_likelihood) /\
    log_likelihood
    = fold_left (fun acc d => add acc (F64.log d))
        (day_denominators r_t_range_LU (constant_stream 0) [0; 1; 1]%Z
                          [0; 1; 2]%nat (15 / 100)) (Fin 0).
Proof.
  destruct three_day_run as (tbl & ll & Hok & _).
  exists tbl, ll. split; [exact Hok|].
  exact (log_likelihood_sums_log_denominators _ _ _ _ _ _ _ Hok).
Defined.

Lemma zero_denominator_gives_nan_column_witness :
  exists posteriors log_likelihood,
    fst (get_posteriors r_t_range_LU (constant_stream 0) [0; 1; 1]%Z
                        [0; 1; 2]%nat (15 / 100))
    = Ok (posteriors, log_likelihood) /\
    nth 1 (map snd posteriors) [] = repeat NaN (length r_t_range_LU).
Proof.
  destruct three_day_run as (tbl & ll & Hok & _ & Hden).
  exists tbl, ll. split; [exact Hok|].
  exact (zero_denominator_gives_nan_column _ _ _ _ _ _ _ 0 Hok Hden).
Defined.

Lemma nan_column_persists_witness :
  exists posteriors log_likelihood,
    fst (get_posteriors r_t_range_LU (constant_stream 0) [0; 1; 1]%Z
                        [0; 1; 2]%nat (15 / 100))
    = Ok (posteriors, log_likelihood) /\
    nth 2 (map snd posteriors) [] = repeat NaN (length r_t_range_LU).
Proof.
  destruct three_day_run as (tbl & ll & Hok & Hlen & Hden).
  exists tbl, ll. split; [exact Hok|].
  apply (nan_column_persists _ _ _ _ _ _ _ 1 2 Hok).
  - exact (zero_denominator_column _ _ _ _ _ _ _ 0 Hok Hden).
  - lia.
  - lia.
Defined.

Lemma zero_denominator_fails_at_hdi_witness :
  exists posteriors log_likelihood,
    fst (get_posteriors r_t_range_LU (constant_stream 0) [0; 1; 1]%Z
                        [0; 1; 2]%nat (15 / 100))
    = Ok (posteriors, log_likelihood) /\
    highest_density_interval_df r_t_range_LU posteriors (1 / 2)
    = Raise argmin_error.
Proof.
  destruct three_day_run as (tbl & ll & Hok & _ & Hden).
  exists tbl, ll. split; [exact Hok|].
  apply (zero_denominator_fails_at_hdi _ _ _ _ _ (1 / 2) _ _ Hok).
  rewrite <- Hden. apply nth_In.
  unfold day_denominators. rewrite denominators_length, length_map, length_seq.
  simpl. lia.
Defined.


(** ** A likelihood that is [NaN]

    A sample of the serial interval that is zero makes [gamma] infinite; at
    the grid point 1 the rate is then [inf * 0], and the likelihood [NaN]. *)

Lemma nansum_values (l : list float) :
  Forall (fun v => v = NaN \/ exists x, v = Fin x /\ 0 <= x) l ->
  exists d, nansum l = Fin d /\ 0 <= d /\ forall x, In (Fin x) l -> x <= d.
Proof.
  induction 1 as [|v l Hv _ (d & Hd & Hd0 & Hle)].
  - exists 0. split; [reflexivity|]. split; [lra|]. intros x [].
  - destruct Hv as [->|(y & -> & Hy)].
    + exists d. rewrite nansum_cons_NaN. split; [exact Hd|].
      split; [exact Hd0|]. intros x [Hx|Hx]; [discriminate|now apply Hle].
    + exists (y + d). rewrite nansum_cons by discriminate. rewrite Hd.
      split; [reflexivity|]. split; [lra|].
      intros x [Hx|Hx]; [injection Hx as <-; lra|].
      specialize (Hle x Hx). lra.
Qed.

(** One pass whose likelihood is [NaN] at position [i0] and positive at
    position [i1]. *)
Lemma nan_numerator_pass (lik : list float) (cs : list R) (i0 i1 : nat)
  (x1 : R) :
  Forall (fun v => v = NaN \/ exists x, v = Fin x /\ 0 <= x) lik ->
  Forall (fun c => 0 < c) cs -> length lik = length cs ->
  (i0 < length lik)%nat -> nth i0 lik NaN = NaN ->
  (i1 < length lik)%nat -> nth i1 lik NaN = Fin x1 -> 0 < x1 ->
  exists d,
    nansum (map2 mul lik (map Fin cs)) = Fin d /\ 0 < d /\
    nth i0 (map (fun v => div v (Fin d)) (map2 mul lik (map Fin cs))) (Fin 0)
    = NaN.
Proof.
  intros Hlik Hcs Hlen Hi0 H0 Hi1 H1 Hx1.
  set (numerator := map2 mul lik (map Fin cs)).
  assert (Hnl : length numerator = length lik).
  { unfold numerator. rewrite map2_length, length_map, Hlen. apply Nat.min_id. }
  assert (Hnum : Forall (fun v => v = NaN \/ exists x, v = Fin x /\ 0 <= x)
                        numerator).
  { apply Forall_forall. intros v Hv. apply in_map2 in Hv.
    destruct Hv as (l & c & Hl & Hc & ->).
    apply in_map_iff in Hc. destruct Hc as (c' & <- & Hc').
    rewrite Forall_forall in Hlik, Hcs.
    destruct (Hlik l Hl) as [->|(x & -> & Hx)]; [now left|].
    right. exists (x * c'). split; [reflexivity|].
    apply Rmult_le_pos; [exact Hx|]. left. now apply Hcs. }
  destruct (nansum_values numerator Hnum) as (d & Hd & Hd0 & Hle).
  assert (Hc1 : 0 < nth i1 cs 0).
  { rewrite Forall_forall in Hcs. apply Hcs, nth_In. lia. }
  assert (Hn1 : nth i1 numerator NaN = Fin (x1 * nth i1 cs 0)).
  { unfold numerator. rewrite (nth_map2 _ _ _ _ _ NaN (Fin 0));
      [|exact Hi1|rewrite length_map; lia].
    rewrite H1, (nth_map_in _ _ _ _ 0) by lia. reflexivity. }
  assert (Hn0 : nth i0 numerator NaN = NaN).
  { unfold numerator. rewrite (nth_map2 _ _ _ _ _ NaN (Fin 0));
      [|exact Hi0|rewrite length_map; lia].
    now rewrite H0. }
  exists d. split; [exact Hd|]. split.
  - assert (Hin : In (Fin (x1 * nth i1 cs 0)) numerator).
    { rewrite <- Hn1. apply nth_In. lia. }
    specialize (Hle _ Hin). nra.
  - rewrite (nth_map_in _ _ _ _ NaN) by lia. now rewrite Hn0.
Qed.

Lemma zero_sample_likelihood_at_one (r : R) (k : Z) (a : Z) :
  r = 1 ->
  poisson_pmf k (mul (Fin (IZR a))
                     (F64.exp (mul (div (Fin 1) (Fin 0))
                                   (sub (Fin r) (Fin 1)))))
  = NaN.
Proof.
  intros ->. simpl. destruct (Req_dec_T 0 0) as [_|H]; [|congruence].
  unfold by_sign. destruct (Rlt_dec 0 1); [|lra].
  simpl. unfold by_sign.
  destruct (Rlt_dec 0 (1 + - (1))); [lra|].
  destruct (Rlt_dec (1 + - (1)) 0); [lra|]. reflexivity.
Qed.

Lemma zero_sample_likelihood_below_one (r : R) :
  r < 1 ->
  exists x,
    poisson_pmf 0 (mul (Fin 1)
                       (F64.exp (mul (div (Fin 1) (Fin 0))
                                     (sub (Fin r) (Fin 1)))))
    = Fin x /\ 0 < x.
Proof.
  intros Hr. simpl. destruct (Req_dec_T 0 0) as [_|H]; [|congruence].
  unfold by_sign. destruct (Rlt_dec 0 1); [|lra].
  simpl. unfold by_sign.
  destruct (Rlt_dec 0 (r + - (1))); [lra|].
  destruct (Rlt_dec (r + - (1)) 0); [|lra].
  simpl. destruct (Rlt_dec (1 * 0) 0); [lra|].
  eexists. split; [reflexivity|].
  apply Rdiv_lt_0_compat; [|lra].
  apply Rmult_lt_0_compat; [apply exp_pos|lra].
Qed.

(** A run of two days with samples that are zero, on a Grid that holds the
    point 1 and a point below it. *)
Lemma nan_likelihood_run {D : Type} (grid : list R) (st : RandomState)
  (d0 d1 : D) (sigma : R) (i0 i1 : nat) :
  0 < sigma -> grid <> [] ->
  Forall (fun s => s = 0) (serial_interval_draws grid st) ->
  (i0 < length grid)%nat -> nth i0 grid 0 = 1 ->
  (i1 < length grid)%nat -> nth i1 grid 0 < 1 ->
  exists posteriors log_likelihood,
    fst (get_posteriors grid st [1; 0]%Z [d0; d1] sigma)
    = Ok (posteriors, log_likelihood) /\
    Forall finite_nonzero (day_denominators grid st [1; 0]%Z [d0; d1] sigma) /\
    ~ Forall (fun column => is_pmf (snd column)) posteriors.
Proof.
  intros Hs Hne Hdraws Hi0 Hr0 Hi1 Hr1.
  set (lik := column 0 (likelihood_data grid [1; 0]%Z (fst (draw_gamma grid st)))).
  assert (Hlen : length lik = length grid) by apply likelihood_column_length.
  assert (Hvals : Forall (fun v => v = NaN \/ exists x, v = Fin x /\ 0 <= x) lik).
  { exact (Forall_inv (likelihood_columns_values grid [1; 0]%Z
                         (fst (draw_gamma grid st)) 1)). }
  assert (Hdraw : forall i, (i < length grid)%nat ->
                  nth i (serial_interval_draws grid st) 0 = 0).
  { intros i Hi. rewrite Forall_forall in Hdraws. apply Hdraws, nth_In.
    now rewrite serial_interval_draws_length. }
  assert (H0 : nth i0 lik NaN = NaN).
  { unfold lik. rewrite likelihood_entry by (simpl; lia).
    unfold likelihood_reciprocal. rewrite (Hdraw i0 Hi0).
    now apply zero_sample_likelihood_at_one. }
  destruct (zero_sample_likelihood_below_one (nth i1 grid 0) Hr1)
    as (x1 & Hx1 & Hx1pos).
  assert (H1 : nth i1 lik NaN = Fin x1).
  { unfold lik. rewrite likelihood_entry by (simpl; lia).
    unfold likelihood_reciprocal. rewrite (Hdraw i1 Hi1). exact Hx1. }
  set (cs := rmatvec (process_matrix_R grid sigma) (prior_R grid)).
  assert (Hcs : Forall (fun c => 0 < c) cs) by now apply first_prediction_pos.
  assert (Hcl : length lik = length cs).
  { unfold cs, rmatvec. now rewrite length_map, process_matrix_R_length. }
  destruct (nan_numerator_pass lik cs i0 i1 x1 Hvals Hcs Hcl
              ltac:(lia) H0 ltac:(lia) H1 Hx1pos) as (d & Hd & Hdpos & Hnan).
  assert (Hstep : bayes_update (process_matrix grid sigma) (prior0 grid) lik
                  = (map (fun v => div v (Fin d)) (map2 mul lik (map Fin cs)),
                     Fin d)).
  { unfold bayes_update.
    rewrite process_matrix_finite by exact Hs.
    rewrite prior0_finite by exact Hne.
    rewrite matvec_Fin. fold cs. now rewrite Hd. }
  eexists _, _. split; [|split].
  - rewrite get_posteriors_unfold.
    cbn [fst removelast tl length Nat.eqb negb seq map].
    fold lik. rewrite bayes_loop_cons, Hstep. reflexivity.
  - unfold day_denominators. cbn [tl length seq map]. fold lik.
    rewrite denominators_cons, Hstep. cbn [snd fst denominators].
    constructor; [|constructor]. exists d. split; [reflexivity|lra].
  - cbn [fst combine]. intros H.
    pose proof (Forall_inv (Forall_inv_tail H)) as [Hcol _]. cbn [snd] in Hcol.
    assert (Hi : (i0 < length (map (fun v => div v (Fin d))
                                   (map2 mul lik (map Fin cs))))%nat).
    { rewrite length_map, map2_length, length_map, <- Hcl, Nat.min_id. lia. }
    pose proof (nth_Forall _ _ i0 (Fin 0) Hcol Hi) as (x & Hx & _).
    rewrite Hnan in Hx. discriminate.
Qed.

Lemma zero_stream_draws (grid : list R) :
  Forall (fun s => s = 0) (serial_interval_draws grid (constant_stream (- 20))).
Proof.
  rewrite constant_stream_draws. apply Forall_map, Forall_forall.
  intros _ _. lra.
Qed.

(** C3, the claim as stated fails, in two ways.  On the smoothed counts
    [0, 1] [get_posteriors] completes with a denominator that is zero, and
    the second day's column is not a PMF.  On the counts [1, 0] and samples
    of the serial interval that are zero it completes with a denominator
    that is a number other than zero, and the second day's column, which
    holds a [NaN], is not a PMF either. *)
Lemma completed_run_with_non_pmf_column :
  (exists posteriors log_likelihood,
     fst (get_posteriors r_t_range_LU (constant_stream 0) [0; 1]%Z [0; 1]%nat
                         (15 / 100))
     = Ok (posteriors, log_likelihood) /\
     ~ Forall (fun column => is_pmf (snd column)) posteriors) /\
  (exists posteriors log_likelihood,
     fst (get_posteriors r_t_range_LU (constant_stream (- 20)) [1; 0]%Z
                         [0; 1]%nat (15 / 100))
     = Ok (posteriors, log_likelihood) /\
     Forall finite_nonzero
            (day_denominators r_t_range_LU (constant_stream (- 20)) [1; 0]%Z
                              [0; 1]%nat (15 / 100)) /\
     ~ Forall (fun column => is_pmf (snd column)) posteriors).
Proof.
  split; [exact zero_denominator_run_not_pmf|].
  apply (nan_likelihood_run r_t_range_LU (constant_stream (- 20)) 0%nat 1%nat
           (15 / 100) 100 0).
  - lra.
  - exact r_t_range_LU_nonempty.
  - apply zero_stream_draws.
  - rewrite r_t_range_LU_length. lia.
  - rewrite r_t_range_LU_nth by lia. simpl. lra.
  - rewrite r_t_range_LU_length. lia.
  - rewrite r_t_range_LU_nth by lia. simpl. lra.
Qed.

(** ** The scenario probabilities (lines 305-307) *)

(** *** Rounding *)

Lemma Int_part_bounds (x : R) : IZR (Int_part x) <= x < IZR (Int_part x) + 1.
Proof. destruct (base_Int_part x). lra. Qed.

Lemma rint_cases (x : R) :
  Summary.rint x = Int_part x \/
  (Summary.rint x = (Int_part x + 1)%Z /\ 1 / 2 <= x - IZR (Int_part x)).
Proof.
  unfold Summary.rint.
  destruct (Rlt_dec (x - IZR (Int_part x)) (1 / 2)) as [|Hge]; [now left|].
  destruct (Rlt_dec (1 / 2) (x - IZR (Int_part x))); [right; split; [reflexivity|lra]|].
  destruct (Z.even (Int_part x)); [now left|right; split; [reflexivity|lra]].
Qed.

Lemma rint_floor_when_below_half (x : R) :
  x - IZR (Int_part x) < 1 / 2 -> Summary.rint x = Int_part x.
Proof.
  intros H. unfold Summary.rint.
  now destruct (Rlt_dec (x - IZR (Int_part x)) (1 / 2)).
Qed.

Lemma rint_ceil_when_above_half (x : R) :
  1 / 2 < x - IZR (Int_part x) -> Summary.rint x = (Int_part x + 1)%Z.
Proof.
  intros H. unfold Summary.rint.
  destruct (Rlt_dec (x - IZR (Int_part x)) (1 / 2)); [lra|].
  now destruct (Rlt_dec (1 / 2) (x - IZR (Int_part x))).
Qed.

Lemma rint_IZR (n : Z) : Summary.rint (IZR n) = n.
Proof.
  assert (H : Int_part (IZR n) = n).
  { symmetry. apply Int_part_spec. lra. }
  rewrite rint_floor_when_below_half; [exact H|]. rewrite H. lra.
Qed.

(** Rounding to the nearest integer is monotone. *)
Lemma rint_mono (x y : R) : x <= y -> (Summary.rint x <= Summary.rint y)%Z.
Proof.
  intros Hxy.
  pose proof (Int_part_bounds x) as Hx. pose proof (Int_part_bounds y) as Hy.
  assert (Hf : (Int_part x <= Int_part y)%Z).
  { apply Z.lt_succ_r. apply lt_IZR. rewrite succ_IZR. lra. }
  destruct (Z.eq_dec (Int_part x) (Int_part y)) as [Heq|Hne].
  - destruct (Rlt_dec (x - IZR (Int_part x)) (1 / 2)) as [Hlo|Hhi].
    + rewrite (rint_floor_when_below_half x Hlo).
      destruct (rint_cases y) as [->|[-> _]]; lia.
    + destruct (Rlt_dec (1 / 2) (x - IZR (Int_part x))) as [Hgt|Heqh].
      * rewrite (rint_ceil_when_above_half x Hgt).
        rewrite rint_ceil_when_above_half; [lia|]. rewrite <- Heq. lra.
      * assert (Hxh : x - IZR (Int_part x) = 1 / 2) by lra.
        destruct (Rlt_dec (1 / 2) (y - IZR (Int_part y))) as [Hygt|Hyle].
        -- rewrite (rint_ceil_when_above_half y Hygt).
           destruct (rint_cases x) as [->|[-> _]]; lia.
        -- assert (Hyx : y = x) by (rewrite <- Heq in Hyle; lra).
           rewrite Hyx. lia.
  - destruct (rint_cases x) as [->|[-> _]];
      destruct (rint_cases y) as [->|[-> _]]; lia.
Qed.

Lemma hundred : 10 ^ 2 = 100.
Proof. simpl. lra. Qed.

Lemma np_round_unit_interval (m : R) :
  0 <= m <= 1 ->
  exists r, Summary.np_round 2 (Fin m) = Fin r /\ 0 <= r <= 1.
Proof.
  intros [H0 H1]. eexists. split; [reflexivity|].
  rewrite hundred.
  assert (Hlo : (0 <= Summary.rint (m * 100))%Z).
  { rewrite <- (rint_IZR 0) at 1. apply rint_mono. lra. }
  assert (Hhi : (Summary.rint (m * 100) <= 100)%Z).
  { rewrite <- (rint_IZR 100) at 2. apply rint_mono. lra. }
  apply IZR_le in Hlo, Hhi. lra.
Qed.

Lemma np_round_mono (a b : R) :
  a <= b ->
  exists x y, Summary.np_round 2 (Fin a) = Fin x /\
              Summary.np_round 2 (Fin b) = Fin y /\ x <= y.
Proof.
  intros Hab. eexists _, _. split; [reflexivity|]. split; [reflexivity|].
  rewrite hundred.
  assert (H : (Summary.rint (a * 100) <= Summary.rint (b * 100))%Z)
    by (apply rint_mono; lra).
  apply IZR_le in H. lra.
Qed.

(** *** The mass of the upper rows *)

Lemma cumsum_skipna_last (a y : R) (ys : list R) :
  exists c cs,
    Summary.cumsum_skipna (Fin a) (map Fin (y :: ys)) = c :: cs /\
    last (c :: cs) NaN = Fin (a + rsum (y :: ys)).
Proof.
  revert a y. induction ys as [|z ys IH]; intros a y.
  - eexists _, _. split; [reflexivity|]. simpl. f_equal. lra.
  - destruct (IH (a + y) z) as (c & cs & Hc & Hlast).
    exists (Fin (a + y)), (c :: cs). split.
    + cbn [map Summary.cumsum_skipna add]. f_equal. exact Hc.
    + change (last (Fin (a + y) :: c :: cs) NaN) with (last (c :: cs) NaN).
      rewrite Hlast. f_equal. simpl. lra.
Qed.

Lemma tail_mass_finite (k : nat) (xs : list R) :
  (k < length xs)%nat ->
  Summary.tail_mass k (map Fin xs) = Ok (Fin (0 + rsum (skipn k xs))).
Proof.
  intros Hk. unfold Summary.tail_mass. rewrite skipn_map.
  destruct (skipn k xs) as [|y ys] eqn:E.
  - pose proof (length_skipn k xs) as Hl. rewrite E in Hl. simpl in Hl. lia.
  - destruct (cumsum_skipna_last 0 y ys) as (c & cs & Hc & Hlast).
    now rewrite Hc, Hlast.
Qed.

Lemma rsum_skipn_bounds (xs : list R) (k : nat) :
  Forall (fun x => 0 <= x) xs -> 0 <= rsum (skipn k xs) <= rsum xs.
Proof.
  intros Hxs. revert k. induction Hxs as [|x xs Hx Hxs IH]; intros k.
  - destruct k; simpl; lra.
  - destruct k as [|k]; [simpl; pose proof (rsum_nonneg xs Hxs); lra|].
    cbn [skipn]. specialize (IH k). simpl. lra.
Qed.

Lemma rsum_skipn_antitone (xs : list R) (k1 k2 : nat) :
  Forall (fun x => 0 <= x) xs -> (k1 <= k2)%nat ->
  rsum (skipn k2 xs) <= rsum (skipn k1 xs).
Proof.
  intros Hxs Hk. replace k2 with ((k2 - k1) + k1)%nat by lia.
  rewrite <- skipn_skipn.
  apply rsum_skipn_bounds.
  apply Forall_forall. intros x Hx. apply in_skipn_in in Hx.
  rewrite Forall_forall in Hxs. now apply Hxs.
Qed.

Lemma scenario_probability_last {D : Type} (threshold : nat)
  (earlier : list (D * list float)) (day : D) (xs : list R) :
  (threshold < length xs)%nat ->
  Summary.scenario_probability threshold (earlier ++ [(day, map Fin xs)])
  = Ok (Summary.np_round 2 (Fin (0 + rsum (skipn threshold xs)))).
Proof.
  intros Hk. unfold Summary.scenario_probability.
  rewrite rev_app_distr. cbn [rev app]. now rewrite tail_mass_finite.
Qed.

(** The rounded masses of a PMF column are nested. *)
Lemma scenario_masses_nested {D : Type}
  (earlier : list (D * list float)) (day : D) (column : list float) :
  is_pmf column ->
  (100 < length column)%nat ->
  exists c p q,
    Summary.current_prob (earlier ++ [(day, column)]) = Ok (Fin c) /\
    Summary.pess_prob (earlier ++ [(day, column)]) = Ok (Fin p) /\
    Summary.pess_pess_prob (earlier ++ [(day, column)]) = Ok (Fin q) /\
    0 <= c /\ c <= p /\ p <= q /\ q <= 1.
Proof.
  intros [Hv Hsum] Hlen.
  destruct (finite_nonneg_values _ Hv) as (xs & -> & Hxs).
  rewrite length_map in Hlen. rewrite sum_map_Fin in Hsum.
  injection Hsum as Hsum.
  unfold Summary.current_prob, Summary.pess_prob, Summary.pess_pess_prob.
  rewrite !scenario_probability_last by lia.
  pose proof (rsum_skipn_bounds xs 100 Hxs) as H100.
  pose proof (rsum_skipn_bounds xs 80 Hxs) as H80.
  pose proof (rsum_skipn_antitone xs 90 100 Hxs ltac:(lia)) as H1.
  pose proof (rsum_skipn_antitone xs 80 90 Hxs ltac:(lia)) as H2.
  destruct (np_round_mono (0 + rsum (skipn 100 xs)) (0 + rsum (skipn 90 xs)))
    as (c & p & Hc & Hp & Hcp); [lra|].
  destruct (np_round_mono (0 + rsum (skipn 90 xs)) (0 + rsum (skipn 80 xs)))
    as (p' & q & Hp' & Hq & Hpq); [lra|].
  destruct (np_round_unit_interval (0 + rsum (skipn 100 xs)))
    as (c' & Hc' & Hc0); [lra|].
  destruct (np_round_unit_interval (0 + rsum (skipn 80 xs)))
    as (q' & Hq' & Hq1); [lra|].
  assert (p' = p) by congruence. assert (c' = c) by congruence.
  assert (q' = q) by congruence. subst.
  exists c, p, q. rewrite Hc, Hp, Hq. repeat split; auto; lra.
Qed.

(** X15. When the last column of the table is a PMF over more than 100
    grid points, the three scenario probabilities of lines 305-307 are
    numbers between 0 and 1, and they are nested: current <= pessimistic <=
    very pessimistic, also after the rounding to two decimals. *)
Theorem scenario_probabilities_nested {D : Type}
  (earlier : list (D * list float)) (day : D) (column : list float) :
  is_pmf column ->
  (100 < length column)%nat ->
  exists c p q,
    Summary.current_prob (earlier ++ [(day, column)]) = Ok (Fin c) /\
    Summary.pess_prob (earlier ++ [(day, column)]) = Ok (Fin p) /\
    Summary.pess_pess_prob (earlier ++ [(day, column)]) = Ok (Fin q) /\
    0 <= c /\ c <= p /\ p <= q /\ q <= 1.
Proof. exact (scenario_masses_nested earlier day column). Qed.

Lemma head_column_is_pmf (n : nat) : is_pmf (map Fin (1 :: repeat 0 n)).
Proof.
  split.
  - apply Forall_forall. intros v Hv. apply in_map_iff in Hv.
    destruct Hv as (x & <- & [<-|Hx]); eexists; (split; [reflexivity|]);
      [lra|]. apply repeat_spec in Hx. lra.
  - rewrite sum_map_Fin. f_equal. simpl. rewrite rsum_repeat_zero. lra.
Qed.

Lemma scenario_probabilities_nested_witness :
  exists c p q,
    Summary.current_prob ([] ++ [(0%nat, map Fin (1 :: repeat 0 100))])
      = Ok (Fin c) /\
    Summary.pess_prob ([] ++ [(0%nat, map Fin (1 :: repeat 0 100))])
      = Ok (Fin p) /\
    Summary.pess_pess_prob ([] ++ [(0%nat, map Fin (1 :: repeat 0 100))])
      = Ok (Fin q) /\
    0 <= c /\ c <= p /\ p <= q /\ q <= 1.
Proof.
  apply (scenario_probabilities_nested [] 0%nat (map Fin (1 :: repeat 0 100))).
  - apply head_column_is_pmf.
  - rewrite length_map. simpl. lia.
Defined.

(** ** The estimate of a day (line 294) *)

Lemma combine_map_Fin (labels xs : list R) :
  combine labels (map Fin xs)
  = map (fun p => (fst p, Fin (snd p))) (combine labels xs).
Proof.
  revert xs. induction labels as [|l labels IH]; intros [|x xs];
    simpl; try reflexivity. now rewrite IH.
Qed.

Lemma map_fst_combine_eq {A B : Type} (l : list A) (l' : list B) :
  length l = length l' -> map fst (combine l l') = l.
Proof.
  revert l'. induction l as [|a l IH]; intros [|b l'] H; simpl in *;
    try reflexivity; try discriminate. f_equal. apply IH. lia.
Qed.

Lemma map_snd_combine_eq {A B : Type} (l : list A) (l' : list B) :
  length l = length l' -> map snd (combine l l') = l'.
Proof.
  revert l'. induction l as [|a l IH]; intros [|b l'] H; simpl in *;
    try reflexivity; try discriminate. f_equal. apply IH. lia.
Qed.

(** The scan keeps the running best unless a strictly greater value comes. *)
Lemma argmax_from_finite (ps : list (R * R)) (l b : R) :
  (Summary.argmax_from (l, Fin b) (map (fun p => (fst p, Fin (snd p))) ps) = l
   /\ Forall (fun p => snd p <= b) ps)
  \/ exists ps1 l' b' ps2,
       ps = ps1 ++ (l', b') :: ps2 /\
       Summary.argmax_from (l, Fin b)
         (map (fun p => (fst p, Fin (snd p))) ps) = l' /\
       b < b' /\
       Forall (fun p => snd p < b') ps1 /\
       Forall (fun p => snd p <= b') ps2.
Proof.
  revert l b. induction ps as [|[l1 x1] ps IH]; intros l b.
  - left. split; [reflexivity|constructor].
  - cbn [map Summary.argmax_from fst snd].
    change (Summary.fill_neg_inf (Fin x1)) with (Fin x1).
    destruct (Rlt_dec b x1) as [Hlt|Hge].
    + rewrite gtb_Fin_true by exact Hlt. right.
      destruct (IH l1 x1) as [[Heq Hall]|(ps1 & l' & b' & ps2 & -> & Heq & Hb & H1 & H2)].
      * exists [], l1, x1, ps. repeat split; auto.
      * exists ((l1, x1) :: ps1), l', b', ps2.
        split; [reflexivity|]. split; [exact Heq|]. split; [lra|].
        split; [|exact H2]. constructor; [simpl; lra|exact H1].
    + rewrite gtb_Fin_false by lra.
      destruct (IH l b) as [[Heq Hall]|(ps1 & l' & b' & ps2 & -> & Heq & Hb & H1 & H2)].
      * left. split; [exact Heq|]. constructor; [simpl; lra|exact Hall].
      * right. exists ((l1, x1) :: ps1), l', b', ps2.
        split; [reflexivity|]. split; [exact Heq|]. split; [exact Hb|].
        split; [|exact H2]. constructor; [simpl; lra|exact H1].
Qed.

Lemma idxmax_finite (ps : list (R * R)) :
  ps <> [] ->
  exists ps1 l b ps2,
    ps = ps1 ++ (l, b) :: ps2 /\
    Summary.idxmax (map (fun p => (fst p, Fin (snd p))) ps) = Some l /\
    Forall (fun p => snd p < b) ps1 /\
    Forall (fun p => snd p <= b) ps2.
Proof.
  destruct ps as [|[l0 b0] ps]; [congruence|]. intros _.
  cbn [map Summary.idxmax fst snd forallb isnan andb].
  change (Summary.fill_neg_inf (Fin b0)) with (Fin b0).
  destruct (argmax_from_finite ps l0 b0)
    as [[Heq Hall]|(ps1 & l' & b' & ps2 & -> & Heq & Hb & H1 & H2)].
  - exists [], l0, b0, ps. rewrite Heq. repeat split; auto.
  - exists ((l0, b0) :: ps1), l', b', ps2. rewrite Heq. repeat split; auto.
Qed.

Lemma Forall_map_intro {A B : Type} (f : A -> B) (P : B -> Prop) (l : list A) :
  Forall (fun a => P (f a)) l -> Forall P (map f l).
Proof. induction 1; simpl; constructor; auto. Qed.

(** X16. For a column of finite values over a grid of the same, positive
    length, the estimate of the day is the first grid point among those
    with the greatest value: every earlier value is strictly smaller and
    no later value is greater. *)
Theorem most_likely_is_first_mode {D : Type} (r_t_range : list R)
  (posteriors : list (D * list float)) (day : D) (xs : list R) :
  In (day, map Fin xs) posteriors ->
  length xs = length r_t_range ->
  r_t_range <> [] ->
  exists estimates g1 r g2 c1 m c2,
    Summary.most_likely r_t_range posteriors = Ok estimates /\
    In (day, Some r) estimates /\
    r_t_range = g1 ++ r :: g2 /\
    xs = c1 ++ m :: c2 /\
    length g1 = length c1 /\
    Forall (fun x => x < m) c1 /\
    Forall (fun x => x <= m) c2.
Proof.
  intros Hin Hlen Hne.
  assert (Hps : combine r_t_range xs <> []).
  { destruct r_t_range, xs; simpl in *; congruence. }
  destruct (idxmax_finite _ Hps) as (ps1 & l & b & ps2 & Hsplit & Hidx & H1 & H2).
  exists (map (fun column =>
                 (fst column, Summary.idxmax (combine r_t_range (snd column))))
              posteriors),
    (map fst ps1), l, (map fst ps2), (map snd ps1), b, (map snd ps2).
  split; [destruct r_t_range; [congruence|reflexivity]|].
  split.
  { apply in_map_iff. exists (day, map Fin xs). split; [|exact Hin].
    cbn [fst snd]. now rewrite combine_map_Fin, Hidx. }
  split.
  { rewrite <- (map_fst_combine_eq r_t_range xs) at 1 by lia.
    now rewrite Hsplit, map_app. }
  split.
  { rewrite <- (map_snd_combine_eq r_t_range xs) at 1 by lia.
    now rewrite Hsplit, map_app. }
  split; [now rewrite !length_map|].
  split; now apply Forall_map_intro.
Qed.

Lemma most_likely_is_first_mode_witness :
  exists estimates g1 r g2 c1 m c2,
    Summary.most_likely [0; 1; 2] [(0%nat, map Fin [1 / 4; 1 / 2; 1 / 4])]
      = Ok estimates /\
    In (0%nat, Some r) estimates /\
    [0; 1; 2] = g1 ++ r :: g2 /\
    [1 / 4; 1 / 2; 1 / 4] = c1 ++ m :: c2 /\
    length g1 = length c1 /\
    Forall (fun x => x < m) c1 /\
    Forall (fun x => x <= m) c2.
Proof.
  apply (most_likely_is_first_mode [0; 1; 2]
           [(0%nat, map Fin [1 / 4; 1 / 2; 1 / 4])] 0%nat [1 / 4; 1 / 2; 1 / 4]).
  - left. reflexivity.
  - reflexivity.
  - discriminate.
Defined.

(** ** The trend of the probability (lines 309-310) *)

Lemma rsum_unit_bounds (w : list R) :
  Forall (fun x => 0 <= x <= 1) w -> 0 <= rsum w <= INR (length w).
Proof.
  induction 1 as [|x w Hx _ IH]; [simpl; lra|].
  change (length (x :: w)) with (S (length w)). rewrite S_INR. simpl. lra.
Qed.

Lemma nanmean_unit_interval (w : list R) :
  w <> [] -> Forall (fun x => 0 <= x <= 1) w ->
  exists m, Summary.nanmean (map Fin w) = Fin m /\ 0 <= m <= 1.
Proof.
  intros Hne Hw. unfold Summary.nanmean. rewrite filter_notnan_Fin.
  destruct w as [|x w]; [congruence|].
  cbn [map]. change (Fin x :: map Fin w) with (map Fin (x :: w)).
  rewrite sum_map_Fin, length_map.
  assert (Hn : 0 < INR (length (x :: w))) by (apply lt_0_INR; simpl; lia).
  rewrite div_Fin_nonzero by lra.
  eexists. split; [reflexivity|].
  pose proof (rsum_unit_bounds _ Hw) as [H0 H1].
  split.
  - apply Rmult_le_pos; [exact H0|]. left. now apply Rinv_0_lt_compat.
  - apply (Rmult_le_reg_r (INR (length (x :: w)))); [exact Hn|].
    unfold Rdiv. rewrite Rmult_assoc, Rinv_l by lra. lra.
Qed.

Lemma window_centered_Fin (ms : list R) (t : nat) :
  Summary.window_centered (map Fin ms) t
  = map Fin (firstn (t + 4 - (t - 3)) (skipn (t - 3) ms)).
Proof. unfold Summary.window_centered. now rewrite skipn_map, firstn_map. Qed.

Lemma rolling_mean_centered_unit_interval (ms : list R) :
  Forall (fun x => 0 <= x <= 1) ms ->
  Forall (fun v => exists x, v = Fin x /\ 0 <= x <= 1)
         (Summary.rolling_mean_centered (map Fin ms)).
Proof.
  intros Hms. unfold Summary.rolling_mean_centered.
  apply Forall_forall. intros v Hv. apply in_map_iff in Hv.
  destruct Hv as (t & <- & Ht). apply in_seq in Ht. rewrite length_map in Ht.
  rewrite window_centered_Fin. apply nanmean_unit_interval.
  - intros E. apply (f_equal (@length R)) in E.
    rewrite length_firstn, length_skipn in E. simpl in E. lia.
  - apply Forall_forall. intros x Hx.
    apply in_firstn_in, in_skipn_in in Hx.
    rewrite Forall_forall in Hms. now apply Hms.
Qed.

Lemma rounded_mass_unit_interval (column : list float) (n : nat) :
  is_pmf column -> (100 < n)%nat -> length column = n ->
  exists m,
    Summary.np_round 2
      (last (Summary.cumsum_skipna (Fin 0) (skipn 100 column)) NaN) = Fin m /\
    0 <= m <= 1.
Proof.
  intros [Hv Hsum] Hn Hlen.
  destruct (finite_nonneg_values _ Hv) as (xs & -> & Hxs).
  rewrite length_map in Hlen. rewrite sum_map_Fin in Hsum.
  injection Hsum as Hsum. rewrite skipn_map.
  destruct (skipn 100 xs) as [|y ys] eqn:E.
  { pose proof (length_skipn 100 xs) as Hl. rewrite E in Hl. simpl in Hl. lia. }
  destruct (cumsum_skipna_last 0 y ys) as (c & cs & Hc & Hlast).
  rewrite Hc, Hlast. apply np_round_unit_interval.
  pose proof (rsum_skipn_bounds xs 100 Hxs) as Hb. rewrite E in Hb. lra.
Qed.

Lemma current_prob1_unit_interval {D : Type} (r_t_range : list R)
  (posteriors : list (D * list float)) :
  Forall (fun column => is_pmf (snd column)) posteriors ->
  Forall (fun column => length (snd column) = length r_t_range) posteriors ->
  (100 < length r_t_range)%nat ->
  exists s ms,
    Summary.current_prob1 r_t_range posteriors = Ok s /\
    map fst s = map fst posteriors /\
    map snd s = map Fin ms /\
    Forall (fun x => 0 <= x <= 1) ms.
Proof.
  intros Hpmf Hlen Hn. unfold Summary.current_prob1.
  destruct (skipn 100 r_t_range) as [|g gs] eqn:E.
  { pose proof (length_skipn 100 r_t_range) as Hl. rewrite E in Hl.
    simpl in Hl. lia. }
  clear E g gs. eexists.
  assert (H : exists ms,
    map (fun column : D * list float =>
           Summary.np_round 2
             (last (Summary.cumsum_skipna (Fin 0) (skipn 100 (snd column))) NaN))
        posteriors = map Fin ms /\ Forall (fun x => 0 <= x <= 1) ms).
  { induction posteriors as [|c posteriors IH].
    - exists []. split; [reflexivity|constructor].
    - destruct IH as (ms & Hms & Hall);
        [now apply Forall_inv_tail in Hpmf|now apply Forall_inv_tail in Hlen|].
      apply Forall_inv in Hpmf, Hlen.
      destruct (rounded_mass_unit_interval (snd c) _ Hpmf Hn Hlen)
        as (m & Hm & Hb).
      exists (m :: ms). split; [cbn [map]; now rewrite Hm, Hms|now constructor]. }
  destruct H as (ms & Hms & Hall). exists ms.
  split; [reflexivity|]. rewrite !map_map. cbn [fst snd].
  split; [reflexivity|]. split; [exact Hms|exact Hall].
Qed.

(** The trend of a table of PMFs. *)
Lemma trend_of_pmfs {D : Type} (r_t_range : list R)
  (posteriors : list (D * list float)) :
  Forall (fun column => is_pmf (snd column)) posteriors ->
  Forall (fun column => length (snd column) = length r_t_range) posteriors ->
  (100 < length r_t_range)%nat ->
  exists trend,
    Summary.smooth_prob r_t_range posteriors = Ok trend /\
    map fst trend = map fst posteriors /\
    Forall (fun v => exists x, v = Fin x /\ 0 <= x <= 1) (map snd trend).
Proof.
  intros Hpmf Hlen Hn.
  destruct (current_prob1_unit_interval r_t_range posteriors Hpmf Hlen Hn)
    as (s & ms & Hs & Hfst & Hsnd & Hms).
  unfold Summary.smooth_prob. rewrite Hs, Hsnd. eexists. split; [reflexivity|].
  assert (Hl : length (map fst s)
               = length (Summary.rolling_mean_centered (map Fin ms))).
  { unfold Summary.rolling_mean_centered.
    rewrite !length_map, length_seq.
    apply (f_equal (@length float)) in Hsnd. now rewrite !length_map in Hsnd. }
  rewrite map_fst_combine_eq, map_snd_combine_eq by exact Hl.
  split; [exact Hfst|]. now apply rolling_mean_centered_unit_interval.
Qed.

(** X17. When every column of the table is a PMF over the grid and the
    grid has more than 100 points, the smoothed trend of line 310 has one
    value for every day, and every value is a number between 0 and 1. *)
Theorem smooth_prob_within_unit_interval {D : Type} (r_t_range : list R)
  (posteriors : list (D * list float)) :
  Forall (fun column => is_pmf (snd column)) posteriors ->
  Forall (fun column => length (snd column) = length r_t_range) posteriors ->
  (100 < length r_t_range)%nat ->
  exists trend,
    Summary.smooth_prob r_t_range posteriors = Ok trend /\
    map fst trend = map fst posteriors /\
    Forall (fun v => exists x, v = Fin x /\ 0 <= x <= 1) (map snd trend).
Proof. exact (trend_of_pmfs r_t_range posteriors). Qed.

Lemma smooth_prob_within_unit_interval_witness :
  exists trend,
    Summary.smooth_prob (repeat 0 101)
      [(0%nat, map Fin (1 :: repeat 0 100))] = Ok trend /\
    map fst trend = map fst [(0%nat, map Fin (1 :: repeat 0 100))] /\
    Forall (fun v => exists x, v = Fin x /\ 0 <= x <= 1) (map snd trend).
Proof.
  apply (smooth_prob_within_unit_interval (repeat 0 101)
           [(0%nat, map Fin (1 :: repeat 0 100))]).
  - constructor; [apply head_column_is_pmf|constructor].
  - constructor; [|constructor]. cbn [snd].
    rewrite length_map, repeat_length. cbn [length].
    now rewrite repeat_length.
  - rewrite repeat_length. lia.
Defined.

(** ** The summaries of a run (lines 289-310) *)

Lemma most_likely_of_pmfs {D : Type} (r_t_range : list R)
  (posteriors : list (D * list float)) :
  r_t_range <> [] ->
  Forall (fun column => is_pmf (snd column)) posteriors ->
  Forall (fun column => length (snd column) = length r_t_range) posteriors ->
  exists estimates,
    Summary.most_likely r_t_range posteriors = Ok estimates /\
    map fst estimates = map fst posteriors /\
    Forall (fun e => exists r, snd e = Some r /\ In r r_t_range) estimates.
Proof.
  intros Hne Hpmf Hlen. unfold Summary.most_likely.
  destruct r_t_range as [|g grid] eqn:Eg; [congruence|]. rewrite <- Eg in *.
  eexists. split; [reflexivity|]. split.
  { rewrite map_map. reflexivity. }
  apply Forall_map_intro. apply Forall_forall. intros c Hc. cbn [snd].
  rewrite Forall_forall in Hpmf, Hlen.
  destruct (Hpmf c Hc) as [Hv _].
  destruct (finite_nonneg_values _ Hv) as (xs & Hxs & _).
  pose proof (Hlen c Hc) as Hl. rewrite Hxs, length_map in Hl. rewrite Hxs.
  assert (Hps : combine r_t_range xs <> []).
  { rewrite Eg in *. destruct xs; simpl in *; congruence. }
  destruct (idxmax_finite _ Hps) as (ps1 & l & b & ps2 & Hsplit & Hidx & _).
  exists l. rewrite combine_map_Fin. split; [exact Hidx|].
  apply (in_combine_l r_t_range xs l b). rewrite Hsplit.
  apply in_or_app. right. now left.
Qed.

(** X18. For a run whose denominators are all numbers other than zero and
    whose likelihoods hold no [NaN], on a grid of more than 100 points, the
    summaries of the script are all defined: every day gets a grid point as
    its estimate, the three scenario probabilities are nested numbers
    between 0 and 1, and so is every value of the trend. *)
Theorem run_summaries_defined {D : Type} (r_t_range : list R)
  (st : RandomState) (sr : list Z) (date : list D) (sigma : R)
  (posteriors : list (D * list float)) (log_likelihood : float) :
  (100 < length r_t_range)%nat ->
  fst (get_posteriors r_t_range st sr date sigma)
  = Ok (posteriors, log_likelihood) ->
  Forall finite_nonzero (day_denominators r_t_range st sr date sigma) ->
  Forall (Forall (fun v => v <> NaN)) (day_likelihoods r_t_range st sr date) ->
  exists estimates c p q trend,
    Summary.most_likely r_t_range posteriors = Ok estimates /\
    map fst estimates = map fst posteriors /\
    Forall (fun e => exists r, snd e = Some r /\ In r r_t_range) estimates /\
    Summary.current_prob posteriors = Ok (Fin c) /\
    Summary.pess_prob posteriors = Ok (Fin p) /\
    Summary.pess_pess_prob posteriors = Ok (Fin q) /\
    0 <= c /\ c <= p /\ p <= q /\ q <= 1 /\
    Summary.smooth_prob r_t_range posteriors = Ok trend /\
    map fst trend = map fst posteriors /\
    Forall (fun v => exists x, v = Fin x /\ 0 <= x <= 1) (map snd trend).
Proof.
  intros Hn Hok Hden Hlik.
  assert (Hne : r_t_range <> [])
    by (destruct r_t_range; [simpl in Hn; lia|congruence]).
  pose proof (run_columns_are_pmfs r_t_range st sr date sigma posteriors
                log_likelihood Hne Hok Hden Hlik) as Hpmf.
  assert (Hlen : Forall (fun column => length (snd column) = length r_t_range)
                        posteriors).
  { pose proof (get_posteriors_columns _ _ _ _ _ _ _ Hok) as [Hcols _].
    apply (proj1 (Forall_map snd (fun c => length c = length r_t_range)
                             posteriors)).
    rewrite Hcols. constructor; [apply prior0_length|].
    apply bayes_loop_columns_length;
      [apply process_matrix_length|apply run_likelihoods_length]. }
  assert (Htbl : posteriors <> []).
  { pose proof (get_posteriors_columns _ _ _ _ _ _ _ Hok) as [Hcols _].
    intros ->. discriminate Hcols. }
  destruct (exists_last Htbl) as (earlier & [day column] & Hlast).
  destruct (most_likely_of_pmfs r_t_range posteriors Hne Hpmf Hlen)
    as (estimates & Hest & Hdays & Hin).
  destruct (trend_of_pmfs r_t_range posteriors Hpmf Hlen Hn)
    as (trend & Htrend & Htdays & Hunit).
  destruct (scenario_masses_nested earlier day column)
    as (c & p & q & Hc & Hp & Hq & Hb).
  { rewrite Hlast in Hpmf. apply Forall_app in Hpmf. destruct Hpmf as [_ Hp].
    now apply Forall_inv in Hp. }
  { rewrite Hlast in Hlen. apply Forall_app in Hlen. destruct Hlen as [_ Hl].
    apply Forall_inv in Hl. cbn [snd] in Hl. lia. }
  rewrite <- Hlast in Hc, Hp, Hq.
  exists estimates, c, p, q, trend.
  repeat (split; [assumption|]). tauto.
Qed.

Lemma run_summaries_defined_witness :
  exists posteriors log_likelihood estimates c p q trend,
    fst (get_posteriors r_t_range_LU (constant_stream 0) [3; 0; 0]%Z
                        [0; 1; 2]%nat (15 / 100))
    = Ok (posteriors, log_likelihood) /\
    Summary.most_likely r_t_range_LU posteriors = Ok estimates /\
    map fst estimates = map fst posteriors /\
    Forall (fun e => exists r, snd e = Some r /\ In r r_t_range_LU) estimates /\
    Summary.current_prob posteriors = Ok (Fin c) /\
    Summary.pess_prob posteriors = Ok (Fin p) /\
    Summary.pess_pess_prob posteriors = Ok (Fin q) /\
    0 <= c /\ c <= p /\ p <= q /\ q <= 1 /\
    Summary.smooth_prob r_t_range_LU posteriors = Ok trend /\
    map fst trend = map fst posteriors /\
    Forall (fun v => exists x, v = Fin x /\ 0 <= x <= 1) (map snd trend).
Proof.
  destruct (healthy_run r_t_range_LU (constant_stream 0) [3; 0; 0]%Z
              [0; 1; 2]%nat (15 / 100)) as (tbl & x & Hok & Hden & _).
  - lra.
  - exact r_t_range_LU_nonempty.
  - apply constant_stream_zero_valid.
  - discriminate.
  - reflexivity.
  - intros t Ht. simpl in Ht.
    destruct t as [|[|t]]; simpl; try lia.
  - exists tbl, (Fin x).
    destruct (run_summaries_defined r_t_range_LU (constant_stream 0)
                [3; 0; 0]%Z [0; 1; 2]%nat (15 / 100) tbl (Fin x))
      as (estimates & c & p & q & trend & H).
    + rewrite r_t_range_LU_length. lia.
    + exact Hok.
    + eapply Forall_impl; [|exact Hden]. apply positive_finite_nonzero.
    + apply valid_likelihoods_no_nan.
      * apply constant_stream_zero_valid.
      * repeat constructor; lia.
      * reflexivity.
    + exists estimates, c, p, q, trend. split; [exact Hok|exact H].
Defined.

Local Close Scope R_scope.
Import Checkfile.
Local Open Scope string_scope.

(** ** The check of the input file *)

(** *** Loops *)

Lemma bind_returns {A B : Type} (m : outcome A) (f : A -> outcome B) (b : B) :
  bind m f = Returns b <-> exists a, m = Returns a /\ f a = Returns b.
Proof.
  destruct m as [a|e]; simpl; split.
  - intros H. now exists a.
  - now intros (a' & [= <-] & H).
  - discriminate.
  - now intros (a' & [=] & _).
Qed.

Lemma for_range_returns (body : nat -> outcome unit) (range : list nat) (u : unit) :
  for_range body range = Returns u <->
  Forall (fun i => body i = Returns tt) range.
Proof.
  destruct u. induction range as [|i range IH]; simpl.
  - split; [constructor|reflexivity].
  - rewrite bind_returns. split.
    + intros ([] & Hi & Hrest). constructor; [exact Hi|now apply IH].
    + intros H. exists tt. split; [now apply Forall_inv in H|].
      apply IH. now apply Forall_inv_tail in H.
Qed.

Lemma for_range_first_failure (body : nat -> outcome unit)
  (before after : list nat) (i : nat) (e : error) :
  Forall (fun j => body j = Returns tt) before ->
  body i = Raises e ->
  for_range body (before ++ i :: after) = Raises e.
Proof.
  induction 1 as [|j before Hj _ IH]; intros Hi; simpl.
  - now rewrite Hi.
  - rewrite Hj. simpl. now apply IH.
Qed.

Lemma Forall_seq (P : nat -> Prop) (n : nat) :
  Forall P (seq 0 n) <-> forall i, (i < n)%nat -> P i.
Proof.
  rewrite Forall_forall. split.
  - intros H i Hi. apply H, in_seq. lia.
  - intros H i Hi. apply in_seq in Hi. apply H. lia.
Qed.

(** *** The checks of one row *)

Ltac step := cbn [bind lt is_str strftime negb andb orb].

Lemma check_entry_returns (full_data : frame) (i : nat) :
  check_entry full_data i = Returns tt <-> clean_entry full_data i.
Proof.
  unfold check_entry, clean_entry. split.
  - destruct (iloc full_data "new_cases" i) as [s|a|d c];
      destruct (iloc full_data "new_cases_resident" i) as [s'|b|d' c'];
      step; try discriminate;
      destruct (gtb (Fin 0) a) eqn:Ea; try discriminate; step;
      try discriminate.
    destruct (gtb (Fin 0) b) eqn:Eb; [discriminate|]. intros _.
    now exists a, b.
  - intros (a & b & -> & -> & Ea & Eb). step. rewrite Ea. step.
    now rewrite Eb.
Qed.

Lemma check_entry_text (full_data : frame) (i : nat) :
  text_entry full_data i = true ->
  check_entry full_data i
  = Raises (ValueError
      ("Error: invalid data entry detected (not a number) at line "
       ++ str (nrows full_data - i))).
Proof.
  unfold text_entry, check_entry. intros H.
  apply orb_true_iff in H.
  destruct (is_str (iloc full_data "new_cases" i)),
    (is_str (iloc full_data "new_cases_resident" i));
    step; try reflexivity. destruct H; discriminate.
Qed.

Lemma check_entry_negative (full_data : frame) (i : nat) :
  negative_entry full_data i ->
  check_entry full_data i
  = Raises (ValueError
      ("Warning: invalid data entry detected (negative number) at line "
       ++ str (nrows full_data - i))).
Proof.
  unfold negative_entry, check_entry. intros (a & b & -> & -> & H). step.
  destruct (gtb (Fin 0) a); [reflexivity|].
  destruct H as [H|H]; [discriminate|]. now rewrite H.
Qed.

Lemma check_consistency_returns (full_data : frame) (i : nat) (a b : float) :
  iloc full_data "new_cases" i = Number a ->
  iloc full_data "new_cases_resident" i = Number b ->
  check_consistency full_data i = Returns tt <-> gtb b a = false.
Proof.
  intros Ha Hb. unfold check_consistency. rewrite Ha, Hb. step.
  destruct (gtb b a); split; congruence.
Qed.

Lemma check_latest_returns (w : world) (full_data : frame) :
  check_latest w full_data = Returns tt <->
  exists last clock,
    nrows full_data = S last /\
    iloc full_data "report_date" last = Timestamp (yesterday w) clock.
Proof.
  unfold check_latest. destruct (nrows full_data) as [|last].
  - split; [discriminate|]. now intros (? & ? & [=] & _).
  - destruct (iloc full_data "report_date" last) as [s|x|d c] eqn:E; step.
    + split; [discriminate|]. intros (l & c & [= <-] & H). congruence.
    + split; [discriminate|]. intros (l & c & [= <-] & H). congruence.
    + destruct (String.eqb d (yesterday w)) eqn:Ed; split.
      * intros _. apply String.eqb_eq in Ed. subst. now exists last, c.
      * reflexivity.
      * discriminate.
      * intros (l & c' & [= <-] & H). rewrite E in H. injection H as -> _.
        now rewrite String.eqb_refl in Ed.
Qed.

Lemma find_start_returns (full_data : frame) (range : list nat)
  (start result : bool) :
  find_start full_data range start = Returns result <->
  Forall (fun i => exists day clock,
            iloc full_data "report_date" i = Timestamp day clock) range /\
  result = (start ||
            existsb (fun i => match iloc full_data "report_date" i with
                              | Timestamp day _ => String.eqb day "20200228"
                              | _ => false
                              end) range)%bool.
Proof.
  revert start. induction range as [|i range IH]; intros start;
    cbn [find_start existsb].
  - rewrite orb_false_r. split.
    + intros [= <-]. split; [constructor|reflexivity].
    + now intros [_ ->].
  - destruct (iloc full_data "report_date" i) as [s|x|d c] eqn:E; step.
    + split; [discriminate|]. intros [H _]. apply Forall_inv in H.
      destruct H as (? & ? & H). congruence.
    + split; [discriminate|]. intros [H _]. apply Forall_inv in H.
      destruct H as (? & ? & H). congruence.
    + rewrite IH. split.
      * intros [Hall ->]. split.
        -- constructor; [now exists d, c|exact Hall].
        -- destruct (String.eqb d "20200228"), start; reflexivity.
      * intros [Hall ->]. split; [now apply Forall_inv_tail in Hall|].
        destruct (String.eqb d "20200228"), start; reflexivity.
Qed.

(** *** The checks of the rows *)

Lemma check_rows_returns (w : world) (full_data : frame) (u : unit) :
  check_rows w full_data = Returns u <->
  (forall i, (i < nrows full_data)%nat -> valid_row full_data i) /\
  (exists last clock,
     nrows full_data = S last /\
     iloc full_data "report_date" last = Timestamp (yesterday w) clock) /\
  (exists i clock,
     (i < nrows full_data)%nat /\
     iloc full_data "report_date" i = Timestamp "20200228" clock).
Proof.
  destruct u. unfold check_rows. split.
  - intros H.
    apply bind_returns in H. destruct H as ([] & Hentries & H).
    apply bind_returns in H. destruct H as ([] & Hcons & H).
    apply bind_returns in H. destruct H as ([] & Hlatest & H).
    apply bind_returns in H. destruct H as (start & Hstart & H).
    destruct start; [clear H|discriminate].
    rewrite for_range_returns, Forall_seq in Hentries.
    rewrite for_range_returns, Forall_seq in Hcons.
    apply check_latest_returns in Hlatest.
    apply find_start_returns in Hstart. destruct Hstart as [Hdates Hfound].
    rewrite Forall_seq in Hdates. split; [|split; [exact Hlatest|]].
    + intros i Hi.
      destruct (proj1 (check_entry_returns full_data i) (Hentries i Hi))
        as (a & b & Ha & Hb & Ha0 & Hb0).
      destruct (Hdates i Hi) as (day & clock & Hd).
      exists a, b, day, clock. repeat (split; [assumption|]).
      now apply (check_consistency_returns full_data i a b Ha Hb), Hcons.
    + symmetry in Hfound. cbn [orb] in Hfound.
      apply existsb_exists in Hfound. destruct Hfound as (i & Hi & Hday).
      apply in_seq in Hi.
      destruct (iloc full_data "report_date" i) as [s|x|d c] eqn:E;
        try discriminate.
      apply String.eqb_eq in Hday. subst d. exists i, c. split; [lia|exact E].
  - intros (Hrows & Hlatest & (i & clock & Hi & Hday)).
    apply bind_returns. exists tt. split.
    { apply for_range_returns, Forall_seq. intros j Hj.
      apply check_entry_returns.
      destruct (Hrows j Hj) as (a & b & d & c & Ha & Hb & _ & Ha0 & Hb0 & _).
      now exists a, b. }
    apply bind_returns. exists tt. split.
    { apply for_range_returns, Forall_seq. intros j Hj.
      destruct (Hrows j Hj) as (a & b & d & c & Ha & Hb & _ & _ & _ & Hab).
      now apply (check_consistency_returns full_data j a b Ha Hb). }
    apply bind_returns. exists tt. split.
    { now apply check_latest_returns. }
    apply bind_returns. exists true. split; [|reflexivity].
    apply find_start_returns. split.
    { apply Forall_seq. intros j Hj.
      destruct (Hrows j Hj) as (a & b & d & c & _ & _ & Hd & _).
      now exists d, c. }
    symmetry. cbn [orb]. apply existsb_exists. exists i. split.
    { apply in_seq. lia. }
    now rewrite Hday.
Qed.

(** *** The reversed frame *)

Lemma has_column_In (c : string) (df : frame) :
  has_column c df = true <-> In c (columns df).
Proof.
  unfold has_column. rewrite existsb_exists. split.
  - intros (x & Hx & E). apply String.eqb_eq in E. now subst.
  - intros H. exists c. split; [exact H|apply String.eqb_refl].
Qed.

Lemma has_column_false (c : string) (df : frame) :
  has_column c df = false <-> ~ In c (columns df).
Proof.
  rewrite <- has_column_In. destruct (has_column c df); split; congruence.
Qed.

Lemma reversed_reset_index_returns (sheet full_data : frame) :
  reversed_reset_index sheet = Returns full_data ->
  (In "index" (columns sheet) -> ~ In "level_0" (columns sheet)) /\
  nrows full_data = nrows sheet /\
  (forall c i, plain c ->
     iloc full_data c i = iloc sheet c (nrows sheet - 1 - i)) /\
  (forall c, plain c -> has_column c full_data = has_column c sheet).
Proof.
  unfold reversed_reset_index, plain.
  destruct (has_column "index" sheet) eqn:Ei.
  - destruct (has_column "level_0" sheet) eqn:El; [discriminate|].
    intros [= <-]. cbn [nrows iloc]. split; [|split; [reflexivity|split]].
    + intros _. now apply has_column_false.
    + intros c i [_ Hc]. apply String.eqb_neq in Hc. now rewrite Hc.
    + intros c [_ Hc]. apply String.eqb_neq in Hc. unfold has_column.
      cbn [columns existsb]. now rewrite Hc.
  - rewrite Ei. intros [= <-]. cbn [nrows iloc].
    split; [|split; [reflexivity|split]].
    + intros H. apply has_column_In in H. congruence.
    + intros c i [Hc _]. apply String.eqb_neq in Hc. now rewrite Hc.
    + intros c [Hc _]. apply String.eqb_neq in Hc. unfold has_column.
      cbn [columns existsb]. now rewrite Hc.
Qed.

Lemma reversed_reset_index_defined (sheet : frame) :
  (In "index" (columns sheet) -> ~ In "level_0" (columns sheet)) ->
  exists full_data, reversed_reset_index sheet = Returns full_data.
Proof.
  intros H. unfold reversed_reset_index.
  destruct (has_column "index" sheet) eqn:Ei.
  - apply has_column_In, H, has_column_false in Ei. rewrite Ei. eauto.
  - rewrite Ei. eauto.
Qed.

(** *** The call *)

Lemma plain_report_date : plain "report_date".
Proof. split; discriminate. Qed.

Lemma plain_new_cases : plain "new_cases".
Proof. split; discriminate. Qed.

Lemma plain_new_cases_resident : plain "new_cases_resident".
Proof. split; discriminate. Qed.

(** Once the file is open, the outcome is that of the checks of the rows
    and of the renaming. *)
Lemma checkfile_after_open (w : world) (inputfile : string) (sheet : frame) :
  opens w inputfile sheet ->
  exists full_data,
    reversed_reset_index sheet = Returns full_data /\
    checkfile w inputfile
    = match check_rows w full_data with
      | Raises e => (Raises e, [])
      | Returns _ =>
          match rename w inputfile new_name with
          | Some e => (Raises e, [])
          | None => (Returns true, [Rename inputfile new_name])
          end
      end.
Proof.
  intros (Hfile & Hext & Hname & Hread & Hidx & Hd & Hc & Hr).
  destruct (reversed_reset_index_defined sheet Hidx) as (full_data & Hfull).
  exists full_data. split; [exact Hfull|].
  destruct (reversed_reset_index_returns _ _ Hfull) as (_ & _ & _ & Hcols).
  unfold checkfile, check_content.
  rewrite Hfile, Hext, Hname, !String.eqb_refl, Hread. cbn [negb bind].
  rewrite Hfull. cbn [bind].
  rewrite (Hcols _ plain_report_date), (Hcols _ plain_new_cases),
    (Hcols _ plain_new_cases_resident).
  rewrite (proj2 (has_column_In _ _) Hd), (proj2 (has_column_In _ _) Hc),
    (proj2 (has_column_In _ _) Hr). cbn [negb].
  reflexivity.
Qed.

(** A call that returns has opened the file. *)
Lemma checkfile_returns_opens (w : world) (inputfile : string) (b : bool) :
  fst (checkfile w inputfile) = Returns b ->
  exists sheet, opens w inputfile sheet.
Proof.
  unfold checkfile, opens.
  destruct (isfile w inputfile); cbn [negb]; [|discriminate].
  destruct (String.eqb (snd (splitext inputfile)) ".xlsx") eqn:Eext;
    cbn [negb]; [|discriminate].
  destruct (String.eqb (fst (splitext (basename inputfile))) (expected_name w))
    eqn:Ename; cbn [negb]; [|discriminate].
  apply String.eqb_eq in Eext, Ename.
  destruct (check_content w inputfile) as [[]|e] eqn:Ec; [|discriminate].
  intros _. unfold check_content in Ec.
  apply bind_returns in Ec. destruct Ec as (sheet & Hread & Ec).
  apply bind_returns in Ec. destruct Ec as (full_data & Hfull & Ec).
  destruct (reversed_reset_index_returns _ _ Hfull) as (Hidx & _ & _ & Hcols).
  rewrite (Hcols _ plain_report_date), (Hcols _ plain_new_cases),
    (Hcols _ plain_new_cases_resident) in Ec.
  destruct (has_column "report_date" sheet) eqn:Hd; [|discriminate].
  destruct (has_column "new_cases" sheet) eqn:Hc; [|discriminate].
  destruct (has_column "new_cases_resident" sheet) eqn:Hr; [|discriminate].
  exists sheet. split; [reflexivity|]. repeat (split; [assumption|]).
  split; [now apply has_column_In|]. split; now apply has_column_In.
Qed.

Lemma opens_same_sheet (w : world) (inputfile : string) (s1 s2 : frame) :
  opens w inputfile s1 -> opens w inputfile s2 -> s1 = s2.
Proof.
  intros (_ & _ & _ & H1 & _) (_ & _ & _ & H2 & _). congruence.
Qed.

(** The rows of the reversed frame are those of the sheet. *)
Lemma valid_row_reversed (sheet full_data : frame) (i : nat) :
  reversed_reset_index sheet = Returns full_data ->
  valid_row full_data i <-> valid_row sheet (nrows sheet - 1 - i).
Proof.
  intros Hfull.
  destruct (reversed_reset_index_returns _ _ Hfull) as (_ & _ & Hcell & _).
  unfold valid_row.
  now rewrite (Hcell _ i plain_report_date), (Hcell _ i plain_new_cases),
    (Hcell _ i plain_new_cases_resident).
Qed.

Lemma clean_entry_reversed (sheet full_data : frame) (i : nat) :
  reversed_reset_index sheet = Returns full_data ->
  clean_entry full_data i <-> clean_entry sheet (nrows sheet - 1 - i).
Proof.
  intros Hfull.
  destruct (reversed_reset_index_returns _ _ Hfull) as (_ & _ & Hcell & _).
  unfold clean_entry.
  now rewrite (Hcell _ i plain_new_cases), (Hcell _ i plain_new_cases_resident).
Qed.

Lemma check_rows_reversed (w : world) (sheet full_data : frame) (u : unit) :
  reversed_reset_index sheet = Returns full_data ->
  check_rows w full_data = Returns u <->
  (forall i, (i < nrows sheet)%nat -> valid_row sheet i) /\
  (exists clock, iloc sheet "report_date" 0 = Timestamp (yesterday w) clock) /\
  (exists i clock,
     (i < nrows sheet)%nat /\
     iloc sheet "report_date" i = Timestamp "20200228" clock).
Proof.
  intros Hfull. rewrite check_rows_returns.
  destruct (reversed_reset_index_returns _ _ Hfull) as (_ & Hn & Hcell & _).
  rewrite Hn. split.
  - intros (Hrows & (last & clock & Hlast & Hday) & (i & c & Hi & Hstart)).
    split; [|split].
    + intros j Hj.
      replace j with (nrows sheet - 1 - (nrows sheet - 1 - j))%nat by lia.
      apply (valid_row_reversed sheet full_data _ Hfull), Hrows. lia.
    + exists clock. rewrite (Hcell _ _ plain_report_date) in Hday.
      now replace (nrows sheet - 1 - last)%nat with 0%nat in Hday by lia.
    + exists (nrows sheet - 1 - i)%nat, c. split; [lia|].
      now rewrite <- (Hcell _ _ plain_report_date).
  - intros (Hrows & (clock & Hday) & (i & c & Hi & Hstart)).
    split; [|split].
    + intros j Hj. apply (valid_row_reversed sheet full_data _ Hfull), Hrows.
      lia.
    + exists (nrows sheet - 1)%nat, clock. split; [lia|].
      rewrite (Hcell _ _ plain_report_date).
      now replace (nrows sheet - 1 - (nrows sheet - 1))%nat with 0%nat by lia.
    + exists (nrows sheet - 1 - i)%nat, c. split; [lia|].
      rewrite (Hcell _ _ plain_report_date).
      now replace (nrows sheet - 1 - (nrows sheet - 1 - i))%nat with i by lia.
Qed.

Lemma checkfile_outcomes (w : world) (inputfile : string) :
  checkfile w inputfile = (Returns true, [Rename inputfile new_name]) \/
  exists e, checkfile w inputfile = (Raises e, []).
Proof.
  unfold checkfile.
  destruct (isfile w inputfile); cbn [negb]; [|right; eauto].
  destruct (String.eqb (snd (splitext inputfile)) ".xlsx");
    cbn [negb]; [|right; eauto].
  destruct (String.eqb (fst (splitext (basename inputfile))) (expected_name w));
    cbn [negb]; [|right; eauto].
  destruct (check_content w inputfile); [|right; eauto].
  destruct (rename w inputfile new_name); [right; eauto|now left].
Qed.

Lemma checkfile_accepts (w : world) (inputfile : string) :
  checkfile w inputfile = (Returns true, [Rename inputfile new_name]) <->
  exists sheet,
    opens w inputfile sheet /\
    (forall i, (i < nrows sheet)%nat -> valid_row sheet i) /\
    (exists clock,
       iloc sheet "report_date" 0 = Timestamp (yesterday w) clock) /\
    (exists i clock,
       (i < nrows sheet)%nat /\
       iloc sheet "report_date" i = Timestamp "20200228" clock) /\
    rename w inputfile new_name = None.
Proof.
  split.
  - intros H.
    destruct (checkfile_returns_opens w inputfile true) as (sheet & Hopen);
      [now rewrite H|].
    exists sheet. split; [exact Hopen|].
    destruct (checkfile_after_open _ _ _ Hopen) as (full_data & Hfull & Hcall).
    rewrite Hcall in H.
    destruct (check_rows w full_data) as [u|e] eqn:Hrows; [|discriminate].
    apply (check_rows_reversed w sheet full_data u Hfull) in Hrows.
    destruct Hrows as (Hv & Hl & Hs).
    repeat (split; [assumption|]).
    destruct (rename w inputfile new_name); [discriminate|reflexivity].
  - intros (sheet & Hopen & Hv & Hl & Hs & Hren).
    destruct (checkfile_after_open _ _ _ Hopen) as (full_data & Hfull & Hcall).
    rewrite Hcall, Hren.
    now rewrite (proj2 (check_rows_reversed w sheet full_data tt Hfull)).
Qed.

(** X19. A call either returns [True], having renamed the file, or raises,
    having renamed nothing.  It returns exactly when the file exists, has
    the extension and the name expected today, the workbook has the three
    columns, every row has a date and two numbers that are not below zero,
    the residents not above the total, the first row of the file is dated
    yesterday, some row is dated 2020-02-28, and the renaming succeeds. *)
Theorem checkfile_accepts_iff (w : world) (inputfile : string) :
  (checkfile w inputfile = (Returns true, [Rename inputfile new_name]) \/
   exists e, checkfile w inputfile = (Raises e, [])) /\
  (checkfile w inputfile = (Returns true, [Rename inputfile new_name]) <->
   exists sheet,
     opens w inputfile sheet /\
     (forall i, (i < nrows sheet)%nat -> valid_row sheet i) /\
     (exists clock,
        iloc sheet "report_date" 0 = Timestamp (yesterday w) clock) /\
     (exists i clock,
        (i < nrows sheet)%nat /\
        iloc sheet "report_date" i = Timestamp "20200228" clock) /\
     rename w inputfile new_name = None).
Proof.
  split; [apply checkfile_outcomes|apply checkfile_accepts].
Qed.

(** *** The line of the first error *)

Lemma seq_split_at (n i : nat) :
  (i < n)%nat -> seq 0 n = (seq 0 i ++ i :: seq (S i) (n - S i))%list.
Proof.
  intros Hi. replace n with (i + S (n - S i))%nat at 1 by lia.
  now rewrite seq_app.
Qed.

Lemma text_entry_reversed (sheet full_data : frame) (i : nat) :
  reversed_reset_index sheet = Returns full_data ->
  text_entry full_data i = text_entry sheet (nrows sheet - 1 - i).
Proof.
  intros Hfull.
  destruct (reversed_reset_index_returns _ _ Hfull) as (_ & _ & Hcell & _).
  unfold text_entry.
  now rewrite (Hcell _ i plain_new_cases), (Hcell _ i plain_new_cases_resident).
Qed.

Lemma negative_entry_reversed (sheet full_data : frame) (i : nat) :
  reversed_reset_index sheet = Returns full_data ->
  negative_entry full_data i <-> negative_entry sheet (nrows sheet - 1 - i).
Proof.
  intros Hfull.
  destruct (reversed_reset_index_returns _ _ Hfull) as (_ & _ & Hcell & _).
  unfold negative_entry.
  now rewrite (Hcell _ i plain_new_cases), (Hcell _ i plain_new_cases_resident).
Qed.

Lemma negative_entry_not_text (sheet : frame) (i : nat) :
  negative_entry sheet i -> text_entry sheet i = false.
Proof.
  intros (a & b & Ha & Hb & _). unfold text_entry. now rewrite Ha, Hb.
Qed.

(** X20. The line of the message.  When the file opens and row [k]
    (counted from 0, in the order of the file) has a count that is a
    [str], or has two numbers one of which is below zero, while every row
    after it has two numbers that are not below zero, the call raises the
    error of that row with the line [k + 1], and renames nothing: the rows
    are read from the last to the first, and the line counts the rows of
    data from 1, the header left out. *)
Theorem checkfile_reports_last_bad_row (w : world) (inputfile : string)
  (sheet : frame) (k : nat) :
  opens w inputfile sheet ->
  (k < nrows sheet)%nat ->
  text_entry sheet k = true \/ negative_entry sheet k ->
  (forall j, (k < j < nrows sheet)%nat -> clean_entry sheet j) ->
  checkfile w inputfile
  = (Raises (ValueError
       ((if text_entry sheet k
         then "Error: invalid data entry detected (not a number) at line "
         else "Warning: invalid data entry detected (negative number) at line ")
        ++ str (S k))),
     []).
Proof.
  intros Hopen Hk Hbad Hclean.
  destruct (checkfile_after_open _ _ _ Hopen) as (full_data & Hfull & Hcall).
  destruct (reversed_reset_index_returns _ _ Hfull) as (_ & Hn & _ & _).
  rewrite Hcall. unfold check_rows. rewrite Hn.
  rewrite (seq_split_at (nrows sheet) (nrows sheet - 1 - k)) by lia.
  erewrite for_range_first_failure; [reflexivity| |].
  - apply Forall_forall. intros j Hj. apply in_seq in Hj.
    apply check_entry_returns, (clean_entry_reversed sheet full_data j Hfull).
    apply Hclean. lia.
  - assert (Hrow : (nrows sheet - 1 - (nrows sheet - 1 - k) = k)%nat) by lia.
    assert (Hline : (nrows full_data - (nrows sheet - 1 - k) = S k)%nat) by lia.
    destruct Hbad as [Htext|Hneg].
    + rewrite Htext, <- Hline. apply check_entry_text.
      now rewrite (text_entry_reversed sheet full_data _ Hfull), Hrow.
    + rewrite (negative_entry_not_text _ _ Hneg), <- Hline.
      apply check_entry_negative.
      apply (negative_entry_reversed sheet full_data _ Hfull).
      now rewrite Hrow.
Qed.

(** *** The example *)

Lemma example_opens (cases : cell) :
  opens (example_world cases) example_file (example_sheet cases).
Proof.
  unfold opens. split; [reflexivity|]. split; [vm_compute; reflexivity|].
  split; [vm_compute; reflexivity|]. split; [reflexivity|].
  cbn [example_sheet columns In]. split; [|tauto].
  intros [H|[H|[H|[]]]]; discriminate H.
Qed.

Lemma example_accepted :
  checkfile (example_world (Number (Fin 2))) example_file
  = (Returns true, [Rename example_file new_name]).
Proof.
  apply checkfile_accepts. exists (example_sheet (Number (Fin 2))).
  split; [apply example_opens|]. split; [|split; [|split]].
  - intros i Hi. cbn [example_sheet nrows] in Hi. unfold valid_row.
    destruct i as [|[|[|i]]]; [| | |lia]; cbn [example_sheet iloc];
      eexists _, _, _, _;
      (split; [reflexivity|]); (split; [reflexivity|]);
      (split; [reflexivity|]);
      (split; [apply gtb_Fin_false; lra|]);
      (split; apply gtb_Fin_false; lra).
  - now exists 0%N.
  - exists 2%nat, 0%N. split; [cbn; lia|reflexivity].
  - reflexivity.
Qed.

Lemma checkfile_reports_last_bad_row_witness :
  checkfile (example_world (Text "x")) example_file
  = (Raises (ValueError
       ((if text_entry (example_sheet (Text "x")) 1
         then "Error: invalid data entry detected (not a number) at line "
         else "Warning: invalid data entry detected (negative number) at line ")
        ++ str 2)),
     []).
Proof.
  apply (checkfile_reports_last_bad_row (example_world (Text "x"))
           example_file (example_sheet (Text "x")) 1).
  - apply example_opens.
  - simpl. lia.
  - left. reflexivity.
  - intros j Hj. simpl in Hj. assert (j = 2%nat) as -> by lia.
    exists (Fin 1), (Fin 1). split; [reflexivity|]. split; [reflexivity|].
    split; apply gtb_Fin_false; lra.
Defined.

(** *** Empty counts *)

Lemma with_sheet_opens (w : world) (inputfile : string) (sheet sheet' : frame) :
  opens w inputfile sheet ->
  columns sheet' = columns sheet ->
  opens (with_sheet w sheet') inputfile sheet'.
Proof.
  intros (Hfile & Hext & Hname & _ & Hidx & Hd & Hc & Hr) Hcols.
  unfold opens. rewrite Hcols. cbn [with_sheet isfile read_excel].
  repeat (split; [assumption|]). split; [reflexivity|].
  repeat (split; [assumption|]). exact Hr.
Qed.

Lemma blank_counts_valid_row (sheet : frame) (i j : nat) :
  valid_row sheet j -> valid_row (blank_counts sheet i) j.
Proof.
  intros (a & b & d & c & Ha & Hb & Hd & Ha0 & Hb0 & Hab).
  unfold valid_row, blank_counts. cbn [iloc].
  destruct (Nat.eqb j i).
  - exists NaN, NaN, d, c. now repeat split.
  - now exists a, b, d, c.
Qed.

(** X21. Empty counts pass.  When a workbook is accepted, it is still
    accepted after both counts of any row have been left empty: an empty
    cell is read as [NaN], which is no [str], is not below zero and is not
    below any number. *)
Theorem blank_counts_are_accepted (w : world) (inputfile : string)
  (sheet : frame) (i : nat) :
  read_excel w inputfile = Returns sheet ->
  checkfile w inputfile = (Returns true, [Rename inputfile new_name]) ->
  checkfile (with_sheet w (blank_counts sheet i)) inputfile
  = (Returns true, [Rename inputfile new_name]).
Proof.
  intros Hread Hacc. apply checkfile_accepts in Hacc.
  destruct Hacc as (sheet0 & Hopen & Hrows & (c & Hlatest) & (k & c' & Hk & Hstart) & Hren).
  assert (sheet0 = sheet) as ->.
  { destruct Hopen as (_ & _ & _ & H & _). congruence. }
  apply checkfile_accepts. exists (blank_counts sheet i).
  split; [now apply (with_sheet_opens w inputfile sheet)|].
  split; [|split; [|split]].
  - intros j Hj. apply blank_counts_valid_row, Hrows. exact Hj.
  - exists c. cbn [blank_counts iloc]. now rewrite andb_false_r.
  - exists k, c'. split; [exact Hk|]. cbn [blank_counts iloc].
    now rewrite andb_false_r.
  - exact Hren.
Qed.

Lemma blank_counts_are_accepted_witness :
  checkfile (with_sheet (example_world (Number (Fin 2)))
               (blank_counts (example_sheet (Number (Fin 2))) 1))
            example_file
  = (Returns true, [Rename example_file new_name]).
Proof.
  apply (blank_counts_are_accepted (example_world (Number (Fin 2)))
           example_file (example_sheet (Number (Fin 2))) 1).
  - reflexivity.
  - exact example_accepted.
Defined.

(** *** A workbook without rows *)

(** X22. A workbook that opens and has no row is not refused with one of
    the messages of the check: both loops pass, and reading the last row
    raises an [IndexError]. *)
Theorem checkfile_empty_sheet (w : world) (inputfile : string) (sheet : frame) :
  opens w inputfile sheet ->
  nrows sheet = 0%nat ->
  checkfile w inputfile
  = (Raises (IndexError "single positional indexer is out-of-bounds"), []).
Proof.
  intros Hopen Hempty.
  destruct (checkfile_after_open _ _ _ Hopen) as (full_data & Hfull & Hcall).
  destruct (reversed_reset_index_returns _ _ Hfull) as (_ & Hn & _ & _).
  rewrite Hcall. unfold check_rows, check_latest. rewrite Hn, Hempty.
  reflexivity.
Qed.

Lemma checkfile_empty_sheet_witness :
  checkfile (with_sheet (example_world (Number (Fin 2))) empty_sheet)
            example_file
  = (Raises (IndexError "single positional indexer is out-of-bounds"), []).
Proof.
  apply (checkfile_empty_sheet
           (with_sheet (example_world (Number (Fin 2))) empty_sheet)
           example_file empty_sheet).
  - apply (with_sheet_opens _ _ (example_sheet (Number (Fin 2)))).
    + apply example_opens.
    + reflexivity.
  - reflexivity.
Defined.

(** *** The name of the file *)

Lemma string_length_app (x y : string) :
  String.length (x ++ y) = (String.length x + String.length y)%nat.
Proof. induction x as [|a x IH]; simpl; [reflexivity|]. now rewrite IH. Qed.

Lemma string_app_empty_r (x : string) : x ++ EmptyString = x.
Proof. induction x as [|a x IH]; simpl; [reflexivity|]. now rewrite IH. Qed.

Lemma app_assoc_string (x y z : string) : (x ++ y) ++ z = x ++ (y ++ z).
Proof. induction x as [|a x IH]; simpl; [reflexivity|]. now rewrite IH. Qed.

Lemma substring_app_skip (x y : string) (a n : nat) :
  substring (String.length x + a) n (x ++ y) = substring a n y.
Proof. induction x as [|c x IH]; simpl; [reflexivity|]. exact IH. Qed.

Lemma from_app_skip (x y : string) (a : nat) :
  from (String.length x + a) (x ++ y) = from a y.
Proof.
  unfold from. rewrite string_length_app, substring_app_skip. f_equal. lia.
Qed.

Lemma substring_from (p : string) (d : nat) :
  substring 0 d p ++ from d p = p.
Proof.
  unfold from. revert d. induction p as [|a p IH]; intros d.
  - destruct d; reflexivity.
  - destruct d as [|d].
    + cbn [substring append String.length Nat.sub]. f_equal.
      specialize (IH 0%nat). rewrite Nat.sub_0_r in IH.
      destruct p; [reflexivity|]. cbn [substring append] in IH. exact IH.
    + cbn [substring append String.length Nat.sub]. f_equal. apply IH.
Qed.

Lemma rfind_app (c : ascii) (x y : string) :
  rfind c (x ++ y)
  = match rfind c y with
    | Some j => Some (String.length x + j)%nat
    | None => rfind c x
    end.
Proof.
  induction x as [|a x IH]; cbn [append rfind String.length].
  - now destruct (rfind c y).
  - rewrite IH. destruct (rfind c y); [reflexivity|].
    reflexivity.
Qed.

Lemma rfind_split (c : ascii) (p : string) (i : nat) :
  rfind c p = Some i ->
  exists pre post,
    p = pre ++ String c post /\ String.length pre = i /\ rfind c post = None.
Proof.
  revert i. induction p as [|a p IH]; intros i; cbn [rfind]; [discriminate|].
  destruct (rfind c p) as [j|] eqn:E.
  - intros [= <-]. destruct (IH j eq_refl) as (pre & post & -> & Hl & Hn).
    exists (String a pre), post. cbn [append String.length].
    now rewrite Hl.
  - destruct (Ascii.eqb a c) eqn:Ea; [|discriminate]. intros [= <-].
    apply Ascii.eqb_eq in Ea. subst a. now exists EmptyString, p.
Qed.

Lemma rfind_bound (c : ascii) (p : string) (i : nat) :
  rfind c p = Some i -> (i < String.length p)%nat.
Proof.
  intros H. destruct (rfind_split c p i H) as (pre & post & -> & <- & _).
  rewrite string_length_app. simpl. lia.
Qed.

(** The two parts of [splitext] make up the path. *)
Lemma splitext_append (p : string) :
  fst (splitext p) ++ snd (splitext p) = p.
Proof.
  unfold splitext. destruct (rfind "." p) as [d|]; [|apply string_app_empty_r].
  match goal with |- context [if ?b then _ else _] => destruct b end;
    cbn [fst snd]; [apply substring_from|apply string_app_empty_r].
Qed.

Lemma from_0 (b : string) : from 0 b = b.
Proof.
  pose proof (substring_from b 0) as H.
  destruct b; [reflexivity|exact H].
Qed.

Lemma rfind_last_sep (pre b : string) :
  rfind "/" b = None ->
  rfind "/" ((pre ++ "/") ++ b) = Some (String.length pre).
Proof.
  intros Hb. rewrite rfind_app, Hb, rfind_app.
  change (rfind "/" "/") with (Some 0%nat). cbv iota. f_equal. lia.
Qed.

(** In a directory, a component keeps its extension or the path has
    none. *)
Lemma splitext_in_dir (pre b : string) :
  rfind "/" b = None ->
  snd (splitext ((pre ++ "/") ++ b)) = snd (splitext b) \/
  snd (splitext ((pre ++ "/") ++ b)) = EmptyString.
Proof.
  intros Hb. unfold splitext.
  rewrite (rfind_last_sep pre b Hb), Hb, rfind_app.
  assert (HL : S (String.length pre) = (String.length (pre ++ "/") + 0)%nat)
    by (rewrite string_length_app; simpl; lia).
  rewrite HL. set (L := String.length (pre ++ "/")).
  destruct (rfind "." b) as [j|] eqn:Edot.
  - left.
    replace (L + 0 <=? L + j)%nat with true
      by (symmetry; apply Nat.leb_le; lia).
    replace (L + j - (L + 0))%nat with j by lia.
    unfold L. rewrite substring_app_skip, from_app_skip.
    cbn [Nat.leb andb]. rewrite Nat.sub_0_r.
    now destruct (existsb _ _).
  - right.
    destruct (rfind "." (pre ++ "/")) as [d|] eqn:Ed; [|reflexivity].
    apply rfind_bound in Ed. fold L in Ed.
    replace (L + 0 <=? d)%nat with false
      by (symmetry; apply Nat.leb_gt; lia).
    reflexivity.
Qed.

Lemma path_split (p : string) (s : nat) :
  rfind "/" p = Some s ->
  exists pre b,
    p = (pre ++ "/") ++ b /\ rfind "/" b = None /\ from (S s) p = b.
Proof.
  intros Esep.
  destruct (rfind_split _ _ _ Esep) as (pre & b & -> & Hs & Hb). subst s.
  exists pre, b. rewrite app_assoc_string. split; [reflexivity|].
  split; [exact Hb|].
  replace (S (String.length pre)) with (String.length (pre ++ "/") + 0)%nat
    by (rewrite string_length_app; simpl; lia).
  replace (pre ++ String "/" b) with ((pre ++ "/") ++ b)
    by (now rewrite app_assoc_string).
  now rewrite from_app_skip, from_0.
Qed.

(** An extension of the path is the extension of its last component. *)
Lemma splitext_basename (p : string) :
  snd (splitext p) <> EmptyString ->
  snd (splitext (basename p)) = snd (splitext p).
Proof.
  intros Hext. unfold basename.
  destruct (rfind "/" p) as [s|] eqn:Esep; [|reflexivity].
  destruct (path_split p s Esep) as (pre & b & Hp & Hb & ->).
  rewrite Hp in *.
  destruct (splitext_in_dir pre b Hb) as [H|H]; congruence.
Qed.

Lemma basename_split (p : string) :
  exists dir,
    p = dir ++ basename p /\
    (dir = EmptyString \/ exists parent, dir = parent ++ "/").
Proof.
  unfold basename. destruct (rfind "/" p) as [s|] eqn:Esep.
  - destruct (path_split p s Esep) as (pre & b & Hp & _ & ->).
    exists (pre ++ "/"). split; [exact Hp|right; now exists pre].
  - exists EmptyString. split; [reflexivity|now left].
Qed.

(** X23. The name of an accepted file.  A call returns only for a path
    whose last component is [clinical_monitoring_], the day of the call,
    [_cleaned_case_and_hospital_data.xlsx]; the directory is free. *)
Theorem accepted_file_name (w : world) (inputfile : string) (b : bool) :
  fst (checkfile w inputfile) = Returns b ->
  exists dir,
    inputfile
    = dir ++ "clinical_monitoring_" ++ today w
          ++ "_cleaned_case_and_hospital_data" ++ ".xlsx" /\
    (dir = EmptyString \/ exists parent, dir = parent ++ "/").
Proof.
  intros H. destruct (checkfile_returns_opens _ _ _ H)
    as (sheet & _ & Hext & Hname & _).
  destruct (basename_split inputfile) as (dir & Hp & Hdir).
  exists dir. split; [|exact Hdir].
  rewrite Hp at 1. f_equal.
  rewrite <- (splitext_append (basename inputfile)).
  rewrite splitext_basename by (rewrite Hext; discriminate).
  rewrite Hname, Hext. unfold expected_name.
  now rewrite !app_assoc_string.
Qed.

Lemma accepted_file_name_witness :
  exists dir,
    example_file
    = dir ++ "clinical_monitoring_" ++ today (example_world (Number (Fin 2)))
          ++ "_cleaned_case_and_hospital_data" ++ ".xlsx" /\
    (dir = EmptyString \/ exists parent, dir = parent ++ "/").
Proof.
  apply (accepted_file_name (example_world (Number (Fin 2))) example_file true).
  now rewrite example_accepted.
Defined.
